(** * OPD token allocation engine: a shallow embedding and its properties

    The development follows the TypeScript sources:
    - [types/domain.ts]        records [Doctor], [TimeSlot], [Token], [AllocationResult]
    - [core/priorityRules.ts]  module [priorityRules]
    - [store/memoryStore.ts]   module [store] (the [MemoryStore] singleton) and
                               [store/seedData.ts] ([createSlotsForDoctor])
    - [core/slotManager.ts]    module [slotManager]
    - [core/tokenAllocator.ts] module [tokenAllocator]
    - [core/delayHandler.ts]   module [delayHandler]

    JavaScript objects are references.  [MemoryStore] keeps [Map]s from ids to
    objects, [getSlot] hands out the stored object itself, and [updateSlot]
    replaces it by a fresh copy [{ ...slot, ...updates }].  The embedding keeps
    that distinction: a map associates ids with references into a heap of
    objects, an assignment [slot.f = v] writes the heap cell, and a spread
    allocates a new cell. *)

From stdpp Require Import base decidable option list sorting strings.
From Stdlib Require Import ZArith Lia DecimalString.

Set Warnings "-clear-no-such-hyp".

Local Open Scope Z_scope.
Local Open Scope string_scope.

(** ** types/enums.ts *)

(** Modelled from the spec: [types/enums.ts] is not among the sources.  The
    members are the five patient categories, six token statuses and four slot
    statuses that the spec lists and that the code names. *)
Inductive PatientType :=
  EMERGENCY | PAID_PRIORITY | FOLLOW_UP | ONLINE_BOOKING | WALK_IN.

(** Modelled from the spec: see [PatientType]. *)
Inductive TokenStatus :=
  PENDING | ALLOCATED | WAITLISTED | COMPLETED | CANCELLED | NO_SHOW.

(** Modelled from the spec: see [PatientType]. *)
Inductive SlotStatus := AVAILABLE | FULL | OVERFLOW | CLOSED.

#[global] Instance PatientType_eq_dec : EqDecision PatientType.
Proof. solve_decision. Defined.
#[global] Instance TokenStatus_eq_dec : EqDecision TokenStatus.
Proof. solve_decision. Defined.
#[global] Instance SlotStatus_eq_dec : EqDecision SlotStatus.
Proof. solve_decision. Defined.

(** ** types/domain.ts *)

Module Doctor.
Record t := mk {
  id : string;
  name : string;
  specialization : string;
  availableSlots : list string }.
End Doctor.

Module TimeSlot.
Record t := mk {
  id : string;
  doctorId : string;
  startTime : string;
  endTime : string;
  maxCapacity : Z;
  currentLoad : Z;
  status : SlotStatus;
  allocatedTokens : list string;
  waitlist : list string }.

Definition set_currentLoad (v : Z) (s : t) : t :=
  mk (id s) (doctorId s) (startTime s) (endTime s) (maxCapacity s) v
     (status s) (allocatedTokens s) (waitlist s).
Definition set_status (v : SlotStatus) (s : t) : t :=
  mk (id s) (doctorId s) (startTime s) (endTime s) (maxCapacity s)
     (currentLoad s) v (allocatedTokens s) (waitlist s).
Definition set_allocatedTokens (v : list string) (s : t) : t :=
  mk (id s) (doctorId s) (startTime s) (endTime s) (maxCapacity s)
     (currentLoad s) (status s) v (waitlist s).
Definition set_waitlist (v : list string) (s : t) : t :=
  mk (id s) (doctorId s) (startTime s) (endTime s) (maxCapacity s)
     (currentLoad s) (status s) (allocatedTokens s) v.

(** Content of a heap cell that no reference of a well-formed store
    designates. *)
Definition blank : t := mk EmptyString EmptyString EmptyString EmptyString 0 0 AVAILABLE [] [].
End TimeSlot.

Module Token.
Record t := mk {
  id : string;
  patientName : string;
  patientType : PatientType;
  priority : Z;
  doctorId : string;
  slotId : option string;
  status : TokenStatus;
  createdAt : Z;
  allocatedAt : option Z;
  bumpCount : Z }.

Definition set_slotId (v : option string) (k : t) : t :=
  mk (id k) (patientName k) (patientType k) (priority k) (doctorId k) v
     (status k) (createdAt k) (allocatedAt k) (bumpCount k).
Definition set_status (v : TokenStatus) (k : t) : t :=
  mk (id k) (patientName k) (patientType k) (priority k) (doctorId k)
     (slotId k) v (createdAt k) (allocatedAt k) (bumpCount k).
Definition set_allocatedAt (v : option Z) (k : t) : t :=
  mk (id k) (patientName k) (patientType k) (priority k) (doctorId k)
     (slotId k) (status k) (createdAt k) v (bumpCount k).
Definition set_bumpCount (v : Z) (k : t) : t :=
  mk (id k) (patientName k) (patientType k) (priority k) (doctorId k)
     (slotId k) (status k) (createdAt k) (allocatedAt k) v.

Definition blank : t := mk EmptyString EmptyString WALK_IN 0 EmptyString None PENDING 0 None 0.
End Token.

Record SlotInfo := mkSlotInfo {
  info_slotId : string;
  info_currentLoad : Z;
  info_maxCapacity : Z }.

Record AllocationResult := mkResult {
  success : bool;
  token : option Token.t;
  message : string;
  slotInfo : option SlotInfo }.

(** A [Partial<T>] argument of [updateSlot] / [updateToken] denotes the fields
    it overrides in [{ ...old, ...updates }]; it is represented by that
    override.  Passing a whole object overrides every field. *)
Definition Partial (T : Type) : Type := T -> T.

Definition whole {T : Type} (o : T) : Partial T := fun _ => o.

(** JavaScript truthiness of an optional string: [undefined] and the empty
    string are falsy. *)
Definition truthy (s : option string) : bool :=
  match s with
  | Some x => negb (String.eqb x EmptyString)
  | None => false
  end.

(** Template-literal rendering of an integer. *)
Definition show (z : Z) : string := NilZero.string_of_int (Z.to_int z).

(** [Array.prototype.sort(cmp)]: a stable sort; [a] is placed before [b] when
    [cmp a b < 0] and elements that compare equal keep their order. *)
Fixpoint js_insert {A : Type} (cmp : A -> A -> Z) (x : A) (l : list A) : list A :=
  match l with
  | [] => [x]
  | y :: l' => if decide (cmp x y <= 0) then x :: y :: l' else y :: js_insert cmp x l'
  end.

Definition js_sort {A : Type} (cmp : A -> A -> Z) (l : list A) : list A :=
  foldr (js_insert cmp) [] l.

(** ** core/priorityRules.ts *)

Module priorityRules.

Definition PRIORITY_SCORES (p : PatientType) : Z :=
  match p with
  | EMERGENCY => 100
  | PAID_PRIORITY => 80
  | FOLLOW_UP => 60
  | ONLINE_BOOKING => 40
  | WALK_IN => 20
  end.

Definition getPriorityScore (patientType : PatientType) : Z :=
  PRIORITY_SCORES patientType.

Definition canBump (bumperType bumpedType : PatientType) : bool :=
  if decide (bumperType = EMERGENCY) then true
  else if decide (bumperType = PAID_PRIORITY) then bool_decide (bumpedType = WALK_IN)
  else false.

Definition compareTokenPriority (aPriority aTimestamp bPriority bTimestamp : Z) : Z :=
  if decide (aPriority <> bPriority) then bPriority - aPriority
  else aTimestamp - bTimestamp.

Definition MAX_BUMP_COUNT : Z := 2.

Definition canBeBumped (currentBumpCount : Z) : bool :=
  bool_decide (currentBumpCount < MAX_BUMP_COUNT).

End priorityRules.

(** ** store/memoryStore.ts *)

(** A [Map<string, V>] keeps its keys in insertion order; [set] on a present
    key replaces the value in place. *)
Fixpoint map_get {V : Type} (k : string) (m : list (string * V)) : option V :=
  match m with
  | [] => None
  | (k', v) :: m' => if decide (k' = k) then Some v else map_get k m'
  end.

Fixpoint map_set {V : Type} (k : string) (v : V) (m : list (string * V)) : list (string * V) :=
  match m with
  | [] => [(k, v)]
  | (k', v') :: m' => if decide (k' = k) then (k, v) :: m' else (k', v') :: map_set k v m'
  end.

Definition ref := nat.

Record MemoryStore := mkStore {
  doctors : list (string * Doctor.t);
  slots : list (string * ref);
  tokens : list (string * ref);
  slotHeap : list TimeSlot.t;
  tokenHeap : list Token.t }.

Module store.

Definition clear : MemoryStore := mkStore [] [] [] [] [].

(** Reading the object behind a reference. *)
Definition slotAt (st : MemoryStore) (r : ref) : TimeSlot.t :=
  default TimeSlot.blank (slotHeap st !! r).
Definition tokenAt (st : MemoryStore) (r : ref) : Token.t :=
  default Token.blank (tokenHeap st !! r).

(** An object literal or a spread: a new object. *)
Definition newSlot (o : TimeSlot.t) (st : MemoryStore) : ref * MemoryStore :=
  (length (slotHeap st),
   mkStore (doctors st) (slots st) (tokens st) (slotHeap st ++ [o]) (tokenHeap st)).
Definition newToken (o : Token.t) (st : MemoryStore) : ref * MemoryStore :=
  (length (tokenHeap st),
   mkStore (doctors st) (slots st) (tokens st) (slotHeap st) (tokenHeap st ++ [o])).

(** An assignment to fields of an object, [slot.f = v]. *)
Definition assignSlot (r : ref) (f : TimeSlot.t -> TimeSlot.t) (st : MemoryStore) : MemoryStore :=
  mkStore (doctors st) (slots st) (tokens st)
          (<[r := f (slotAt st r)]> (slotHeap st)) (tokenHeap st).
Definition assignToken (r : ref) (f : Token.t -> Token.t) (st : MemoryStore) : MemoryStore :=
  mkStore (doctors st) (slots st) (tokens st)
          (slotHeap st) (<[r := f (tokenAt st r)]> (tokenHeap st)).

Definition addDoctor (doctor : Doctor.t) (st : MemoryStore) : MemoryStore :=
  mkStore (map_set (Doctor.id doctor) doctor (doctors st)) (slots st) (tokens st)
          (slotHeap st) (tokenHeap st).

Definition getDoctor (id : string) (st : MemoryStore) : option Doctor.t :=
  map_get id (doctors st).

Definition addSlot (slot : ref) (st : MemoryStore) : MemoryStore :=
  mkStore (doctors st) (map_set (TimeSlot.id (slotAt st slot)) slot (slots st)) (tokens st)
          (slotHeap st) (tokenHeap st).

Definition getSlot (id : string) (st : MemoryStore) : option ref :=
  map_get id (slots st).

Definition updateSlot (id : string) (updates : Partial TimeSlot.t) (st : MemoryStore) : MemoryStore :=
  match map_get id (slots st) with
  | Some slot =>
      let '(o, st1) := newSlot (updates (slotAt st slot)) st in
      mkStore (doctors st1) (map_set id o (slots st1)) (tokens st1)
              (slotHeap st1) (tokenHeap st1)
  | None => st
  end.

Definition getSlotsByDoctor (doctorId : string) (st : MemoryStore) : list ref :=
  filter (fun slot => TimeSlot.doctorId (slotAt st slot) = doctorId) (map snd (slots st)).

Definition addToken (token : ref) (st : MemoryStore) : MemoryStore :=
  mkStore (doctors st) (slots st) (map_set (Token.id (tokenAt st token)) token (tokens st))
          (slotHeap st) (tokenHeap st).

Definition getToken (id : string) (st : MemoryStore) : option ref :=
  map_get id (tokens st).

Definition updateToken (id : string) (updates : Partial Token.t) (st : MemoryStore) : MemoryStore :=
  match map_get id (tokens st) with
  | Some token =>
      let '(o, st1) := newToken (updates (tokenAt st token)) st in
      mkStore (doctors st1) (slots st1) (map_set id o (tokens st1))
              (slotHeap st1) (tokenHeap st1)
  | None => st
  end.

(** [Array.from(this.tokens.values())]. *)
Definition getAllTokens (st : MemoryStore) : list ref := map snd (tokens st).

Definition getTokensBySlot (slotId : string) (st : MemoryStore) : list ref :=
  filter (fun token => Token.slotId (tokenAt st token) = Some slotId) (getAllTokens st).

End store.

(** ** store/seedData.ts *)

Module seedData.

(** [start.replace(':', '')]: the first colon is dropped. *)
Fixpoint replaceColon (s : string) : string :=
  match s with
  | EmptyString => EmptyString
  | String c s' => if Ascii.eqb c (Ascii.ascii_of_nat 58) then s' else String c (replaceColon s')
  end.

(** Body of the [timeSlots.forEach] loop of [createSlotsForDoctor]; the
    time slots are the pairs that [generateTimeSlots] returned. *)
Definition createSlot (doctorId : string) (maxCapacity : Z)
    (timeSlot : string * string) (st : MemoryStore) : string * MemoryStore :=
  let slotId := "slot-" +:+ doctorId +:+ "-" +:+ replaceColon (fst timeSlot) in
  let '(slot, st1) :=
    store.newSlot (TimeSlot.mk slotId doctorId (fst timeSlot) (snd timeSlot)
                               maxCapacity 0 AVAILABLE [] []) st in
  (slotId, store.addSlot slot st1).

Fixpoint createSlots (doctorId : string) (maxCapacity : Z)
    (timeSlots : list (string * string)) (st : MemoryStore) : list string * MemoryStore :=
  match timeSlots with
  | [] => ([], st)
  | timeSlot :: rest =>
      let '(slotId, st1) := createSlot doctorId maxCapacity timeSlot st in
      let '(ids, st2) := createSlots doctorId maxCapacity rest st1 in
      (slotId :: ids, st2)
  end.

Definition createSlotsForDoctor (doctorId : string) (timeSlots : list (string * string))
    (maxCapacity : Z) (st : MemoryStore) : option MemoryStore :=
  match store.getDoctor doctorId st with
  | None => None
  | Some doctor =>
      let '(ids, st1) := createSlots doctorId maxCapacity timeSlots st in
      Some (store.addDoctor
              (Doctor.mk (Doctor.id doctor) (Doctor.name doctor)
                         (Doctor.specialization doctor)
                         (Doctor.availableSlots doctor ++ ids)) st1)
  end.

End seedData.

(** ** core/slotManager.ts *)

Module slotManager.

Definition hasCapacity (slotId : string) (st : MemoryStore) : bool :=
  match store.getSlot slotId st with
  | None => false
  | Some slot =>
      bool_decide (TimeSlot.currentLoad (store.slotAt st slot)
                   < TimeSlot.maxCapacity (store.slotAt st slot))
  end.

Definition updateSlotStatus (slotId : string) (st : MemoryStore) : MemoryStore :=
  match store.getSlot slotId st with
  | None => st
  | Some slot =>
      let o := store.slotAt st slot in
      let newStatus :=
        if decide (TimeSlot.currentLoad o = 0) then AVAILABLE
        else if decide (TimeSlot.currentLoad o < TimeSlot.maxCapacity o) then AVAILABLE
        else if decide (TimeSlot.currentLoad o = TimeSlot.maxCapacity o) then FULL
        else OVERFLOW in
      store.updateSlot slotId (TimeSlot.set_status newStatus) st
  end.

Definition addTokenToSlot (slotId tokenId : string) (st : MemoryStore) : option MemoryStore :=
  match store.getSlot slotId st with
  | None => None
  | Some slot =>
      let st1 := store.assignSlot slot
        (fun o => TimeSlot.set_allocatedTokens (TimeSlot.allocatedTokens o ++ [tokenId]) o) st in
      let st2 := store.assignSlot slot
        (fun o => TimeSlot.set_currentLoad (Z.of_nat (length (TimeSlot.allocatedTokens o))) o) st1 in
      let st3 := updateSlotStatus slotId st2 in
      Some (store.updateSlot slotId (whole (store.slotAt st3 slot)) st3)
  end.

Definition removeTokenFromSlot (slotId tokenId : string) (st : MemoryStore) : MemoryStore :=
  match store.getSlot slotId st with
  | None => st
  | Some slot =>
      let st1 := store.assignSlot slot
        (fun o => TimeSlot.set_allocatedTokens
                    (filter (fun id => id <> tokenId) (TimeSlot.allocatedTokens o)) o) st in
      let st2 := store.assignSlot slot
        (fun o => TimeSlot.set_currentLoad (Z.of_nat (length (TimeSlot.allocatedTokens o))) o) st1 in
      let st3 := updateSlotStatus slotId st2 in
      store.updateSlot slotId (whole (store.slotAt st3 slot)) st3
  end.

Definition sortWaitlist (slotId : string) (st : MemoryStore) : MemoryStore :=
  match store.getSlot slotId st with
  | None => st
  | Some slot =>
      let waitlistTokens :=
        omap (fun id => store.getToken id st) (TimeSlot.waitlist (store.slotAt st slot)) in
      let sorted :=
        js_sort (fun a b =>
                   priorityRules.compareTokenPriority
                     (Token.priority (store.tokenAt st a)) (Token.createdAt (store.tokenAt st a))
                     (Token.priority (store.tokenAt st b)) (Token.createdAt (store.tokenAt st b)))
                waitlistTokens in
      let st1 := store.assignSlot slot
        (TimeSlot.set_waitlist (map (fun token => Token.id (store.tokenAt st token)) sorted)) st in
      store.updateSlot slotId (whole (store.slotAt st1 slot)) st1
  end.

Definition addToWaitlist (slotId tokenId : string) (st : MemoryStore) : option MemoryStore :=
  match store.getSlot slotId st with
  | None => None
  | Some slot =>
      let st1 := store.assignSlot slot
        (fun o => TimeSlot.set_waitlist (TimeSlot.waitlist o ++ [tokenId]) o) st in
      let st2 := sortWaitlist slotId st1 in
      Some (store.updateSlot slotId (whole (store.slotAt st2 slot)) st2)
  end.

Definition removeFromWaitlist (slotId tokenId : string) (st : MemoryStore) : MemoryStore :=
  match store.getSlot slotId st with
  | None => st
  | Some slot =>
      let st1 := store.assignSlot slot
        (fun o => TimeSlot.set_waitlist
                    (filter (fun id => id <> tokenId) (TimeSlot.waitlist o)) o) st in
      store.updateSlot slotId (whole (store.slotAt st1 slot)) st1
  end.

Definition getNextFromWaitlist (slotId : string) (st : MemoryStore) : option ref :=
  match store.getSlot slotId st with
  | None => None
  | Some slot =>
      match TimeSlot.waitlist (store.slotAt st slot) with
      | [] => None
      | nextTokenId :: _ => store.getToken nextTokenId st
      end
  end.

(** [now] is the value of [new Date()]. *)
Definition promoteFromWaitlist (now : Z) (slotId : string) (st : MemoryStore)
    : option (option ref * MemoryStore) :=
  match getNextFromWaitlist slotId st with
  | None => Some (None, st)
  | Some nextToken =>
      let st1 := removeFromWaitlist slotId (Token.id (store.tokenAt st nextToken)) st in
      match addTokenToSlot slotId (Token.id (store.tokenAt st1 nextToken)) st1 with
      | None => None
      | Some st2 =>
          let st3 := store.updateToken (Token.id (store.tokenAt st2 nextToken))
            (fun k => Token.set_allocatedAt (Some now)
                        (Token.set_slotId (Some slotId) (Token.set_status ALLOCATED k))) st2 in
          Some (store.getToken (Token.id (store.tokenAt st3 nextToken)) st3, st3)
      end
  end.

Definition findBestAvailableSlot (doctorId : string) (st : MemoryStore) : option ref :=
  let slots := store.getSlotsByDoctor doctorId st in
  let availableSlots :=
    filter (fun slot =>
              TimeSlot.status (store.slotAt st slot) <> CLOSED
              /\ TimeSlot.currentLoad (store.slotAt st slot)
                 < TimeSlot.maxCapacity (store.slotAt st slot)) slots in
  head (js_sort (fun a b => TimeSlot.currentLoad (store.slotAt st a)
                            - TimeSlot.currentLoad (store.slotAt st b)) availableSlots).

End slotManager.

(** ** core/tokenAllocator.ts *)

Module tokenAllocator.

(** The update [{ status: ALLOCATED, slotId, allocatedAt: new Date() }]. *)
Definition allocatedUpdate (slotId : string) (now : Z) : Partial Token.t :=
  fun k => Token.set_allocatedAt (Some now)
             (Token.set_slotId (Some slotId) (Token.set_status ALLOCATED k)).

(** [store.getToken(id)!] as it appears in a result. *)
Definition storedToken (id : string) (st : MemoryStore) : option Token.t :=
  store.tokenAt st <$> store.getToken id st.

Definition handleEmergencyAllocation (now : Z) (token : ref) (slotId : string)
    (st : MemoryStore) : option (AllocationResult * MemoryStore) :=
  match slotManager.addTokenToSlot slotId (Token.id (store.tokenAt st token)) st with
  | None => None
  | Some st1 =>
      let st2 := store.updateToken (Token.id (store.tokenAt st1 token))
                                   (allocatedUpdate slotId now) st1 in
      match store.getSlot slotId st2 with
      | None => None
      | Some slot =>
          Some (mkResult true
                  (storedToken (Token.id (store.tokenAt st2 token)) st2)
                  ("Emergency patient allocated (slot in overflow: "
                     +:+ show (TimeSlot.currentLoad (store.slotAt st2 slot)) +:+ "/"
                     +:+ show (TimeSlot.maxCapacity (store.slotAt st2 slot)) +:+ ")")
                  (Some (mkSlotInfo slotId
                           (TimeSlot.currentLoad (store.slotAt st2 slot))
                           (TimeSlot.maxCapacity (store.slotAt st2 slot)))),
                st2)
      end
  end.

(** The candidates of a bump, in allocation order. *)
Definition bumpableCandidates (token slot : ref) (st : MemoryStore) : list ref :=
  let allocatedTokens :=
    omap (fun id => store.getToken id st) (TimeSlot.allocatedTokens (store.slotAt st slot)) in
  filter (fun t =>
            priorityRules.canBump (Token.patientType (store.tokenAt st token))
                                  (Token.patientType (store.tokenAt st t))
            && priorityRules.canBeBumped (Token.bumpCount (store.tokenAt st t)))
         allocatedTokens.

Definition tryBumpLowerPriority (now : Z) (token : ref) (slotId : string)
    (st : MemoryStore) : option (AllocationResult * MemoryStore) :=
  match store.getSlot slotId st with
  | None => Some (mkResult false (Some (store.tokenAt st token)) "Slot not found" None, st)
  | Some slot =>
      match last (bumpableCandidates token slot st) with
      | None =>
          Some (mkResult false (Some (store.tokenAt st token))
                         "No bumpable patients found" None, st)
      | Some tokenToBump =>
          let st1 := slotManager.removeTokenFromSlot slotId
                       (Token.id (store.tokenAt st tokenToBump)) st in
          let st2 := store.updateToken (Token.id (store.tokenAt st1 tokenToBump))
                       (fun k => Token.set_bumpCount
                                   (Token.bumpCount (store.tokenAt st1 tokenToBump) + 1)
                                   (Token.set_allocatedAt None
                                      (Token.set_slotId None
                                         (Token.set_status WAITLISTED k)))) st1 in
          match slotManager.addToWaitlist slotId
                  (Token.id (store.tokenAt st2 tokenToBump)) st2 with
          | None => None
          | Some st3 =>
              match slotManager.addTokenToSlot slotId
                      (Token.id (store.tokenAt st3 token)) st3 with
              | None => None
              | Some st4 =>
                  let st5 := store.updateToken (Token.id (store.tokenAt st4 token))
                                               (allocatedUpdate slotId now) st4 in
                  Some (mkResult true
                          (storedToken (Token.id (store.tokenAt st5 token)) st5)
                          ("Allocated by bumping patient "
                             +:+ Token.patientName (store.tokenAt st5 tokenToBump))
                          (Some (mkSlotInfo slotId
                                   (TimeSlot.currentLoad (store.slotAt st5 slot))
                                   (TimeSlot.maxCapacity (store.slotAt st5 slot)))),
                        st5)
              end
          end
      end
  end.

Definition addToWaitlist (token : ref) (slotId : string) (st : MemoryStore)
    : option (AllocationResult * MemoryStore) :=
  match slotManager.addToWaitlist slotId (Token.id (store.tokenAt st token)) st with
  | None => None
  | Some st1 =>
      let st2 := store.updateToken (Token.id (store.tokenAt st1 token))
                   (fun k => Token.set_slotId (Some slotId) (Token.set_status WAITLISTED k)) st1 in
      match store.getSlot slotId st2 with
      | None => None
      | Some slot =>
          Some (mkResult false
                  (storedToken (Token.id (store.tokenAt st2 token)) st2)
                  ("Added to waitlist (position: "
                     +:+ show (Z.of_nat (length (TimeSlot.waitlist (store.slotAt st2 slot))))
                     +:+ ")")
                  (Some (mkSlotInfo slotId
                           (TimeSlot.currentLoad (store.slotAt st2 slot))
                           (TimeSlot.maxCapacity (store.slotAt st2 slot)))),
                st2)
      end
  end.

Definition allocateToSlot (now : Z) (token : ref) (slotId : string) (st : MemoryStore)
    : option (AllocationResult * MemoryStore) :=
  match store.getSlot slotId st with
  | None => Some (mkResult false (Some (store.tokenAt st token)) "Slot not found" None, st)
  | Some slot =>
      if slotManager.hasCapacity slotId st then
        match slotManager.addTokenToSlot slotId (Token.id (store.tokenAt st token)) st with
        | None => None
        | Some st1 =>
            let st2 := store.updateToken (Token.id (store.tokenAt st1 token))
                                         (allocatedUpdate slotId now) st1 in
            Some (mkResult true
                    (storedToken (Token.id (store.tokenAt st2 token)) st2)
                    "Token allocated successfully"
                    (Some (mkSlotInfo slotId
                             (TimeSlot.currentLoad (store.slotAt st2 slot) + 1)
                             (TimeSlot.maxCapacity (store.slotAt st2 slot)))),
                  st2)
        end
      else if decide (Token.patientType (store.tokenAt st token) = EMERGENCY) then
        handleEmergencyAllocation now token slotId st
      else if decide (Token.patientType (store.tokenAt st token) = PAID_PRIORITY) then
        match tryBumpLowerPriority now token slotId st with
        | None => None
        | Some (bumpResult, st1) =>
            if success bumpResult then Some (bumpResult, st1)
            else addToWaitlist token slotId st1
        end
      else addToWaitlist token slotId st
  end.

(** [uuid] is the value of [uuidv4()] and [now] the value of [new Date()]. *)
Definition allocateToken (uuid : string) (now : Z)
    (patientName : string) (patientType : PatientType) (doctorId : string)
    (preferredSlotId : option string) (st : MemoryStore)
    : option (AllocationResult * MemoryStore) :=
  let '(token, st1) :=
    store.newToken (Token.mk uuid patientName patientType
                             (priorityRules.getPriorityScore patientType)
                             doctorId None PENDING now None 0) st in
  let st2 := store.addToken token st1 in
  let targetSlot :=
    if truthy preferredSlotId
    then store.getSlot (default EmptyString preferredSlotId) st2
    else slotManager.findBestAvailableSlot doctorId st2 in
  match targetSlot with
  | None =>
      let st3 := store.assignToken token (Token.set_status WAITLISTED) st2 in
      let st4 := store.updateToken (Token.id (store.tokenAt st3 token))
                                   (whole (store.tokenAt st3 token)) st3 in
      Some (mkResult false (Some (store.tokenAt st4 token))
                     "No available slots. Added to general waitlist." None, st4)
  | Some slot => allocateToSlot now token (TimeSlot.id (store.slotAt st2 slot)) st2
  end.

Definition cancelToken (now : Z) (tokenId : string) (st : MemoryStore)
    : option (AllocationResult * MemoryStore) :=
  match store.getToken tokenId st with
  | None => None
  | Some token =>
      if decide (Token.status (store.tokenAt st token) = CANCELLED) then
        Some (mkResult false (Some (store.tokenAt st token)) "Token already cancelled" None, st)
      else
        let slotId := Token.slotId (store.tokenAt st token) in
        let st1 := store.updateToken tokenId (Token.set_status CANCELLED) st in
        let freed :=
          if truthy slotId && bool_decide (Token.status (store.tokenAt st1 token) = ALLOCATED)
          then
            let st2 := slotManager.removeTokenFromSlot (default EmptyString slotId) tokenId st1 in
            snd <$> slotManager.promoteFromWaitlist now (default EmptyString slotId) st2
          else Some st1 in
        match freed with
        | None => None
        | Some st3 =>
            let st4 :=
              if truthy slotId && bool_decide (Token.status (store.tokenAt st3 token) = WAITLISTED)
              then slotManager.removeFromWaitlist (default EmptyString slotId) tokenId st3
              else st3 in
            Some (mkResult true (storedToken tokenId st4) "Token cancelled successfully" None, st4)
        end
  end.

Definition markNoShow (now : Z) (tokenId : string) (st : MemoryStore)
    : option (AllocationResult * MemoryStore) :=
  match store.getToken tokenId st with
  | None => None
  | Some token =>
      let slotId := Token.slotId (store.tokenAt st token) in
      let st1 := store.updateToken tokenId (Token.set_status NO_SHOW) st in
      let freed :=
        if truthy slotId then
          let st2 := slotManager.removeTokenFromSlot (default EmptyString slotId) tokenId st1 in
          snd <$> slotManager.promoteFromWaitlist now (default EmptyString slotId) st2
        else Some st1 in
      match freed with
      | None => None
      | Some st3 =>
          Some (mkResult true (storedToken tokenId st3) "Marked as no-show, slot freed" None, st3)
      end
  end.

Definition completeToken (tokenId : string) (st : MemoryStore) : option MemoryStore :=
  match store.getToken tokenId st with
  | None => None
  | Some _ => Some (store.updateToken tokenId (Token.set_status COMPLETED) st)
  end.

End tokenAllocator.

(** ** core/delayHandler.ts *)

Record RedistributionResult := mkRedistribution {
  redistributed : Z;
  failed : Z;
  details : list string }.

Record UnavailabilityResult := mkUnavailability {
  affectedSlots : Z;
  affectedPatients : Z;
  redistributionPlan : list string }.

Module delayHandler.

(** The [tokensToRedistribute.forEach] loop; [acc] holds the counters and
    the detail lines that the callback updates.  A string is the sequence of
    the bytes of its UTF-8 encoding. *)
Fixpoint forEachToken (slotId : string) (slot : ref) (otherSlots : list ref)
    (tokensToRedistribute : list string) (acc : RedistributionResult)
    (st : MemoryStore) : option (RedistributionResult * MemoryStore) :=
  match tokensToRedistribute with
  | [] => Some (acc, st)
  | tokenId :: rest =>
      match store.getToken tokenId st with
      | None => forEachToken slotId slot otherSlots rest acc st
      | Some token =>
          match List.find (fun s => slotManager.hasCapacity
                                      (TimeSlot.id (store.slotAt st s)) st) otherSlots with
          | Some targetSlot =>
              let st1 := slotManager.removeTokenFromSlot slotId tokenId st in
              let st2 := slotManager.removeFromWaitlist slotId tokenId st1 in
              match slotManager.addTokenToSlot
                      (TimeSlot.id (store.slotAt st2 targetSlot)) tokenId st2 with
              | None => None
              | Some st3 =>
                  let st4 := store.updateToken tokenId
                    (Token.set_slotId (Some (TimeSlot.id (store.slotAt st3 targetSlot)))) st3 in
                  forEachToken slotId slot otherSlots rest
                    (mkRedistribution (redistributed acc + 1) (failed acc)
                       (details acc ++
                          ["✅ " +:+ Token.patientName (store.tokenAt st4 token) +:+ ": "
                             +:+ TimeSlot.startTime (store.slotAt st4 slot) +:+ " → "
                             +:+ TimeSlot.startTime (store.slotAt st4 targetSlot)]))
                    st4
              end
          | None =>
              forEachToken slotId slot otherSlots rest
                (mkRedistribution (redistributed acc) (failed acc + 1)
                   (details acc ++
                      ["❌ " +:+ Token.patientName (store.tokenAt st token)
                         +:+ ": No available slot found"]))
                st
          end
      end
  end.

Definition redistributePatientsFromSlot (slotId : string) (st : MemoryStore)
    : option (RedistributionResult * MemoryStore) :=
  match store.getSlot slotId st with
  | None => None
  | Some slot =>
      let tokensToRedistribute :=
        (TimeSlot.allocatedTokens (store.slotAt st slot)
           ++ TimeSlot.waitlist (store.slotAt st slot))%list in
      let otherSlots :=
        filter (fun s => TimeSlot.id (store.slotAt st s) <> slotId
                         /\ TimeSlot.status (store.slotAt st s) <> CLOSED)
               (store.getSlotsByDoctor (TimeSlot.doctorId (store.slotAt st slot)) st) in
      match forEachToken slotId slot otherSlots tokensToRedistribute
                         (mkRedistribution 0 0 []) st with
      | None => None
      | Some (result, st1) =>
          Some (result, store.updateSlot slotId (TimeSlot.set_status CLOSED) st1)
      end
  end.

(** The [slots.forEach] loop of [handleDoctorUnavailable]. *)
Fixpoint closeAll (slots : list ref) (totalAffected : Z) (st : MemoryStore)
    : Z * MemoryStore :=
  match slots with
  | [] => (totalAffected, st)
  | slot :: rest =>
      closeAll rest
        (totalAffected
           + (Z.of_nat (length (TimeSlot.allocatedTokens (store.slotAt st slot)))
              + Z.of_nat (length (TimeSlot.waitlist (store.slotAt st slot)))))
        (store.updateSlot (TimeSlot.id (store.slotAt st slot))
                          (TimeSlot.set_status CLOSED) st)
  end.

Definition handleDoctorUnavailable (doctorId reason : string) (st : MemoryStore)
    : option (UnavailabilityResult * MemoryStore) :=
  match store.getDoctor doctorId st with
  | None => None
  | Some doctor =>
      let slots := store.getSlotsByDoctor doctorId st in
      let '(totalAffected, st1) := closeAll slots 0 st in
      Some (mkUnavailability
              (Z.of_nat (length slots)) totalAffected
              ["Doctor " +:+ Doctor.name doctor +:+ " unavailable: " +:+ reason;
               "Affected slots: " +:+ show (Z.of_nat (length slots));
               "Affected patients: " +:+ show totalAffected;
               EmptyString;
               "Redistribution options:";
               "1. Reschedule to next available day";
               "2. Assign to another doctor (same specialization)";
               "3. Notify patients for manual rebooking"],
            st1)
  end.

End delayHandler.

(** ** The engine as a transition system *)

(** One call of the engine.  [uuid] and [now] are what [uuidv4()] and
    [new Date()] return during the call. *)
Inductive Op :=
  | Allocate (uuid : string) (now : Z) (patientName : string)
             (patientType : PatientType) (doctorId : string)
             (preferredSlotId : option string)
  | Cancel (now : Z) (tokenId : string)
  | NoShow (now : Z) (tokenId : string)
  | Complete (tokenId : string)
  | Redistribute (slotId : string)
  | Unavailable (doctorId reason : string).

(** The store after a call that returns; [None] when the call throws, and
    for an [Allocate] whose [uuid] is already in use, which [uuidv4] does
    not produce. *)
Definition step (op : Op) (st : MemoryStore) : option MemoryStore :=
  match op with
  | Allocate uuid now patientName patientType doctorId preferredSlotId =>
      if decide (store.getToken uuid st = None)
      then snd <$> tokenAllocator.allocateToken uuid now patientName patientType
                     doctorId preferredSlotId st
      else None
  | Cancel now tokenId => snd <$> tokenAllocator.cancelToken now tokenId st
  | NoShow now tokenId => snd <$> tokenAllocator.markNoShow now tokenId st
  | Complete tokenId => tokenAllocator.completeToken tokenId st
  | Redistribute slotId => snd <$> delayHandler.redistributePatientsFromSlot slotId st
  | Unavailable doctorId reason =>
      snd <$> delayHandler.handleDoctorUnavailable doctorId reason st
  end.

Fixpoint steps (ops : list Op) (st : MemoryStore) : option MemoryStore :=
  match ops with
  | [] => Some st
  | op :: rest =>
      match step op st with
      | Some st1 => steps rest st1
      | None => None
      end
  end.

(** Stores that start-up builds: doctors are registered and slots are
    created for them, before any token exists. *)
Inductive seeded : MemoryStore -> Prop :=
  | seeded_clear : seeded store.clear
  | seeded_doctor doctor st :
      seeded st -> seeded (store.addDoctor doctor st)
  | seeded_slots doctorId timeSlots maxCapacity st st' :
      seeded st ->
      seedData.createSlotsForDoctor doctorId timeSlots maxCapacity st = Some st' ->
      seeded st'.

Inductive reachable : MemoryStore -> Prop :=
  | reachable_seeded st : seeded st -> reachable st
  | reachable_step op st st' :
      reachable st -> step op st = Some st' -> reachable st'.

(** ** Value-level account of the store

    What the maps of a store associate with each id, with the objects read
    out of the heap.  The invariants of the engine are stated on these
    tables, and each operation of the code is related to its effect on them. *)

Fixpoint map_alter {V : Type} (k : string) (f : V -> V) (m : list (string * V))
    : list (string * V) :=
  match m with
  | [] => []
  | (k', v) :: m' =>
      if decide (k' = k) then (k', f v) :: m' else (k', v) :: map_alter k f m'
  end.

Record Tables := mkTables {
  slotTable : list (string * TimeSlot.t);
  tokenTable : list (string * Token.t) }.

Definition tables (st : MemoryStore) : Tables :=
  mkTables (prod_map id (store.slotAt st) <$> slots st)
           (prod_map id (store.tokenAt st) <$> tokens st).

(** The slot, and the token, stored under an id. *)
Definition slotOf (st : MemoryStore) (id : string) : option TimeSlot.t :=
  map_get id (slotTable (tables st)).
Definition tokenOf (st : MemoryStore) (id : string) : option Token.t :=
  map_get id (tokenTable (tables st)).

(** The object a reference designates in a heap; [d] stands for a dangling
    reference. *)
Definition deref {V : Type} (d : V) (heap : list V) (r : ref) : V :=
  default d (heap !! r).

(** References of a map designate distinct cells of the heap. *)
Definition wf_refs {V : Type} (m : list (string * ref)) (heap : list V) : Prop :=
  NoDup m.*1 /\ NoDup m.*2 /\ forall r, r ∈ m.*2 -> (r < length heap)%nat.

Definition wf (st : MemoryStore) : Prop :=
  wf_refs (slots st) (slotHeap st) /\ wf_refs (tokens st) (tokenHeap st).

Module V.

Definition getSlot (k : string) (T : Tables) : option TimeSlot.t :=
  map_get k (slotTable T).
Definition getToken (k : string) (T : Tables) : option Token.t :=
  map_get k (tokenTable T).
Definition alterSlot (k : string) (f : TimeSlot.t -> TimeSlot.t) (T : Tables) : Tables :=
  mkTables (map_alter k f (slotTable T)) (tokenTable T).
Definition alterToken (k : string) (f : Token.t -> Token.t) (T : Tables) : Tables :=
  mkTables (slotTable T) (map_alter k f (tokenTable T)).
Definition putToken (k : string) (o : Token.t) (T : Tables) : Tables :=
  mkTables (slotTable T) (map_set k o (tokenTable T)).

Definition seat (x : string) (o : TimeSlot.t) : TimeSlot.t :=
  TimeSlot.set_currentLoad
    (Z.of_nat (length (TimeSlot.allocatedTokens o ++ [x])))
    (TimeSlot.set_allocatedTokens (TimeSlot.allocatedTokens o ++ [x]) o).

Definition unseat (x : string) (o : TimeSlot.t) : TimeSlot.t :=
  TimeSlot.set_currentLoad
    (Z.of_nat (length (filter (fun id => id <> x) (TimeSlot.allocatedTokens o))))
    (TimeSlot.set_allocatedTokens
       (filter (fun id => id <> x) (TimeSlot.allocatedTokens o)) o).

Definition dequeue (x : string) (o : TimeSlot.t) : TimeSlot.t :=
  TimeSlot.set_waitlist (filter (fun id => id <> x) (TimeSlot.waitlist o)) o.

Definition cmpTokens (a b : Token.t) : Z :=
  priorityRules.compareTokenPriority (Token.priority a) (Token.createdAt a)
                                     (Token.priority b) (Token.createdAt b).

Definition sortIds (T : Tables) (l : list string) : list string :=
  Token.id <$> js_sort cmpTokens (omap (fun id => getToken id T) l).

Definition enqueue (T : Tables) (x : string) (o : TimeSlot.t) : TimeSlot.t :=
  TimeSlot.set_waitlist (sortIds T (TimeSlot.waitlist o ++ [x])) o.

Definition hasCapacity (k : string) (T : Tables) : bool :=
  match getSlot k T with
  | None => false
  | Some o => bool_decide (TimeSlot.currentLoad o < TimeSlot.maxCapacity o)
  end.

Definition slotsByDoctor (doctorId : string) (T : Tables) : list TimeSlot.t :=
  filter (fun o => TimeSlot.doctorId o = doctorId) (slotTable T).*2.

Definition findBestAvailableSlot (doctorId : string) (T : Tables) : option TimeSlot.t :=
  head (js_sort (fun a b => TimeSlot.currentLoad a - TimeSlot.currentLoad b)
          (filter (fun o => TimeSlot.status o <> CLOSED
                            /\ TimeSlot.currentLoad o < TimeSlot.maxCapacity o)
                  (slotsByDoctor doctorId T))).

Definition addTokenToSlot (k x : string) (T : Tables) : Tables :=
  alterSlot k (seat x) T.

Definition addToWaitlist (k x : string) (T : Tables) : Tables :=
  alterSlot k (enqueue T x) T.

Definition promoteFromWaitlist (now : Z) (k : string) (T : Tables) : Tables :=
  match getSlot k T with
  | None => T
  | Some o =>
      match TimeSlot.waitlist o with
      | [] => T
      | h :: _ =>
          match getToken h T with
          | None => T
          | Some th =>
              alterToken (Token.id th) (tokenAllocator.allocatedUpdate k now)
                (alterSlot k (seat (Token.id th))
                   (alterSlot k (dequeue (Token.id th)) T))
          end
      end
  end.

Definition place (now : Z) (x k : string) (T : Tables) : Tables :=
  alterToken x (tokenAllocator.allocatedUpdate k now) (alterSlot k (seat x) T).

Definition bumpable (cat : PatientType) (o : TimeSlot.t) (T : Tables) : list Token.t :=
  filter (fun t => priorityRules.canBump cat (Token.patientType t)
                   && priorityRules.canBeBumped (Token.bumpCount t))
         (omap (fun id => getToken id T) (TimeSlot.allocatedTokens o)).

Definition bumped (b : Token.t) : Token.t -> Token.t :=
  fun k => Token.set_bumpCount (Token.bumpCount b + 1)
             (Token.set_allocatedAt None
                (Token.set_slotId None (Token.set_status WAITLISTED k))).

Definition evict (k : string) (b : Token.t) (T : Tables) : Tables :=
  addToWaitlist k (Token.id b)
    (alterToken (Token.id b) (bumped b) (alterSlot k (unseat (Token.id b)) T)).

Definition tryBumpLowerPriority (now : Z) (x : string) (cat : PatientType)
    (k : string) (T : Tables) : option Tables :=
  match getSlot k T with
  | None => None
  | Some o =>
      match last (bumpable cat o T) with
      | None => None
      | Some b => Some (place now x k (evict k b T))
      end
  end.

Definition waitlisted (x k : string) (T : Tables) : Tables :=
  alterToken x (fun t => Token.set_slotId (Some k) (Token.set_status WAITLISTED t))
    (addToWaitlist k x T).

Definition allocateToSlot (now : Z) (x : string) (cat : PatientType) (k : string)
    (T : Tables) : bool * Tables :=
  match getSlot k T with
  | None => (false, T)
  | Some _ =>
      if hasCapacity k T then (true, place now x k T)
      else if decide (cat = EMERGENCY) then (true, place now x k T)
      else if decide (cat = PAID_PRIORITY) then
        match tryBumpLowerPriority now x cat k T with
        | Some T1 => (true, T1)
        | None => (false, waitlisted x k T)
        end
      else (false, waitlisted x k T)
  end.

Definition allocateToken (uuid : string) (now : Z) (patientName : string)
    (patientType : PatientType) (doctorId : string) (preferredSlotId : option string)
    (T : Tables) : bool * Tables :=
  let T1 := putToken uuid
    (Token.mk uuid patientName patientType (priorityRules.getPriorityScore patientType)
              doctorId None PENDING now None 0) T in
  let targetSlot :=
    if truthy preferredSlotId then getSlot (default EmptyString preferredSlotId) T1
    else findBestAvailableSlot doctorId T1 in
  match targetSlot with
  | None => (false, alterToken uuid (Token.set_status WAITLISTED) T1)
  | Some o => allocateToSlot now uuid patientType (TimeSlot.id o) T1
  end.

Definition release (now : Z) (k x : string) (T : Tables) : Tables :=
  promoteFromWaitlist now k (alterSlot k (unseat x) T).

Definition cancelToken (now : Z) (x : string) (T : Tables) : option Tables :=
  match getToken x T with
  | None => None
  | Some t =>
      if decide (Token.status t = CANCELLED) then Some T
      else
        let k := default EmptyString (Token.slotId t) in
        let T1 := alterToken x (Token.set_status CANCELLED) T in
        let T3 :=
          if truthy (Token.slotId t) && bool_decide (Token.status t = ALLOCATED)
          then release now k x T1 else T1 in
        Some (if truthy (Token.slotId t) && bool_decide (Token.status t = WAITLISTED)
              then alterSlot k (dequeue x) T3 else T3)
  end.

Definition markNoShow (now : Z) (x : string) (T : Tables) : option Tables :=
  match getToken x T with
  | None => None
  | Some t =>
      let T1 := alterToken x (Token.set_status NO_SHOW) T in
      Some (if truthy (Token.slotId t)
            then release now (default EmptyString (Token.slotId t)) x T1 else T1)
  end.

Definition completeToken (x : string) (T : Tables) : option Tables :=
  match getToken x T with
  | None => None
  | Some _ => Some (alterToken x (Token.set_status COMPLETED) T)
  end.

Definition move (k target x : string) (T : Tables) : Tables :=
  alterToken x (Token.set_slotId (Some target))
    (alterSlot target (seat x) (alterSlot k (dequeue x) (alterSlot k (unseat x) T))).

Fixpoint forEachToken (k : string) (others : list string) (l : list string)
    (acc : Z * Z) (T : Tables) : Z * Z * Tables :=
  match l with
  | [] => (acc, T)
  | x :: rest =>
      match getToken x T with
      | None => forEachToken k others rest acc T
      | Some _ =>
          match List.find (fun id => hasCapacity id T) others with
          | Some target =>
              forEachToken k others rest (fst acc + 1, snd acc) (move k target x T)
          | None => forEachToken k others rest (fst acc, snd acc + 1) T
          end
      end
  end.

Definition otherSlots (k : string) (o : TimeSlot.t) (T : Tables) : list string :=
  TimeSlot.id <$>
    filter (fun s => TimeSlot.id s <> k /\ TimeSlot.status s <> CLOSED)
           (slotsByDoctor (TimeSlot.doctorId o) T).

Definition redistributePatientsFromSlot (k : string) (T : Tables)
    : option (Z * Z * Tables) :=
  match getSlot k T with
  | None => None
  | Some o =>
      let '(acc, T1) :=
        forEachToken k (otherSlots k o T)
          (TimeSlot.allocatedTokens o ++ TimeSlot.waitlist o) (0, 0) T in
      Some (acc, alterSlot k (TimeSlot.set_status CLOSED) T1)
  end.

Definition closeAll (ids : list string) (T : Tables) : Tables :=
  foldl (fun T1 id => alterSlot id (TimeSlot.set_status CLOSED) T1) T ids.

Definition handleDoctorUnavailable (doctorId : string) (T : Tables) : Tables :=
  closeAll (TimeSlot.id <$> slotsByDoctor doctorId T) T.

(** The effect of a call on the tables. *)
Definition step (op : Op) (T : Tables) : option Tables :=
  match op with
  | Allocate uuid now patientName patientType doctorId preferredSlotId =>
      if decide (getToken uuid T = None)
      then Some (snd (allocateToken uuid now patientName patientType doctorId
                                    preferredSlotId T))
      else None
  | Cancel now x => cancelToken now x T
  | NoShow now x => markNoShow now x T
  | Complete x => completeToken x T
  | Redistribute k => snd <$> redistributePatientsFromSlot k T
  | Unavailable doctorId _ => Some (handleDoctorUnavailable doctorId T)
  end.

End V.

(** [grows st st']: [st'] has the objects of [st], unchanged, and possibly
    new ones.  [extends st st']: the token objects of [st] are unchanged in
    [st'] and its slot objects keep their [id]. *)
Definition grows (st st' : MemoryStore) : Prop :=
  doctors st' = doctors st
  /\ (exists l, slotHeap st' = (slotHeap st ++ l)%list)
  /\ (exists l, tokenHeap st' = (tokenHeap st ++ l)%list).

Definition extends (st st' : MemoryStore) : Prop :=
  doctors st' = doctors st
  /\ (exists l, tokenHeap st' = (tokenHeap st ++ l)%list)
  /\ (length (slotHeap st) <= length (slotHeap st'))%nat
  /\ forall r, (r < length (slotHeap st))%nat ->
       TimeSlot.id (store.slotAt st' r) = TimeSlot.id (store.slotAt st r).

(** ** Invariants of the tables *)

(** The tokens that a slot lists, seated or waiting. *)
Definition members (o : TimeSlot.t) : list string :=
  (TimeSlot.allocatedTokens o ++ TimeSlot.waitlist o)%list.

(** No slot lists [x]. *)
Definition free (x : string) (T : Tables) : Prop :=
  forall k o, V.getSlot k T = Some o -> x ∉ members o.

(** The token stored under [x] does not sort after the one stored under [y]. *)
Definition before (T : Tables) (x y : string) : Prop :=
  forall tx ty, V.getToken x T = Some tx -> V.getToken y T = Some ty ->
    V.cmpTokens tx ty <= 0.

Record Shape (T : Tables) : Prop := mkShape {
  shape_slot_id : forall k o,
    V.getSlot k T = Some o -> TimeSlot.id o = k /\ k <> EmptyString;
  shape_slot_keys : NoDup (slotTable T).*1;
  shape_token_id : forall x t, V.getToken x T = Some t -> Token.id t = x;
  shape_load : forall k o,
    V.getSlot k T = Some o ->
    TimeSlot.currentLoad o = Z.of_nat (length (TimeSlot.allocatedTokens o));
  shape_known : forall k o x,
    V.getSlot k T = Some o -> x ∈ members o -> is_Some (V.getToken x T);
  shape_nodup : forall k o, V.getSlot k T = Some o -> NoDup (members o);
  shape_disjoint : forall k1 k2 o1 o2 x,
    k1 <> k2 -> V.getSlot k1 T = Some o1 -> V.getSlot k2 T = Some o2 ->
    x ∈ members o1 -> x ∉ members o2;
  shape_sorted : forall k o,
    V.getSlot k T = Some o -> StronglySorted (before T) (TimeSlot.waitlist o) }.

(** A token in status ALLOCATED is seated in the slot it refers to. *)
Definition Seated (T : Tables) : Prop :=
  forall x t, V.getToken x T = Some t -> Token.status t = ALLOCATED ->
    exists k o, Token.slotId t = Some k /\ V.getSlot k T = Some o
                /\ x ∈ TimeSlot.allocatedTokens o.

Definition Inv (T : Tables) : Prop := Shape T /\ Seated T.

(** A change of a slot that lists no new token and keeps the load in step
    with the seats. *)
Definition shrinking (g : TimeSlot.t -> TimeSlot.t) : Prop :=
  forall o,
    TimeSlot.id (g o) = TimeSlot.id o
    /\ TimeSlot.allocatedTokens (g o) `sublist_of` TimeSlot.allocatedTokens o
    /\ TimeSlot.waitlist (g o) `sublist_of` TimeSlot.waitlist o
    /\ (TimeSlot.currentLoad o = Z.of_nat (length (TimeSlot.allocatedTokens o)) ->
        TimeSlot.currentLoad (g o) = Z.of_nat (length (TimeSlot.allocatedTokens (g o)))).

(** A change of a token that keeps what identifies and orders it. *)
Definition keeping (f : Token.t -> Token.t) : Prop :=
  forall t,
    Token.id (f t) = Token.id t
    /\ Token.priority (f t) = Token.priority t
    /\ Token.createdAt (f t) = Token.createdAt t.

(** [Seated], for every token but [x]: what holds while [x] is being moved. *)
Definition SeatedBut (x : string) (T : Tables) : Prop :=
  forall y t, y <> x -> V.getToken y T = Some t -> Token.status t = ALLOCATED ->
    exists k o, Token.slotId t = Some k /\ V.getSlot k T = Some o
                /\ y ∈ TimeSlot.allocatedTokens o.

(** The tables that start-up builds: no token yet, and empty slots. *)
Definition Pristine (T : Tables) : Prop :=
  tokenTable T = []
  /\ NoDup (slotTable T).*1
  /\ forall k o, V.getSlot k T = Some o ->
       TimeSlot.id o = k /\ k <> EmptyString
       /\ TimeSlot.allocatedTokens o = [] /\ TimeSlot.waitlist o = []
       /\ TimeSlot.currentLoad o = 0.

(** ** Redistribution, as the specification words it

    Each token of the slot, seated ones first and then waiting ones, is moved
    to the first other slot of the same doctor that is not CLOSED and has a
    spare seat at that moment, the slots being tried in the order of the
    store; a token for which no such slot exists is a failure.  Moving a token
    takes it off the lists of the source slot, seats it last in the target
    slot, with the loads recounted, and makes the token refer to the target.
    In the end the source slot is CLOSED. *)
Module Spec.

Definition otherOpenSlots (source doctor : string) (T : Tables) : list string :=
  (filter (fun e : string * TimeSlot.t =>
             e.1 <> source /\ TimeSlot.doctorId e.2 = doctor
             /\ TimeSlot.status e.2 <> CLOSED)
          (slotTable T)).*1.

Definition hasRoom (T : Tables) (k : string) : Prop :=
  exists s, map_get k (slotTable T) = Some s
            /\ TimeSlot.currentLoad s < TimeSlot.maxCapacity s.

#[global] Instance hasRoom_dec T k : Decision (hasRoom T k).
Proof.
  unfold hasRoom. destruct (map_get k (slotTable T)) as [s|].
  - destruct (decide (TimeSlot.currentLoad s < TimeSlot.maxCapacity s)).
    + left. by exists s.
    + right. intros (s' & [= <-] & ?). done.
  - right. intros (s' & [=] & _).
Defined.

Definition firstFit (source doctor : string) (T : Tables) : option string :=
  head (filter (hasRoom T) (otherOpenSlots source doctor T)).

Definition withdraw (x : string) (s : TimeSlot.t) : TimeSlot.t :=
  let seats := filter (fun id => id <> x) (TimeSlot.allocatedTokens s) in
  TimeSlot.mk (TimeSlot.id s) (TimeSlot.doctorId s) (TimeSlot.startTime s)
              (TimeSlot.endTime s) (TimeSlot.maxCapacity s)
              (Z.of_nat (length seats)) (TimeSlot.status s) seats
              (filter (fun id => id <> x) (TimeSlot.waitlist s)).

Definition receive (x : string) (s : TimeSlot.t) : TimeSlot.t :=
  let seats := (TimeSlot.allocatedTokens s ++ [x])%list in
  TimeSlot.mk (TimeSlot.id s) (TimeSlot.doctorId s) (TimeSlot.startTime s)
              (TimeSlot.endTime s) (TimeSlot.maxCapacity s)
              (Z.of_nat (length seats)) (TimeSlot.status s) seats
              (TimeSlot.waitlist s).

Definition moveToken (source target x : string) (T : Tables) : Tables :=
  mkTables
    (map_alter target (receive x) (map_alter source (withdraw x) (slotTable T)))
    (map_alter x (Token.set_slotId (Some target)) (tokenTable T)).

(** The tokens that were moved, each with its target, the tokens that
    were not, and the tables in the end. *)
Fixpoint redistributeAll (source doctor : string) (l : list string) (T : Tables)
    : list (string * string) * list string * Tables :=
  match l with
  | [] => ([], [], T)
  | x :: rest =>
      match firstFit source doctor T with
      | Some target =>
          let '(moved, unmoved, T1) :=
            redistributeAll source doctor rest (moveToken source target x T) in
          ((x, target) :: moved, unmoved, T1)
      | None =>
          let '(moved, unmoved, T1) := redistributeAll source doctor rest T in
          (moved, x :: unmoved, T1)
      end
  end.

Definition redistribute (source : string) (T : Tables)
    : option (list (string * string) * list string * Tables) :=
  match map_get source (slotTable T) with
  | None => None
  | Some s =>
      let '(moved, unmoved, T1) :=
        redistributeAll source (TimeSlot.doctorId s)
          (TimeSlot.allocatedTokens s ++ TimeSlot.waitlist s) T in
      Some (moved, unmoved,
            mkTables (map_alter source (TimeSlot.set_status CLOSED) (slotTable T1))
                     (tokenTable T1))
  end.

End Spec.

(** ** Scenarios *)

Module Scenario.

Definition doc1 : Doctor.t := Doctor.mk "doc-1" "Dr. Rajesh Kumar" "Cardiology" [].

Definition slot0900 : string := "slot-doc-1-0900".
Definition slot1000 : string := "slot-doc-1-1000".

(** One doctor with one slot, or with two, of the given capacity. *)
Definition oneSlot (cap : Z) : option MemoryStore :=
  seedData.createSlotsForDoctor "doc-1" [("09:00", "10:00")] cap
    (store.addDoctor doc1 store.clear).

Definition twoSlots (cap : Z) : option MemoryStore :=
  seedData.createSlotsForDoctor "doc-1" [("09:00", "10:00"); ("10:00", "11:00")] cap
    (store.addDoctor doc1 store.clear).

Definition run (seed : option MemoryStore) (ops : list Op) : MemoryStore :=
  default store.clear (seed ≫= steps ops).

(** A slot of capacity 1, empty. *)
Definition emptySlot : MemoryStore := run (oneSlot 1) [].

(** A slot of capacity 1 with its seat taken. *)
Definition fullSlot : MemoryStore :=
  run (oneSlot 1) [Allocate "t1" 1 "Asha" WALK_IN "doc-1" None].

(** Scenario A: a slot of capacity 2, two walk-ins, then a paid-priority
    patient who bumps the second walk-in. *)
Definition beforeBump : MemoryStore :=
  run (oneSlot 2)
    [Allocate "t1" 1 "Asha" WALK_IN "doc-1" None;
     Allocate "t2" 2 "Bala" WALK_IN "doc-1" None].

Definition afterBump : MemoryStore :=
  run (oneSlot 2)
    [Allocate "t1" 1 "Asha" WALK_IN "doc-1" None;
     Allocate "t2" 2 "Bala" WALK_IN "doc-1" None;
     Allocate "t3" 3 "Chitra" PAID_PRIORITY "doc-1" (Some slot0900)].

(** A full slot of capacity 1 with one walk-in waiting. *)
Definition oneWaiting : MemoryStore :=
  run (oneSlot 1)
    [Allocate "t1" 1 "Asha" WALK_IN "doc-1" None;
     Allocate "t2" 2 "Bala" WALK_IN "doc-1" (Some slot0900)].

(** The only waiting patient is marked no-show. *)
Definition waitingNoShow : MemoryStore :=
  run (oneSlot 1)
    [Allocate "t1" 1 "Asha" WALK_IN "doc-1" None;
     Allocate "t2" 2 "Bala" WALK_IN "doc-1" (Some slot0900);
     NoShow 3 "t2"].

(** Two walk-ins wait; the second is marked no-show and the first is
    promoted. *)
Definition noShowWaiting : MemoryStore :=
  run (oneSlot 1)
    [Allocate "t1" 1 "Asha" WALK_IN "doc-1" None;
     Allocate "t2" 2 "Bala" WALK_IN "doc-1" (Some slot0900);
     Allocate "t3" 3 "Chitra" WALK_IN "doc-1" (Some slot0900);
     NoShow 4 "t3"].

(** An empty slot that a redistribution has closed. *)
Definition closedSlot : MemoryStore :=
  run (oneSlot 1) [Redistribute slot0900].

(** Scenario E: three patients seated in the first slot, and one in the
    second slot, which has three seats. *)
Definition beforeRedistribution : MemoryStore :=
  run (twoSlots 3)
    [Allocate "t1" 1 "Asha" WALK_IN "doc-1" (Some slot0900);
     Allocate "t2" 2 "Bala" WALK_IN "doc-1" (Some slot0900);
     Allocate "t3" 3 "Chitra" FOLLOW_UP "doc-1" (Some slot0900);
     Allocate "t4" 4 "Dev" FOLLOW_UP "doc-1" (Some slot1000)].

End Scenario.

(** ** Statements *)

(** The store a call leaves behind, and the flag and message it answers. *)
Definition after (r : option (AllocationResult * MemoryStore)) : MemoryStore :=
  default store.clear (snd <$> r).
Definition answer (r : option (AllocationResult * MemoryStore)) : option (bool * string) :=
  (fun p : AllocationResult * MemoryStore => (success p.1, message p.1)) <$> r.

(** The load, capacity, status, seats and waitlist of a stored slot, and the
    category, status and slot of a stored token. *)
Definition seats (st : MemoryStore) (k : string)
    : option (Z * Z * SlotStatus * list string * list string) :=
  (fun o => (TimeSlot.currentLoad o, TimeSlot.maxCapacity o, TimeSlot.status o,
             TimeSlot.allocatedTokens o, TimeSlot.waitlist o)) <$> slotOf st k.
Definition standing (st : MemoryStore) (x : string)
    : option (PatientType * TokenStatus * option string) :=
  (fun t => (Token.patientType t, Token.status t, Token.slotId t)) <$> tokenOf st x.

(** The outcome of a request that ends on the general waitlist: it reports
    failure, no slot has changed, and one token has been added, WAITLISTED
    and without a slot. *)
Definition onGeneralWaitlist (uuid : string) (st : MemoryStore)
    (r : AllocationResult * MemoryStore) : Prop :=
  success r.1 = false
  /\ message r.1 = "No available slots. Added to general waitlist."
  /\ slotTable (tables r.2) = slotTable (tables st)
  /\ exists tok,
       token r.1 = Some tok
       /\ tokenTable (tables r.2) = (tokenTable (tables st) ++ [(uuid, tok)])%list
       /\ Token.status tok = WAITLISTED /\ Token.slotId tok = None.

(** The outcome, [st'], of giving the token [x] the status [s] in the store
    [st] and freeing its seat in slot [k], which was [o] and had [h] at the
    head of its waitlist and [rest] behind: [h] is ALLOCATED in [k], it took
    the last seat, the waitlist is [rest], and the load is what it was.  This
    is the one promotion: apart from the seats and the waitlist, the slot [k]
    is what it was; [h] has changed by the update of a promotion and [x] by
    its status, which is [s]; every other slot and every other token is what
    it was in [st]. *)
Definition headPromoted (st : MemoryStore) (now : Z) (s : TokenStatus) (k x h : string)
    (o : TimeSlot.t) (rest : list string) (st' : MemoryStore) : Prop :=
  (exists o' th',
     slotOf st' k = Some o' /\ tokenOf st' h = Some th'
     /\ Token.status th' = ALLOCATED /\ Token.slotId th' = Some k
     /\ TimeSlot.allocatedTokens o'
        = (filter (fun id => id <> x) (TimeSlot.allocatedTokens o) ++ [h])%list
     /\ TimeSlot.waitlist o' = rest
     /\ TimeSlot.currentLoad o' = TimeSlot.currentLoad o
     /\ o' = TimeSlot.set_allocatedTokens (TimeSlot.allocatedTokens o')
               (TimeSlot.set_waitlist rest o))
  /\ tokenOf st' h = tokenAllocator.allocatedUpdate k now <$> tokenOf st h
  /\ tokenOf st' x = Token.set_status s <$> tokenOf st x
  /\ (forall k', k' <> k -> slotOf st' k' = slotOf st k')
  /\ (forall y, y <> x -> y <> h -> tokenOf st' y = tokenOf st y).

(** [a] sorts no later than [b]: score descending, then creation time
    ascending. *)
Definition sortsBefore (a b : Token.t) : Prop :=
  Token.priority a > Token.priority b
  \/ (Token.priority a = Token.priority b /\ Token.createdAt a <= Token.createdAt b).

(** What qualifies a seated token for a bump by a patient of category [cat]. *)
Definition bumpableBy (cat : PatientType) (t : Token.t) : Prop :=
  priorityRules.canBump cat (Token.patientType t) = true /\ Token.bumpCount t < 2.

(** ** What a call may change *)

(** The fields of a token that identify the patient and order the token, and
    the fields of a slot that place it in the doctor's day. *)
Definition tokenKept (t t' : Token.t) : Prop :=
  Token.id t' = Token.id t
  /\ Token.patientName t' = Token.patientName t
  /\ Token.patientType t' = Token.patientType t
  /\ Token.priority t' = Token.priority t
  /\ Token.doctorId t' = Token.doctorId t
  /\ Token.createdAt t' = Token.createdAt t.

Definition slotKept (o o' : TimeSlot.t) : Prop :=
  TimeSlot.id o' = TimeSlot.id o
  /\ TimeSlot.doctorId o' = TimeSlot.doctorId o
  /\ TimeSlot.startTime o' = TimeSlot.startTime o
  /\ TimeSlot.endTime o' = TimeSlot.endTime o
  /\ TimeSlot.maxCapacity o' = TimeSlot.maxCapacity o.

(** A token after some calls: the kept fields, and a bump count that has not
    gone down and has gone up only within the limit. *)
Definition tokenMoves (t t' : Token.t) : Prop :=
  tokenKept t t'
  /\ Token.bumpCount t <= Token.bumpCount t'
  /\ (Token.bumpCount t' <= priorityRules.MAX_BUMP_COUNT
      \/ Token.bumpCount t' = Token.bumpCount t).

(** A slot after some calls: the kept fields, and a status that is the old
    one or CLOSED. *)
Definition slotMoves (o o' : TimeSlot.t) : Prop :=
  slotKept o o'
  /\ (TimeSlot.status o' = TimeSlot.status o \/ TimeSlot.status o' = CLOSED).

(** A token that a call has created. *)
Definition created (t : Token.t) : Prop :=
  0 <= Token.bumpCount t <= priorityRules.MAX_BUMP_COUNT
  /\ Token.priority t = priorityRules.getPriorityScore (Token.patientType t).

(** The tables after some calls: the slots are those of before, in the same
    order, and the tokens are those of before and created ones. *)
Definition evolves (T T' : Tables) : Prop :=
  (slotTable T').*1 = (slotTable T).*1
  /\ (forall k o', V.getSlot k T' = Some o' ->
        exists o, V.getSlot k T = Some o /\ slotMoves o o')
  /\ (forall x, is_Some (V.getToken x T) -> is_Some (V.getToken x T'))
  /\ (forall x t', V.getToken x T' = Some t' ->
        match V.getToken x T with
        | Some t => tokenMoves t t'
        | None => created t'
        end).

(** ** Counting patients *)

(** The patients that a slot lists, seated or waiting, and their number over
    a list of slots. *)
Definition patients (o : TimeSlot.t) : Z :=
  Z.of_nat (length (TimeSlot.allocatedTokens o))
  + Z.of_nat (length (TimeSlot.waitlist o)).

Definition affected (l : list TimeSlot.t) : Z :=
  foldr (fun o n => patients o + n) 0 l.

Local Close Scope string_scope.

(** * Properties *)

(** ** Maps in insertion order *)

Section map_facts.
Context {V : Type}.
Implicit Types (m : list (string * V)) (k : string) (v : V).

Lemma map_get_set_eq k v m : map_get k (map_set k v m) = Some v.
Proof.
  induction m as [|[k' v'] m IH]; simpl.
  - by rewrite decide_True.
  - destruct (decide (k' = k)) as [->|Hne]; simpl.
    + by rewrite decide_True.
    + by rewrite decide_False.
Qed.

Lemma map_get_set_ne k k' v m : k <> k' -> map_get k' (map_set k v m) = map_get k' m.
Proof.
  intros Hne. induction m as [|[k0 v0] m IH]; simpl.
  - by rewrite decide_False.
  - destruct (decide (k0 = k)) as [->|Hne0]; simpl.
    + by rewrite !decide_False.
    + destruct (decide (k0 = k')); [done|apply IH].
Qed.

Lemma map_get_set k k' v m :
  map_get k' (map_set k v m) = if decide (k = k') then Some v else map_get k' m.
Proof.
  destruct (decide (k = k')) as [->|?];
    [apply map_get_set_eq | by apply map_get_set_ne].
Qed.

Lemma map_get_alter k k' f m :
  map_get k' (map_alter k f m)
  = if decide (k = k') then f <$> map_get k m else map_get k' m.
Proof.
  induction m as [|[k0 v0] m IH]; simpl.
  - by destruct (decide (k = k')).
  - repeat (case_decide; simplify_eq/=); try done;
      rewrite ?decide_True, ?decide_False in * by done; try done.
Qed.

Lemma map_get_alter_eq k f m : map_get k (map_alter k f m) = f <$> map_get k m.
Proof. by rewrite map_get_alter, decide_True. Qed.

Lemma map_get_alter_ne k k' f m : k <> k' -> map_get k' (map_alter k f m) = map_get k' m.
Proof. intros. by rewrite map_get_alter, decide_False. Qed.

Lemma map_get_None k m : map_get k m = None <-> k ∉ m.*1.
Proof.
  induction m as [|[k0 v0] m IH]; simpl.
  - split; [intros _; apply not_elem_of_nil | done].
  - rewrite not_elem_of_cons. destruct (decide (k0 = k)) as [->|?].
    + split; [done | intros [? _]; done].
    + rewrite IH. naive_solver.
Qed.

Lemma map_get_is_Some k m : is_Some (map_get k m) <-> k ∈ m.*1.
Proof.
  destruct (map_get k m) eqn:E.
  - split; [intros _|eauto]. destruct (decide (k ∈ m.*1)) as [|Hn]; [done|].
    apply map_get_None in Hn. congruence.
  - split; [intros [? ?]; done|]. intros Hin. apply map_get_None in E. done.
Qed.

Lemma map_get_elem_of k v m : map_get k m = Some v -> (k, v) ∈ m.
Proof.
  induction m as [|[k0 v0] m IH]; simpl; [done|].
  destruct (decide (k0 = k)) as [->|?].
  - intros [= ->]. left.
  - intros. right. auto.
Qed.

Lemma map_get_NoDup k v m : NoDup m.*1 -> (k, v) ∈ m -> map_get k m = Some v.
Proof.
  induction m as [|[k0 v0] m IH]; simpl; [by intros _ ?%elem_of_nil|].
  rewrite NoDup_cons. intros [Hnot Hnd] [[= -> ->]|Hin]%elem_of_cons.
  - by rewrite decide_True.
  - destruct (decide (k0 = k)) as [->|?]; [|auto].
    exfalso. apply Hnot. apply list_elem_of_fmap. by exists (k, v).
Qed.

Lemma map_alter_fst k f m : (map_alter k f m).*1 = m.*1.
Proof.
  induction m as [|[k0 v0] m IH]; simpl; [done|].
  destruct (decide (k0 = k)); simpl; [done|f_equal; apply IH].
Qed.

Lemma map_set_alter k v v0 m :
  map_get k m = Some v0 -> map_set k v m = map_alter k (fun _ => v) m.
Proof.
  induction m as [|[k0 v1] m IH]; simpl; [done|].
  destruct (decide (k0 = k)) as [->|?]; [done|]. intros. by rewrite IH.
Qed.

Lemma map_set_fresh k v m : map_get k m = None -> map_set k v m = m ++ [(k, v)].
Proof.
  induction m as [|[k0 v1] m IH]; simpl; [done|].
  destruct (decide (k0 = k)) as [->|?]; [done|]. intros. by rewrite IH.
Qed.

Lemma map_alter_absent k f m : map_get k m = None -> map_alter k f m = m.
Proof.
  induction m as [|[k0 v1] m IH]; simpl; [done|].
  destruct (decide (k0 = k)) as [->|?]; [done|]. intros. by rewrite IH.
Qed.

Lemma map_alter_ext k f g m :
  (forall v, map_get k m = Some v -> f v = g v) -> map_alter k f m = map_alter k g m.
Proof.
  induction m as [|[k0 v1] m IH]; simpl; [done|].
  destruct (decide (k0 = k)) as [->|?]; intros H.
  - by rewrite H.
  - by rewrite IH.
Qed.

Lemma map_alter_alter k f g m :
  map_alter k g (map_alter k f m) = map_alter k (fun v => g (f v)) m.
Proof.
  induction m as [|[k0 v1] m IH]; simpl; [done|].
  destruct (decide (k0 = k)) as [->|?]; simpl.
  - by rewrite decide_True.
  - by rewrite decide_False, IH.
Qed.

Lemma map_alter_snd k f m v :
  v ∈ (map_alter k f m).*2 -> v ∈ m.*2 \/ exists v0, map_get k m = Some v0 /\ v = f v0.
Proof.
  induction m as [|[k0 v1] m IH]; simpl; [by intros ?%elem_of_nil|].
  destruct (decide (k0 = k)) as [->|?]; simpl.
  - intros [->|?]%elem_of_cons; [right; eauto|left; by right].
  - intros [->|?]%elem_of_cons; [left; left|].
    destruct IH as [?|?]; [done|left; by right|by right].
Qed.

End map_facts.

Lemma map_get_fmap {A B : Type} (g : A -> B) k (m : list (string * A)) :
  map_get k (prod_map id g <$> m) = g <$> map_get k m.
Proof.
  induction m as [|[k0 v0] m IH]; simpl; [done|].
  destruct (decide (k0 = k)); [done|apply IH].
Qed.

Lemma map_set_fmap {A B : Type} (g : A -> B) k v (m : list (string * A)) :
  prod_map id g <$> map_set k v m = map_set k (g v) (prod_map id g <$> m).
Proof.
  induction m as [|[k0 v0] m IH]; simpl; [done|].
  destruct (decide (k0 = k)); simpl; [done|f_equal; apply IH].
Qed.

Lemma map_set_fst_elem {V : Type} k (v : V) m x :
  x ∈ (map_set k v m).*1 <-> x = k \/ x ∈ m.*1.
Proof.
  induction m as [|[k0 v0] m IH]; simpl.
  - rewrite elem_of_cons. naive_solver.
  - destruct (decide (k0 = k)) as [->|?]; simpl.
    + rewrite !elem_of_cons. naive_solver.
    + rewrite !elem_of_cons, IH. naive_solver.
Qed.

Lemma map_set_snd_elem {V : Type} k (v : V) m x :
  x ∈ (map_set k v m).*2 -> x = v \/ x ∈ m.*2.
Proof.
  induction m as [|[k0 v0] m IH]; simpl.
  - rewrite elem_of_cons. naive_solver.
  - destruct (decide (k0 = k)) as [->|?]; simpl.
    + rewrite !elem_of_cons. naive_solver.
    + rewrite !elem_of_cons. naive_solver.
Qed.

Lemma map_set_NoDup_fst {V : Type} k (v : V) m :
  NoDup m.*1 -> NoDup (map_set k v m).*1.
Proof.
  induction m as [|[k0 v0] m IH]; simpl.
  - intros _. apply NoDup_singleton.
  - rewrite NoDup_cons. intros [Hn Hd].
    destruct (decide (k0 = k)) as [->|?]; simpl.
    + apply NoDup_cons. done.
    + apply NoDup_cons. split; [|auto]. rewrite map_set_fst_elem. naive_solver.
Qed.

Lemma map_set_NoDup_snd {V : Type} k (v : V) m :
  NoDup m.*2 -> v ∉ m.*2 -> NoDup (map_set k v m).*2.
Proof.
  induction m as [|[k0 v0] m IH]; simpl.
  - intros _ _. apply NoDup_singleton.
  - rewrite NoDup_cons, not_elem_of_cons. intros [Hn Hd] [Hv Hv'].
    destruct (decide (k0 = k)) as [->|?]; simpl.
    + apply NoDup_cons. done.
    + apply NoDup_cons. split; [|auto].
      intros [->|?]%map_set_snd_elem; done.
Qed.

(** ** References and heaps *)

Section heap_facts.
Context {V : Type} (d : V).
Implicit Types (m : list (string * ref)) (heap : list V).

Lemma wf_refs_valid m heap k r :
  wf_refs m heap -> map_get k m = Some r -> (r < length heap)%nat.
Proof.
  intros (_ & _ & Hv) Hk. apply Hv. apply map_get_elem_of in Hk.
  apply list_elem_of_fmap. by exists (k, r).
Qed.

Lemma deref_app_l heap l r : (r < length heap)%nat -> deref d (heap ++ l) r = deref d heap r.
Proof. intros. unfold deref. by rewrite lookup_app_l. Qed.

Lemma deref_app_new heap v : deref d (heap ++ [v]) (length heap) = v.
Proof.
  unfold deref. rewrite lookup_app_r by lia. by rewrite Nat.sub_diag.
Qed.

Lemma table_app m heap l :
  wf_refs m heap ->
  prod_map id (deref d (heap ++ l)) <$> m = prod_map id (deref d heap) <$> m.
Proof.
  intros (_ & _ & Hv). apply list_fmap_ext. intros i [k r] Hi. simpl. f_equal.
  apply deref_app_l, Hv. apply list_elem_of_fmap. exists (k, r). split; [done|].
  by eapply list_elem_of_lookup_2.
Qed.

Lemma wf_refs_app m heap l : wf_refs m heap -> wf_refs m (heap ++ l).
Proof.
  intros (? & ? & Hv). repeat split; [done..|].
  intros r Hr. rewrite length_app. specialize (Hv r Hr). lia.
Qed.

Lemma wf_refs_alloc_set m heap k v :
  wf_refs m heap -> wf_refs (map_set k (length heap) m) (heap ++ [v]).
Proof.
  intros (Hk & Hr & Hv). repeat split.
  - by apply map_set_NoDup_fst.
  - apply map_set_NoDup_snd; [done|]. intros Hin. specialize (Hv _ Hin). lia.
  - intros r [->|Hin]%map_set_snd_elem; rewrite length_app; simpl; [lia|].
    specialize (Hv _ Hin). lia.
Qed.

Lemma table_alloc_set m heap k v :
  wf_refs m heap ->
  prod_map id (deref d (heap ++ [v])) <$> map_set k (length heap) m
  = map_set k v (prod_map id (deref d heap) <$> m).
Proof.
  intros Hwf. rewrite map_set_fmap, deref_app_new. f_equal. by apply table_app.
Qed.

Lemma wf_refs_assign m heap r v : wf_refs m heap -> wf_refs m (<[r := v]> heap).
Proof. intros (? & ? & Hv). repeat split; [done..|]. by rewrite length_insert. Qed.

Lemma deref_insert_eq heap r v : (r < length heap)%nat -> deref d (<[r := v]> heap) r = v.
Proof. intros. unfold deref. by rewrite list_lookup_insert_eq. Qed.

Lemma deref_insert_ne heap r r' v : r <> r' -> deref d (<[r := v]> heap) r' = deref d heap r'.
Proof. intros. unfold deref. by rewrite list_lookup_insert_ne. Qed.

Lemma table_assign m heap k r v :
  wf_refs m heap -> map_get k m = Some r ->
  prod_map id (deref d (<[r := v]> heap)) <$> m
  = map_alter k (fun _ => v) (prod_map id (deref d heap) <$> m).
Proof.
  intros (Hk & Hr & Hv). revert Hk Hr Hv.
  induction m as [|[k0 r0] m IH]; simpl; [done|].
  rewrite !NoDup_cons. intros [Hk0 Hk] [Hr0 Hr] Hv Hget.
  destruct (decide (k0 = k)) as [->|Hne]; simpl.
  - injection Hget as ->. f_equal.
    + f_equal. apply deref_insert_eq, Hv. left.
    + apply list_fmap_ext. intros i [k1 r1] Hi. simpl. f_equal.
      apply deref_insert_ne. intros ->. apply Hr0.
      apply list_elem_of_fmap. exists (k1, r1). split; [done|].
      by eapply list_elem_of_lookup_2.
  - f_equal.
    + f_equal. apply deref_insert_ne. intros ->. apply Hr0.
      apply map_get_elem_of in Hget. apply list_elem_of_fmap. by exists (k, r0).
    + apply IH; [done..| |done]. intros r' Hr'. apply Hv. by right.
Qed.

End heap_facts.

(** ** The operations of [MemoryStore] on the tables *)

Lemma slotAt_deref st r : store.slotAt st r = deref TimeSlot.blank (slotHeap st) r.
Proof. done. Qed.
Lemma tokenAt_deref st r : store.tokenAt st r = deref Token.blank (tokenHeap st) r.
Proof. done. Qed.

Lemma getSlot_slotOf st k r :
  store.getSlot k st = Some r -> V.getSlot k (tables st) = Some (store.slotAt st r).
Proof.
  unfold store.getSlot, V.getSlot, tables. simpl. rewrite map_get_fmap.
  by intros ->.
Qed.

Lemma getToken_tokenOf st k r :
  store.getToken k st = Some r -> V.getToken k (tables st) = Some (store.tokenAt st r).
Proof.
  unfold store.getToken, V.getToken, tables. simpl. rewrite map_get_fmap.
  by intros ->.
Qed.

Lemma V_getSlot_tables st k :
  V.getSlot k (tables st) = store.slotAt st <$> store.getSlot k st.
Proof. unfold store.getSlot, V.getSlot, tables. simpl. by rewrite map_get_fmap. Qed.

Lemma V_getToken_tables st k :
  V.getToken k (tables st) = store.tokenAt st <$> store.getToken k st.
Proof. unfold store.getToken, V.getToken, tables. simpl. by rewrite map_get_fmap. Qed.

Lemma grows_refl st : grows st st.
Proof. repeat split; exists []; by rewrite app_nil_r. Qed.

Lemma grows_trans st1 st2 st3 : grows st1 st2 -> grows st2 st3 -> grows st1 st3.
Proof.
  intros (Hd & [l1 H1] & [k1 K1]) (Hd' & [l2 H2] & [k2 K2]). repeat split.
  - congruence.
  - exists (l1 ++ l2)%list. by rewrite H2, H1, app_assoc.
  - exists (k1 ++ k2)%list. by rewrite K2, K1, app_assoc.
Qed.

Lemma grows_slotAt st st' r :
  grows st st' -> (r < length (slotHeap st))%nat -> store.slotAt st' r = store.slotAt st r.
Proof.
  intros (_ & [l H] & _) Hr. rewrite !slotAt_deref, H. by apply deref_app_l.
Qed.

Lemma grows_tokenAt st st' r :
  grows st st' -> (r < length (tokenHeap st))%nat -> store.tokenAt st' r = store.tokenAt st r.
Proof.
  intros (_ & _ & [l H]) Hr. rewrite !tokenAt_deref, H. by apply deref_app_l.
Qed.

Lemma grows_extends st st' : grows st st' -> extends st st'.
Proof.
  intros Hg. pose proof Hg as (Hd & [l H] & Ht). repeat split; [done..| |].
  - rewrite H, length_app. lia.
  - intros r Hr. by rewrite (grows_slotAt st st').
Qed.

Lemma extends_refl st : extends st st.
Proof. apply grows_extends, grows_refl. Qed.

Lemma extends_trans st1 st2 st3 : extends st1 st2 -> extends st2 st3 -> extends st1 st3.
Proof.
  intros (Hd & [k1 K1] & Hl & Hi) (Hd' & [k2 K2] & Hl' & Hi'). repeat split.
  - congruence.
  - exists (k1 ++ k2)%list. by rewrite K2, K1, app_assoc.
  - lia.
  - intros r Hr. rewrite Hi' by lia. by apply Hi.
Qed.

Lemma extends_tokenAt st st' r :
  extends st st' -> (r < length (tokenHeap st))%nat -> store.tokenAt st' r = store.tokenAt st r.
Proof.
  intros (_ & [l H] & _) Hr. rewrite !tokenAt_deref, H. by apply deref_app_l.
Qed.

Lemma extends_token_length st st' :
  extends st st' -> (length (tokenHeap st) <= length (tokenHeap st'))%nat.
Proof. intros (_ & [l H] & _). rewrite H, length_app. lia. Qed.

Lemma getToken_valid st k r :
  wf st -> store.getToken k st = Some r -> (r < length (tokenHeap st))%nat.
Proof. intros [_ Hw] Hg. by eapply wf_refs_valid. Qed.

Lemma getSlot_valid st k r :
  wf st -> store.getSlot k st = Some r -> (r < length (slotHeap st))%nat.
Proof. intros [Hw _] Hg. by eapply wf_refs_valid. Qed.

Lemma updateSlot_spec k f st :
  wf st ->
  wf (store.updateSlot k f st)
  /\ grows st (store.updateSlot k f st)
  /\ tables (store.updateSlot k f st) = V.alterSlot k f (tables st).
Proof.
  intros [Hs Ht]. unfold store.updateSlot.
  destruct (map_get k (slots st)) as [r|] eqn:E; simpl.
  - split; [|split].
    + split; simpl; [by apply wf_refs_alloc_set|done].
    + repeat split; simpl; [by eexists|exists []; by rewrite app_nil_r].
    + unfold tables, V.alterSlot. simpl. f_equal.
      change (store.slotAt ?s) with (deref TimeSlot.blank (slotHeap s)). simpl.
      rewrite table_alloc_set by done.
      erewrite map_set_alter by (rewrite map_get_fmap, E; done).
      apply map_alter_ext. intros v. rewrite map_get_fmap, E. simpl. by intros [= <-].
  - split; [done|]. split; [apply grows_refl|].
    unfold tables, V.alterSlot. simpl. f_equal.
    rewrite map_alter_absent; [done|]. by rewrite map_get_fmap, E.
Qed.

Lemma updateToken_spec k f st :
  wf st ->
  wf (store.updateToken k f st)
  /\ grows st (store.updateToken k f st)
  /\ tables (store.updateToken k f st) = V.alterToken k f (tables st).
Proof.
  intros [Hs Ht]. unfold store.updateToken.
  destruct (map_get k (tokens st)) as [r|] eqn:E; simpl.
  - split; [|split].
    + split; simpl; [done|by apply wf_refs_alloc_set].
    + repeat split; simpl; [exists []; by rewrite app_nil_r|by eexists].
    + unfold tables, V.alterToken. simpl. f_equal.
      change (store.tokenAt ?s) with (deref Token.blank (tokenHeap s)). simpl.
      rewrite table_alloc_set by done.
      erewrite map_set_alter by (rewrite map_get_fmap, E; done).
      apply map_alter_ext. intros v. rewrite map_get_fmap, E. simpl. by intros [= <-].
  - split; [done|]. split; [apply grows_refl|].
    unfold tables, V.alterToken. simpl. f_equal.
    rewrite map_alter_absent; [done|]. by rewrite map_get_fmap, E.
Qed.

(** An assignment to the object that the map holds for [k]. *)
Lemma assignSlot_spec k r f st :
  wf st -> store.getSlot k st = Some r ->
  (forall o, TimeSlot.id (f o) = TimeSlot.id o) ->
  let st' := store.assignSlot r f st in
  wf st' /\ extends st st'
  /\ tables st' = V.alterSlot k f (tables st)
  /\ slots st' = slots st
  /\ store.slotAt st' r = f (store.slotAt st r).
Proof.
  intros [Hs Ht] Hg Hid. simpl. unfold store.assignSlot.
  pose proof (wf_refs_valid _ _ _ _ Hs Hg) as Hr.
  split; [|split; [|split; [|split]]].
  - split; simpl; [by apply wf_refs_assign|done].
  - repeat split; simpl; [exists []; by rewrite app_nil_r|by rewrite length_insert|].
    intros r' Hr'. rewrite !slotAt_deref. simpl.
    destruct (decide (r = r')) as [<-|Hne].
    + rewrite deref_insert_eq by done. apply Hid.
    + by rewrite deref_insert_ne.
  - unfold tables, V.alterSlot. simpl. f_equal.
    change (store.slotAt ?s) with (deref TimeSlot.blank (slotHeap s)). simpl.
    erewrite table_assign by done.
    apply map_alter_ext. intros v. rewrite map_get_fmap.
    unfold store.getSlot in Hg. rewrite Hg. simpl. by intros [= <-].
  - done.
  - rewrite slotAt_deref. simpl. by rewrite deref_insert_eq.
Qed.

(** ** The operations of [slotManager] on the tables *)

Lemma js_insert_fmap {A B : Type} (f : A -> B) (cmp : B -> B -> Z) (x : A) (s : list A) :
  js_insert cmp (f x) (f <$> s) = f <$> js_insert (fun a b => cmp (f a) (f b)) x s.
Proof.
  induction s as [|y s IHs]; csimpl; [done|].
  destruct (decide (cmp (f x) (f y) <= 0)); csimpl; [done|by rewrite IHs].
Qed.

Lemma js_sort_fmap {A B : Type} (f : A -> B) (cmp : B -> B -> Z) (l : list A) :
  js_sort cmp (f <$> l) = f <$> js_sort (fun a b => cmp (f a) (f b)) l.
Proof.
  unfold js_sort. induction l as [|x l IH]; csimpl; [done|].
  by rewrite IH, js_insert_fmap.
Qed.

Lemma filter_fmap_comm {A B : Type} (f : A -> B) (P : B -> Prop)
    `{forall x, Decision (P x)} (l : list A) :
  filter P (f <$> l) = f <$> filter (fun a => P (f a)) l.
Proof.
  induction l as [|x l IH]; csimpl; [done|].
  rewrite !filter_cons. destruct (decide (P (f x))); csimpl; by rewrite IH.
Qed.

Lemma omap_fmap_comm {A B C : Type} (g : B -> C) (f : A -> option B) (l : list A) :
  omap (fun a => g <$> f a) l = g <$> omap f l.
Proof.
  induction l as [|x l IH]; csimpl; [done|].
  destruct (f x); csimpl; by rewrite IH.
Qed.

Lemma head_fmap_comm {A B : Type} (f : A -> B) (l : list A) :
  head (f <$> l) = f <$> head l.
Proof. by destruct l. Qed.

Lemma last_fmap_comm {A B : Type} (f : A -> B) (l : list A) :
  last (f <$> l) = f <$> last l.
Proof.
  induction l as [|x [|y l] IH]; csimpl; [done..|]. apply IH.
Qed.

Lemma find_fmap_comm {A B : Type} (f : A -> B) (p : B -> bool) (l : list A) :
  List.find p (f <$> l) = f <$> List.find (fun a => p (f a)) l.
Proof.
  induction l as [|x l IH]; csimpl; [done|]. by destruct (p (f x)).
Qed.

Lemma hasCapacity_spec k st :
  slotManager.hasCapacity k st = V.hasCapacity k (tables st).
Proof.
  unfold slotManager.hasCapacity, V.hasCapacity. rewrite V_getSlot_tables.
  by destruct (store.getSlot k st).
Qed.

Lemma slots_snd_tables st : (slotTable (tables st)).*2 = store.slotAt st <$> (slots st).*2.
Proof.
  unfold tables. simpl. rewrite <- !list_fmap_compose.
  apply list_fmap_ext. by intros i [k r] _.
Qed.

Lemma getSlotsByDoctor_spec d st :
  store.slotAt st <$> store.getSlotsByDoctor d st = V.slotsByDoctor d (tables st).
Proof.
  unfold store.getSlotsByDoctor, V.slotsByDoctor.
  by rewrite slots_snd_tables, (filter_fmap_comm (store.slotAt st)).
Qed.

Lemma findBestAvailableSlot_spec d st :
  store.slotAt st <$> slotManager.findBestAvailableSlot d st
  = V.findBestAvailableSlot d (tables st).
Proof.
  unfold slotManager.findBestAvailableSlot, V.findBestAvailableSlot.
  rewrite <- getSlotsByDoctor_spec, (filter_fmap_comm (store.slotAt st)), js_sort_fmap.
  by rewrite head_fmap_comm.
Qed.

Lemma updateSlotStatus_spec k st :
  wf st ->
  wf (slotManager.updateSlotStatus k st)
  /\ grows st (slotManager.updateSlotStatus k st)
  /\ exists s, tables (slotManager.updateSlotStatus k st)
               = V.alterSlot k (TimeSlot.set_status s) (tables st).
Proof.
  intros Hwf. unfold slotManager.updateSlotStatus.
  destruct (store.getSlot k st) as [r|] eqn:E.
  - destruct (updateSlot_spec k (TimeSlot.set_status
      (if decide (TimeSlot.currentLoad (store.slotAt st r) = 0) then AVAILABLE
       else if decide (TimeSlot.currentLoad (store.slotAt st r)
                       < TimeSlot.maxCapacity (store.slotAt st r)) then AVAILABLE
       else if decide (TimeSlot.currentLoad (store.slotAt st r)
                       = TimeSlot.maxCapacity (store.slotAt st r)) then FULL
       else OVERFLOW)) st Hwf) as (? & ? & ?).
    eauto.
  - split; [done|]. split; [apply grows_refl|]. exists AVAILABLE.
    unfold V.alterSlot. rewrite map_alter_absent; [by destruct (tables st)|].
    pose proof (V_getSlot_tables st k) as H. rewrite E in H. apply H.
Qed.

(** The slot operations end by writing back the object they were given.  Its
    [status] field is the one it had on entry, so the status that
    [updateSlotStatus] computed in between is not kept. *)
Lemma write_back k r g st st2 :
  wf st -> store.getSlot k st = Some r ->
  wf st2 -> extends st st2 -> slots st2 = slots st ->
  tables st2 = V.alterSlot k g (tables st) ->
  store.slotAt st2 r = g (store.slotAt st r) ->
  let st3 := slotManager.updateSlotStatus k st2 in
  let st4 := store.updateSlot k (whole (store.slotAt st3 r)) st3 in
  wf st4 /\ extends st st4 /\ tables st4 = V.alterSlot k g (tables st).
Proof.
  intros Hwf Hget W2 X2 S2 T2 A2. simpl.
  destruct (updateSlotStatus_spec k st2 W2) as (W3 & G3 & s & T3).
  destruct (updateSlot_spec k (whole (store.slotAt (slotManager.updateSlotStatus k st2) r))
              _ W3) as (W4 & G4 & T4).
  split; [done|]. split.
  - eapply extends_trans; [done|]. eapply extends_trans; by apply grows_extends.
  - rewrite T4, T3, T2. unfold V.alterSlot. simpl. f_equal.
    rewrite !map_alter_alter. apply map_alter_ext. intros v Hv. unfold whole.
    rewrite (grows_slotAt st2) by
      (done || (eapply getSlot_valid; [done|]; unfold store.getSlot; rewrite S2; done)).
    rewrite A2. apply getSlot_slotOf in Hget. unfold V.getSlot, tables in Hget.
    simpl in Hget. congruence.
Qed.

Lemma addTokenToSlot_spec k x st :
  wf st -> is_Some (store.getSlot k st) ->
  exists st', slotManager.addTokenToSlot k x st = Some st'
    /\ wf st' /\ extends st st'
    /\ tables st' = V.addTokenToSlot k x (tables st).
Proof.
  intros Hwf [r E]. unfold slotManager.addTokenToSlot. rewrite E.
  eexists. split; [done|].
  destruct (assignSlot_spec k r
    (fun o => TimeSlot.set_allocatedTokens (TimeSlot.allocatedTokens o ++ [x]) o)
    st Hwf E) as (W1 & X1 & T1 & S1 & A1); [done|].
  destruct (assignSlot_spec k r
    (fun o => TimeSlot.set_currentLoad (Z.of_nat (length (TimeSlot.allocatedTokens o))) o)
    _ W1) as (W2 & X2 & T2 & S2 & A2);
    [unfold store.getSlot; rewrite S1; exact E|done|].
  eapply (write_back k r (V.seat x)); try done.
  - by eapply extends_trans.
  - rewrite T2, T1. unfold V.alterSlot. simpl. by rewrite map_alter_alter.
  - by rewrite A2, A1.
Qed.

Lemma addTokenToSlot_None k x st :
  store.getSlot k st = None -> slotManager.addTokenToSlot k x st = None.
Proof. intros E. unfold slotManager.addTokenToSlot. by rewrite E. Qed.

Lemma alterSlot_absent k f T : V.getSlot k T = None -> V.alterSlot k f T = T.
Proof.
  intros E. unfold V.alterSlot. rewrite map_alter_absent by done. by destruct T.
Qed.

Lemma alterToken_absent k f T : V.getToken k T = None -> V.alterToken k f T = T.
Proof.
  intros E. unfold V.alterToken. rewrite map_alter_absent by done. by destruct T.
Qed.

Lemma getSlot_None_tables k st :
  store.getSlot k st = None -> V.getSlot k (tables st) = None.
Proof. intros E. by rewrite V_getSlot_tables, E. Qed.

Lemma removeTokenFromSlot_spec k x st :
  wf st ->
  let st' := slotManager.removeTokenFromSlot k x st in
  wf st' /\ extends st st' /\ tables st' = V.alterSlot k (V.unseat x) (tables st).
Proof.
  intros Hwf. simpl. unfold slotManager.removeTokenFromSlot.
  destruct (store.getSlot k st) as [r|] eqn:E.
  - destruct (assignSlot_spec k r
      (fun o => TimeSlot.set_allocatedTokens
                  (filter (fun id => id <> x) (TimeSlot.allocatedTokens o)) o)
      st Hwf E) as (W1 & X1 & T1 & S1 & A1); [done|].
    destruct (assignSlot_spec k r
      (fun o => TimeSlot.set_currentLoad (Z.of_nat (length (TimeSlot.allocatedTokens o))) o)
      _ W1) as (W2 & X2 & T2 & S2 & A2);
      [unfold store.getSlot; rewrite S1; exact E|done|].
    eapply (write_back k r (V.unseat x)); try done.
    + by eapply extends_trans.
    + rewrite T2, T1. unfold V.alterSlot. simpl. by rewrite map_alter_alter.
    + by rewrite A2, A1.
  - split; [done|]. split; [apply extends_refl|].
    by rewrite alterSlot_absent by by apply getSlot_None_tables.
Qed.

Lemma removeFromWaitlist_spec k x st :
  wf st ->
  let st' := slotManager.removeFromWaitlist k x st in
  wf st' /\ extends st st' /\ tables st' = V.alterSlot k (V.dequeue x) (tables st).
Proof.
  intros Hwf. simpl. unfold slotManager.removeFromWaitlist.
  destruct (store.getSlot k st) as [r|] eqn:E.
  - destruct (assignSlot_spec k r
      (fun o => TimeSlot.set_waitlist
                  (filter (fun id => id <> x) (TimeSlot.waitlist o)) o)
      st Hwf E) as (W1 & X1 & T1 & S1 & A1); [done|].
    destruct (updateSlot_spec k (whole (store.slotAt (store.assignSlot r
      (fun o => TimeSlot.set_waitlist
                  (filter (fun id => id <> x) (TimeSlot.waitlist o)) o) st) r))
      _ W1) as (W4 & G4 & T4).
    split; [done|]. split.
    + eapply extends_trans; [done|by apply grows_extends].
    + rewrite T4, T1. unfold V.alterSlot. simpl. f_equal.
      rewrite map_alter_alter. apply map_alter_ext. intros v Hv. unfold whole.
      rewrite A1. apply getSlot_slotOf in E. unfold V.getSlot, tables in E.
      simpl in E. unfold V.dequeue. congruence.
  - split; [done|]. split; [apply extends_refl|].
    by rewrite alterSlot_absent by by apply getSlot_None_tables.
Qed.

Lemma getSlot_alterSlot k k' f T :
  V.getSlot k' (V.alterSlot k f T)
  = if decide (k = k') then f <$> V.getSlot k T else V.getSlot k' T.
Proof. unfold V.getSlot, V.alterSlot. simpl. apply map_get_alter. Qed.

Lemma getSlot_alterToken k k' f T : V.getSlot k' (V.alterToken k f T) = V.getSlot k' T.
Proof. done. Qed.

Lemma getToken_alterToken k k' f T :
  V.getToken k' (V.alterToken k f T)
  = if decide (k = k') then f <$> V.getToken k T else V.getToken k' T.
Proof. unfold V.getToken, V.alterToken. simpl. apply map_get_alter. Qed.

Lemma getToken_alterSlot k k' f T : V.getToken k' (V.alterSlot k f T) = V.getToken k' T.
Proof. done. Qed.

Lemma slot_present_alterSlot k k' f T :
  is_Some (V.getSlot k' (V.alterSlot k f T)) <-> is_Some (V.getSlot k' T).
Proof.
  rewrite getSlot_alterSlot. destruct (decide (k = k')) as [->|]; [|done].
  by rewrite fmap_is_Some.
Qed.

Lemma token_present_alterToken k k' f T :
  is_Some (V.getToken k' (V.alterToken k f T)) <-> is_Some (V.getToken k' T).
Proof.
  rewrite getToken_alterToken. destruct (decide (k = k')) as [->|]; [|done].
  by rewrite fmap_is_Some.
Qed.

Lemma slot_present_tables k st :
  is_Some (store.getSlot k st) <-> is_Some (V.getSlot k (tables st)).
Proof. by rewrite V_getSlot_tables, fmap_is_Some. Qed.

Lemma token_present_tables k st :
  is_Some (store.getToken k st) <-> is_Some (V.getToken k (tables st)).
Proof. by rewrite V_getToken_tables, fmap_is_Some. Qed.

Lemma slot_keys_tables st : (slotTable (tables st)).*1 = (slots st).*1.
Proof.
  unfold tables. simpl. rewrite <- list_fmap_compose.
  apply list_fmap_ext. by intros ? [??] _.
Qed.

Lemma token_keys_tables st : (tokenTable (tables st)).*1 = (tokens st).*1.
Proof.
  unfold tables. simpl. rewrite <- list_fmap_compose.
  apply list_fmap_ext. by intros ? [??] _.
Qed.

Lemma sortIds_spec st l :
  V.sortIds (tables st) l
  = (fun t => Token.id (store.tokenAt st t)) <$>
      js_sort (fun a b =>
                 priorityRules.compareTokenPriority
                   (Token.priority (store.tokenAt st a)) (Token.createdAt (store.tokenAt st a))
                   (Token.priority (store.tokenAt st b)) (Token.createdAt (store.tokenAt st b)))
              (omap (fun id => store.getToken id st) l).
Proof.
  unfold V.sortIds.
  rewrite (list_omap_ext _ (fun id => store.tokenAt st <$> store.getToken id st) l l).
  - rewrite omap_fmap_comm, js_sort_fmap, <- list_fmap_compose. done.
  - apply Forall2_same_length_lookup. split; [done|].
    intros i x y Hx Hy. assert (x = y) as -> by congruence. apply V_getToken_tables.
Qed.

Lemma sortIds_tokenTable T T' l :
  tokenTable T = tokenTable T' -> V.sortIds T l = V.sortIds T' l.
Proof. intros H. unfold V.sortIds, V.getToken. by rewrite H. Qed.

Lemma sortWaitlist_spec k st :
  wf st ->
  let st' := slotManager.sortWaitlist k st in
  wf st' /\ extends st st'
  /\ tables st'
     = V.alterSlot k (fun o => TimeSlot.set_waitlist
                                 (V.sortIds (tables st) (TimeSlot.waitlist o)) o) (tables st)
  /\ (slots st').*1 = (slots st).*1
  /\ forall r, store.getSlot k st = Some r ->
       store.slotAt st' r
       = TimeSlot.set_waitlist
           (V.sortIds (tables st) (TimeSlot.waitlist (store.slotAt st r)))
           (store.slotAt st r).
Proof.
  intros Hwf. simpl. unfold slotManager.sortWaitlist.
  destruct (store.getSlot k st) as [r|] eqn:E.
  - rewrite <- sortIds_spec.
    set (L := V.sortIds (tables st) (TimeSlot.waitlist (store.slotAt st r))).
    destruct (assignSlot_spec k r (TimeSlot.set_waitlist L) st Hwf E)
      as (W1 & X1 & T1 & S1 & A1); [done|].
    destruct (updateSlot_spec k
      (whole (store.slotAt (store.assignSlot r (TimeSlot.set_waitlist L) st) r))
      _ W1) as (W4 & G4 & T4).
    split; [done|]. split; [|split; [|split]].
    + eapply extends_trans; [done|by apply grows_extends].
    + rewrite T4, T1. unfold V.alterSlot. simpl. f_equal.
      rewrite map_alter_alter. apply map_alter_ext. intros v Hv. unfold whole.
      rewrite A1. apply getSlot_slotOf in E. unfold V.getSlot, tables in E.
      simpl in E. unfold L. congruence.
    + rewrite <- !slot_keys_tables, T4, T1. simpl. by rewrite !map_alter_fst.
    + intros r' [= <-]. rewrite (grows_slotAt _ _ r G4).
      * by rewrite A1.
      * eapply getSlot_valid; [exact W1|]. unfold store.getSlot. rewrite S1. exact E.
  - split; [done|]. split; [apply extends_refl|]. split; [|done].
    by rewrite alterSlot_absent by by apply getSlot_None_tables.
Qed.

Lemma getSlot_keys st st' k :
  (slots st').*1 = (slots st).*1 ->
  is_Some (store.getSlot k st') <-> is_Some (store.getSlot k st).
Proof. intros H. unfold store.getSlot. by rewrite !map_get_is_Some, H. Qed.

Lemma addToWaitlist_spec k x st :
  wf st -> is_Some (store.getSlot k st) ->
  exists st', slotManager.addToWaitlist k x st = Some st'
    /\ wf st' /\ extends st st'
    /\ tables st' = V.addToWaitlist k x (tables st).
Proof.
  intros Hwf [r E]. unfold slotManager.addToWaitlist. rewrite E.
  eexists. split; [done|].
  destruct (assignSlot_spec k r
    (fun o => TimeSlot.set_waitlist (TimeSlot.waitlist o ++ [x]) o)
    st Hwf E) as (W1 & X1 & T1 & S1 & A1); [done|].
  set (st1 := store.assignSlot r
    (fun o => TimeSlot.set_waitlist (TimeSlot.waitlist o ++ [x]) o) st) in *.
  assert (store.getSlot k st1 = Some r) as E1
    by (unfold store.getSlot; rewrite S1; exact E).
  destruct (sortWaitlist_spec k st1 W1) as (W2 & X2 & T2 & S2 & A2).
  specialize (A2 r E1).
  set (st2 := slotManager.sortWaitlist k st1) in *.
  destruct (updateSlot_spec k (whole (store.slotAt st2 r)) st2 W2) as (W4 & G4 & T4).
  split; [done|]. split.
  - eapply extends_trans; [done|]. eapply extends_trans; [done|by apply grows_extends].
  - rewrite T4, T2, T1. unfold V.addToWaitlist, V.alterSlot. simpl. f_equal.
    rewrite !map_alter_alter. apply map_alter_ext. intros v Hv. unfold whole.
    rewrite A2, A1. apply getSlot_slotOf in E. unfold V.getSlot, tables in E.
    simpl in E. assert (v = store.slotAt st r) as -> by congruence.
    unfold V.enqueue. simpl.
    rewrite (sortIds_tokenTable (tables st1) (tables st)) by (by rewrite T1). done.
Qed.

Lemma addToWaitlist_None k x st :
  store.getSlot k st = None -> slotManager.addToWaitlist k x st = None.
Proof. intros E. unfold slotManager.addToWaitlist. by rewrite E. Qed.

Local Ltac unchanged :=
  eexists _, _; split; [done|]; split; [done|]; split; [apply extends_refl|done].

Lemma promoteFromWaitlist_spec now k st :
  wf st ->
  exists res st', slotManager.promoteFromWaitlist now k st = Some (res, st')
    /\ wf st' /\ extends st st'
    /\ tables st' = V.promoteFromWaitlist now k (tables st).
Proof.
  intros Hwf. unfold slotManager.promoteFromWaitlist, slotManager.getNextFromWaitlist,
    V.promoteFromWaitlist.
  rewrite V_getSlot_tables.
  destruct (store.getSlot k st) as [r|] eqn:E; simpl; [|unchanged].
  destruct (TimeSlot.waitlist (store.slotAt st r)) as [|h rest] eqn:Ew; [unchanged|].
  rewrite V_getToken_tables.
  destruct (store.getToken h st) as [nt|] eqn:Et; simpl; [|unchanged].
  pose proof (getToken_valid _ _ _ Hwf Et) as Hnt.
  set (hid := Token.id (store.tokenAt st nt)).
  destruct (removeFromWaitlist_spec k hid st Hwf) as (W1 & X1 & T1).
  set (st1 := slotManager.removeFromWaitlist k hid st) in *.
  rewrite (extends_tokenAt st st1) by done. fold hid.
  destruct (addTokenToSlot_spec k hid st1 W1) as (st2 & -> & W2 & X2 & T2).
  { apply slot_present_tables. rewrite T1. apply slot_present_alterSlot.
    apply slot_present_tables. eauto. }
  assert (extends st st2) as X02 by by eapply extends_trans.
  rewrite (extends_tokenAt st st2) by done. fold hid.
  destruct (updateToken_spec hid (fun k0 => Token.set_allocatedAt (Some now)
              (Token.set_slotId (Some k) (Token.set_status ALLOCATED k0))) st2 W2)
    as (W3 & G3 & T3).
  eexists _, _. split; [done|]. split; [done|]. split.
  - eapply extends_trans; [done|by apply grows_extends].
  - rewrite T3, T2, T1. done.
Qed.

(** ** The operations of [tokenAllocator] on the tables *)

Lemma assignToken_spec k r f st :
  wf st -> store.getToken k st = Some r ->
  let st' := store.assignToken r f st in
  wf st'
  /\ tables st' = V.alterToken k f (tables st)
  /\ tokens st' = tokens st
  /\ store.tokenAt st' r = f (store.tokenAt st r).
Proof.
  intros [Hs Ht] Hg. simpl. unfold store.assignToken.
  pose proof (wf_refs_valid _ _ _ _ Ht Hg) as Hr.
  split; [|split; [|split]].
  - split; simpl; [done|by apply wf_refs_assign].
  - unfold tables, V.alterToken. simpl. f_equal.
    change (store.tokenAt ?s) with (deref Token.blank (tokenHeap s)). simpl.
    erewrite table_assign by done.
    apply map_alter_ext. intros v. rewrite map_get_fmap.
    unfold store.getToken in Hg. rewrite Hg. simpl. by intros [= <-].
  - done.
  - rewrite tokenAt_deref. simpl. by rewrite deref_insert_eq.
Qed.

(** Creating the token object and storing it under its id. *)
Lemma newToken_spec o st :
  wf st ->
  let st2 := store.addToken (store.newToken o st).1 (store.newToken o st).2 in
  wf st2 /\ grows st st2
  /\ tables st2 = V.putToken (Token.id o) o (tables st)
  /\ store.tokenAt st2 (store.newToken o st).1 = o
  /\ store.getToken (Token.id o) st2 = Some (store.newToken o st).1
  /\ ((store.newToken o st).1 < length (tokenHeap st2))%nat.
Proof.
  intros [Hs Ht]. simpl. unfold store.addToken. simpl.
  assert (store.tokenAt (mkStore (doctors st) (slots st) (tokens st) (slotHeap st)
            (tokenHeap st ++ [o])) (length (tokenHeap st)) = o) as Hnew.
  { rewrite tokenAt_deref. simpl. apply deref_app_new. }
  rewrite Hnew. split; [|split; [|split; [|split; [|split]]]].
  - split; simpl; [done|by apply wf_refs_alloc_set].
  - repeat split; simpl; [exists []; by rewrite app_nil_r|by eexists].
  - unfold tables, V.putToken. simpl. f_equal.
    change (store.tokenAt ?s) with (deref Token.blank (tokenHeap s)). simpl.
    by rewrite table_alloc_set.
  - rewrite tokenAt_deref. simpl. apply deref_app_new.
  - unfold store.getToken. simpl. apply map_get_set_eq.
  - simpl. rewrite length_app. simpl. lia.
Qed.

(** Seating a token: [addTokenToSlot] followed by the update that marks it
    ALLOCATED. *)
Lemma place_spec now k x st :
  wf st -> is_Some (store.getSlot k st) ->
  exists st1, slotManager.addTokenToSlot k x st = Some st1
    /\ let st2 := store.updateToken x (tokenAllocator.allocatedUpdate k now) st1 in
       wf st1 /\ extends st st1 /\ wf st2 /\ extends st st2
       /\ tables st2 = V.place now x k (tables st)
       /\ is_Some (store.getSlot k st2).
Proof.
  intros Hwf Hk.
  destruct (addTokenToSlot_spec k x st Hwf Hk) as (st1 & E1 & W1 & X1 & T1).
  exists st1. split; [done|]. simpl.
  destruct (updateToken_spec x (tokenAllocator.allocatedUpdate k now) st1 W1)
    as (W2 & G2 & T2).
  split; [done|]. split; [done|]. split; [done|]. split; [|split].
  - eapply extends_trans; [done|by apply grows_extends].
  - rewrite T2, T1. done.
  - apply slot_present_tables. rewrite T2, T1. unfold V.addTokenToSlot.
    rewrite getSlot_alterToken. apply slot_present_alterSlot.
    by apply slot_present_tables.
Qed.

Lemma handleEmergencyAllocation_spec now tok k st :
  wf st -> is_Some (store.getSlot k st) -> (tok < length (tokenHeap st))%nat ->
  exists res st', tokenAllocator.handleEmergencyAllocation now tok k st = Some (res, st')
    /\ wf st' /\ extends st st' /\ success res = true
    /\ tables st' = V.place now (Token.id (store.tokenAt st tok)) k (tables st).
Proof.
  intros Hwf Hk Htok. unfold tokenAllocator.handleEmergencyAllocation.
  destruct (place_spec now k (Token.id (store.tokenAt st tok)) st Hwf Hk)
    as (st1 & -> & W1 & X1 & W2 & X2 & T2 & [r Hr]).
  rewrite (extends_tokenAt st st1) by done. rewrite Hr.
  eexists _, _. split; [done|]. done.
Qed.

Lemma allocator_addToWaitlist_spec tok k st :
  wf st -> is_Some (store.getSlot k st) -> (tok < length (tokenHeap st))%nat ->
  exists res st', tokenAllocator.addToWaitlist tok k st = Some (res, st')
    /\ wf st' /\ extends st st' /\ success res = false
    /\ tables st' = V.waitlisted (Token.id (store.tokenAt st tok)) k (tables st).
Proof.
  intros Hwf Hk Htok. unfold tokenAllocator.addToWaitlist.
  destruct (addToWaitlist_spec k (Token.id (store.tokenAt st tok)) st Hwf Hk)
    as (st1 & -> & W1 & X1 & T1).
  rewrite (extends_tokenAt st st1) by done.
  destruct (updateToken_spec (Token.id (store.tokenAt st tok))
    (fun k0 => Token.set_slotId (Some k) (Token.set_status WAITLISTED k0)) st1 W1)
    as (W2 & G2 & T2).
  assert (is_Some (store.getSlot k (store.updateToken (Token.id (store.tokenAt st tok))
    (fun k0 => Token.set_slotId (Some k) (Token.set_status WAITLISTED k0)) st1)))
    as [r Hr].
  { apply slot_present_tables. rewrite T2, T1. unfold V.addToWaitlist.
    rewrite getSlot_alterToken. apply slot_present_alterSlot.
    by apply slot_present_tables. }
  rewrite Hr. eexists _, _. split; [done|]. split; [done|]. split.
  - eapply extends_trans; [done|by apply grows_extends].
  - split; [done|]. rewrite T2, T1. done.
Qed.

Lemma bumpableCandidates_spec tok r st :
  store.tokenAt st <$> tokenAllocator.bumpableCandidates tok r st
  = V.bumpable (Token.patientType (store.tokenAt st tok)) (store.slotAt st r) (tables st).
Proof.
  unfold tokenAllocator.bumpableCandidates, V.bumpable.
  rewrite (list_omap_ext (fun id => V.getToken id (tables st))
             (fun id => store.tokenAt st <$> store.getToken id st)
             (TimeSlot.allocatedTokens (store.slotAt st r))
             (TimeSlot.allocatedTokens (store.slotAt st r))).
  - by rewrite omap_fmap_comm, (filter_fmap_comm (store.tokenAt st)).
  - apply Forall2_same_length_lookup. split; [done|].
    intros i x y Hx Hy. assert (x = y) as -> by congruence. apply V_getToken_tables.
Qed.

Lemma bumpableCandidates_valid tok r st b :
  wf st -> b ∈ tokenAllocator.bumpableCandidates tok r st ->
  (b < length (tokenHeap st))%nat.
Proof.
  intros Hwf Hb. unfold tokenAllocator.bumpableCandidates in Hb.
  apply list_elem_of_filter in Hb as [_ Hb].
  apply list_elem_of_omap in Hb as (x & _ & Hx). by eapply getToken_valid.
Qed.

Lemma tryBumpLowerPriority_spec now tok k st :
  wf st -> (tok < length (tokenHeap st))%nat ->
  exists res st', tokenAllocator.tryBumpLowerPriority now tok k st = Some (res, st')
    /\ wf st' /\ extends st st'
    /\ match V.tryBumpLowerPriority now (Token.id (store.tokenAt st tok))
               (Token.patientType (store.tokenAt st tok)) k (tables st) with
       | Some T1 => success res = true /\ tables st' = T1
       | None => success res = false /\ st' = st
       end.
Proof.
  intros Hwf Htok.
  unfold tokenAllocator.tryBumpLowerPriority, V.tryBumpLowerPriority.
  rewrite V_getSlot_tables.
  destruct (store.getSlot k st) as [r|] eqn:E; simpl.
  2:{ eexists _, _. split; [done|]. split; [done|]. split; [apply extends_refl|done]. }
  rewrite <- bumpableCandidates_spec, last_fmap_comm.
  destruct (last (tokenAllocator.bumpableCandidates tok r st)) as [b|] eqn:El; simpl.
  2:{ eexists _, _. split; [done|]. split; [done|]. split; [apply extends_refl|done]. }
  assert (b < length (tokenHeap st))%nat as Hb.
  { eapply bumpableCandidates_valid; [done|]. by eapply last_Some_elem_of. }
  set (tb := store.tokenAt st b).
  destruct (removeTokenFromSlot_spec k (Token.id tb) st Hwf) as (W1 & X1 & T1).
  set (st1 := slotManager.removeTokenFromSlot k (Token.id tb) st) in *.
  rewrite !(extends_tokenAt st st1) by done. fold tb.
  destruct (updateToken_spec (Token.id tb)
    (fun k0 => Token.set_bumpCount (Token.bumpCount tb + 1)
                 (Token.set_allocatedAt None
                    (Token.set_slotId None (Token.set_status WAITLISTED k0)))) st1 W1)
    as (W2 & G2 & T2).
  set (st2 := store.updateToken _ _ st1) in *.
  assert (extends st st2) as X02
    by (eapply extends_trans; [done|by apply grows_extends]).
  rewrite (extends_tokenAt st st2) by done. fold tb.
  destruct (addToWaitlist_spec k (Token.id tb) st2 W2) as (st3 & -> & W3 & X3 & T3).
  { apply slot_present_tables. rewrite T2, T1. rewrite getSlot_alterToken.
    apply slot_present_alterSlot. apply slot_present_tables. eauto. }
  assert (extends st st3) as X03 by by eapply extends_trans.
  rewrite (extends_tokenAt st st3) by done.
  destruct (place_spec now k (Token.id (store.tokenAt st tok)) st3 W3)
    as (st4 & -> & W4 & X4 & W5 & X5 & T5 & _).
  { apply slot_present_tables. rewrite T3, T2, T1. unfold V.addToWaitlist.
    apply slot_present_alterSlot. rewrite getSlot_alterToken.
    apply slot_present_alterSlot. apply slot_present_tables. eauto. }
  assert (extends st st4) as X04 by by eapply extends_trans.
  rewrite (extends_tokenAt st st4) by done.
  eexists _, _. split; [done|]. split; [done|].
  split; [exact (extends_trans _ _ _ X03 X5)|].
  split; [done|]. rewrite T5, T3, T2, T1. done.
Qed.

Lemma allocateToSlot_spec now tok k st :
  wf st -> (tok < length (tokenHeap st))%nat ->
  exists res st', tokenAllocator.allocateToSlot now tok k st = Some (res, st')
    /\ wf st' /\ extends st st'
    /\ (success res, tables st')
       = V.allocateToSlot now (Token.id (store.tokenAt st tok))
           (Token.patientType (store.tokenAt st tok)) k (tables st).
Proof.
  intros Hwf Htok. unfold tokenAllocator.allocateToSlot, V.allocateToSlot.
  rewrite V_getSlot_tables, <- hasCapacity_spec.
  destruct (store.getSlot k st) as [r|] eqn:E; simpl.
  2:{ eexists _, _. split; [done|]. split; [done|]. split; [apply extends_refl|done]. }
  assert (is_Some (store.getSlot k st)) as Hk by eauto.
  destruct (slotManager.hasCapacity k st).
  { destruct (place_spec now k (Token.id (store.tokenAt st tok)) st Hwf Hk)
      as (st1 & -> & W1 & X1 & W2 & X2 & T2 & _).
    rewrite (extends_tokenAt st st1) by done.
    eexists _, _. split; [done|]. split; [done|]. split; [done|].
    simpl. by rewrite T2. }
  destruct (decide (Token.patientType (store.tokenAt st tok) = EMERGENCY)).
  { destruct (handleEmergencyAllocation_spec now tok k st Hwf Hk Htok)
      as (res & st' & -> & W & X & S & T).
    eexists _, _. split; [done|]. split; [done|]. split; [done|].
    by rewrite S, T. }
  destruct (decide (Token.patientType (store.tokenAt st tok) = PAID_PRIORITY)).
  2:{ destruct (allocator_addToWaitlist_spec tok k st Hwf Hk Htok)
        as (res & st' & -> & W & X & S & T).
      eexists _, _. split; [done|]. split; [done|]. split; [done|].
      by rewrite S, T. }
  destruct (tryBumpLowerPriority_spec now tok k st Hwf Htok)
    as (res & st' & -> & W & X & HV).
  destruct (V.tryBumpLowerPriority now _ _ k (tables st)) as [T1|].
  - destruct HV as [HS HT]. rewrite HS.
    eexists _, _. split; [done|]. split; [done|]. split; [done|].
    by rewrite HS, HT.
  - destruct HV as [HS ->]. rewrite HS.
    destruct (allocator_addToWaitlist_spec tok k st Hwf Hk Htok)
      as (res' & st' & -> & W' & X' & S & T).
    eexists _, _. split; [done|]. split; [done|]. split; [done|].
    by rewrite S, T.
Qed.

Lemma alterToken_whole k f T o :
  V.getToken k T = Some o ->
  V.alterToken k (whole (f o)) (V.alterToken k f T) = V.alterToken k f T.
Proof.
  intros Hg. unfold V.alterToken. simpl. f_equal.
  rewrite map_alter_alter. apply map_alter_ext. intros v Hv.
  unfold whole. unfold V.getToken in Hg. congruence.
Qed.

Lemma allocateToken_spec uuid now patientName patientType doctorId preferredSlotId st :
  wf st ->
  exists res st',
    tokenAllocator.allocateToken uuid now patientName patientType doctorId
      preferredSlotId st = Some (res, st')
    /\ wf st'
    /\ (success res, tables st')
       = V.allocateToken uuid now patientName patientType doctorId preferredSlotId
           (tables st).
Proof.
  intros Hwf. unfold tokenAllocator.allocateToken, V.allocateToken.
  set (o := Token.mk uuid patientName patientType
              (priorityRules.getPriorityScore patientType) doctorId None PENDING now None 0).
  destruct (newToken_spec o st Hwf) as (W2 & G2 & T2 & A2 & Hg & Hv).
  destruct (store.newToken o st) as [tok st1] eqn:En. simpl in *.
  set (st2 := store.addToken tok st1) in *.
  rewrite <- T2.
  assert (store.slotAt st2 <$>
            (if truthy preferredSlotId
             then store.getSlot (default EmptyString preferredSlotId) st2
             else slotManager.findBestAvailableSlot doctorId st2)
          = if truthy preferredSlotId
            then V.getSlot (default EmptyString preferredSlotId) (tables st2)
            else V.findBestAvailableSlot doctorId (tables st2)) as <-.
  { destruct (truthy preferredSlotId);
      [by rewrite V_getSlot_tables | apply findBestAvailableSlot_spec]. }
  destruct (if truthy preferredSlotId
            then store.getSlot (default EmptyString preferredSlotId) st2
            else slotManager.findBestAvailableSlot doctorId st2) as [slot|]; simpl.
  - destruct (allocateToSlot_spec now tok (TimeSlot.id (store.slotAt st2 slot)) st2 W2 Hv)
      as (res & st' & -> & W & X & HV).
    eexists _, _. split; [done|]. split; [done|]. by rewrite HV, A2.
  - destruct (assignToken_spec uuid tok (Token.set_status WAITLISTED) st2 W2 Hg)
      as (W3 & T3 & S3 & A3).
    set (st3 := store.assignToken tok (Token.set_status WAITLISTED) st2) in *.
    destruct (updateToken_spec (Token.id (store.tokenAt st3 tok))
                (whole (store.tokenAt st3 tok)) st3 W3) as (W4 & G4 & T4).
    eexists _, _. split; [done|]. split; [done|].
    f_equal. rewrite T4, T3, A3, A2. apply alterToken_whole.
    apply getToken_tokenOf in Hg. by rewrite A2 in Hg.
Qed.

Lemma release_spec now k x st :
  wf st ->
  exists res st',
    slotManager.promoteFromWaitlist now k (slotManager.removeTokenFromSlot k x st)
      = Some (res, st')
    /\ wf st' /\ extends st st'
    /\ tables st' = V.release now k x (tables st).
Proof.
  intros Hwf.
  destruct (removeTokenFromSlot_spec k x st Hwf) as (W1 & X1 & T1).
  destruct (promoteFromWaitlist_spec now k _ W1) as (res & st' & E & W & X & T).
  eexists _, _. split; [done|]. split; [done|]. split; [by eapply extends_trans|].
  rewrite T, T1. done.
Qed.

Lemma cancelToken_spec now x st :
  wf st ->
  match V.cancelToken now x (tables st) with
  | Some T' =>
      exists res st', tokenAllocator.cancelToken now x st = Some (res, st')
        /\ wf st' /\ tables st' = T'
  | None => tokenAllocator.cancelToken now x st = None
  end.
Proof.
  intros Hwf. unfold tokenAllocator.cancelToken, V.cancelToken.
  rewrite V_getToken_tables.
  destruct (store.getToken x st) as [tok|] eqn:E; simpl; [|done].
  pose proof (getToken_valid _ _ _ Hwf E) as Htok.
  destruct (decide (Token.status (store.tokenAt st tok) = CANCELLED));
    [by eauto|].
  destruct (updateToken_spec x (Token.set_status CANCELLED) st Hwf) as (W1 & G1 & T1).
  set (st1 := store.updateToken x (Token.set_status CANCELLED) st) in *.
  rewrite (grows_tokenAt st st1) by done.
  set (t := store.tokenAt st tok).
  destruct (truthy (Token.slotId t) && bool_decide (Token.status t = ALLOCATED)) eqn:Ea.
  - destruct (release_spec now (default EmptyString (Token.slotId t)) x st1 W1)
      as (res & st3 & -> & W3 & X3 & T3). simpl.
    rewrite (extends_tokenAt st st3)
      by (done || (eapply extends_trans; [by apply grows_extends|done])).
    fold t.
    destruct (truthy (Token.slotId t) && bool_decide (Token.status t = WAITLISTED)).
    + destruct (removeFromWaitlist_spec (default EmptyString (Token.slotId t)) x st3 W3)
        as (W4 & X4 & T4).
      eexists _, _. split; [done|]. split; [done|]. rewrite T4, T3, T1. done.
    + eexists _, _. split; [done|]. split; [done|]. rewrite T3, T1. done.
  - simpl. rewrite (grows_tokenAt st st1) by done. fold t.
    destruct (truthy (Token.slotId t) && bool_decide (Token.status t = WAITLISTED)).
    + destruct (removeFromWaitlist_spec (default EmptyString (Token.slotId t)) x st1 W1)
        as (W4 & X4 & T4).
      eexists _, _. split; [done|]. split; [done|]. rewrite T4, T1. done.
    + eexists _, _. split; [done|]. split; [done|]. done.
Qed.

Lemma markNoShow_spec now x st :
  wf st ->
  match V.markNoShow now x (tables st) with
  | Some T' =>
      exists res st', tokenAllocator.markNoShow now x st = Some (res, st')
        /\ wf st' /\ tables st' = T'
  | None => tokenAllocator.markNoShow now x st = None
  end.
Proof.
  intros Hwf. unfold tokenAllocator.markNoShow, V.markNoShow.
  rewrite V_getToken_tables.
  destruct (store.getToken x st) as [tok|] eqn:E; simpl; [|done].
  destruct (updateToken_spec x (Token.set_status NO_SHOW) st Hwf) as (W1 & G1 & T1).
  set (st1 := store.updateToken x (Token.set_status NO_SHOW) st) in *.
  set (t := store.tokenAt st tok).
  destruct (truthy (Token.slotId t)).
  - destruct (release_spec now (default EmptyString (Token.slotId t)) x st1 W1)
      as (res & st3 & -> & W3 & X3 & T3). simpl.
    eexists _, _. split; [done|]. split; [done|]. rewrite T3, T1. done.
  - eexists _, _. split; [done|]. done.
Qed.

Lemma completeToken_spec x st :
  wf st ->
  match V.completeToken x (tables st) with
  | Some T' =>
      exists st', tokenAllocator.completeToken x st = Some st'
        /\ wf st' /\ tables st' = T'
  | None => tokenAllocator.completeToken x st = None
  end.
Proof.
  intros Hwf. unfold tokenAllocator.completeToken, V.completeToken.
  rewrite V_getToken_tables.
  destruct (store.getToken x st) as [tok|] eqn:E; simpl; [|done].
  destruct (updateToken_spec x (Token.set_status COMPLETED) st Hwf) as (W1 & G1 & T1).
  eauto.
Qed.

(** ** The operations of [delayHandler] on the tables *)

Lemma find_ext_in {A : Type} (p q : A -> bool) (l : list A) :
  (forall x, x ∈ l -> p x = q x) -> List.find p l = List.find q l.
Proof.
  induction l as [|x l IH]; simpl; [done|]. intros H.
  rewrite (H x) by left. destruct (q x); [done|]. apply IH. intros. apply H. by right.
Qed.

Lemma find_elem_of {A : Type} (p : A -> bool) (l : list A) x :
  List.find p l = Some x -> x ∈ l /\ p x = true.
Proof.
  induction l as [|y l IH]; simpl; [done|].
  destruct (p y) eqn:E.
  - intros [= <-]. split; [left|done].
  - intros H. destruct (IH H). split; [by right|done].
Qed.

Lemma hasCapacity_present k T : V.hasCapacity k T = true -> is_Some (V.getSlot k T).
Proof. unfold V.hasCapacity. destruct (V.getSlot k T); [eauto|done]. Qed.

Lemma move_spec k tid x st :
  wf st -> is_Some (store.getSlot tid st) ->
  let st2 := slotManager.removeFromWaitlist k x (slotManager.removeTokenFromSlot k x st) in
  exists st3, slotManager.addTokenToSlot tid x st2 = Some st3
    /\ extends st st2 /\ extends st st3
    /\ forall target,
         let st4 := store.updateToken x (Token.set_slotId (Some target)) st3 in
         wf st4 /\ extends st st4
         /\ tables st4
            = V.alterToken x (Token.set_slotId (Some target))
                (V.alterSlot tid (V.seat x)
                   (V.alterSlot k (V.dequeue x) (V.alterSlot k (V.unseat x) (tables st)))).
Proof.
  intros Hwf Hk. simpl.
  destruct (removeTokenFromSlot_spec k x st Hwf) as (W1 & X1 & T1).
  destruct (removeFromWaitlist_spec k x _ W1) as (W2 & X2 & T2).
  assert (extends st (slotManager.removeFromWaitlist k x
            (slotManager.removeTokenFromSlot k x st))) as X02
    by exact (extends_trans _ _ _ X1 X2).
  destruct (addTokenToSlot_spec tid x _ W2) as (st3 & E3 & W3 & X3 & T3).
  { apply slot_present_tables. rewrite T2, T1. apply slot_present_alterSlot.
    apply slot_present_alterSlot. by apply slot_present_tables. }
  exists st3. split; [done|]. split; [done|].
  assert (extends st st3) as X03 by exact (extends_trans _ _ _ X02 X3).
  split; [done|]. intros target.
  destruct (updateToken_spec x (Token.set_slotId (Some target)) st3 W3) as (W4 & G4 & T4).
  split; [done|]. split.
  - eapply extends_trans; [exact X03|by apply grows_extends].
  - rewrite T4, T3, T2, T1. done.
Qed.

Lemma forEachToken_spec k slot otherRefs st0 l :
  (forall r, r ∈ otherRefs -> (r < length (slotHeap st0))%nat) ->
  forall acc st,
    wf st -> extends st0 st ->
    exists res st',
      delayHandler.forEachToken k slot otherRefs l acc st = Some (res, st')
      /\ wf st' /\ extends st0 st'
      /\ (redistributed res, failed res, tables st')
         = V.forEachToken k ((fun s => TimeSlot.id (store.slotAt st0 s)) <$> otherRefs) l
             (redistributed acc, failed acc) (tables st).
Proof.
  intros Hvalid. induction l as [|x l IH]; intros acc st Hwf Hext; simpl.
  { eexists _, _. split; [done|]. done. }
  rewrite V_getToken_tables.
  destruct (store.getToken x st) as [tok|] eqn:Et; simpl; [|by apply IH].
  assert ((fun s => TimeSlot.id (store.slotAt st0 s)) <$> otherRefs
          = (fun s => TimeSlot.id (store.slotAt st s)) <$> otherRefs) as Hids.
  { apply list_fmap_ext. intros i r Hr. symmetry.
    destruct Hext as (_ & _ & _ & Hi). apply Hi, Hvalid.
    by eapply list_elem_of_lookup_2. }
  rewrite Hids, find_fmap_comm.
  rewrite (find_ext_in
    (fun a => V.hasCapacity (TimeSlot.id (store.slotAt st a)) (tables st))
    (fun s => slotManager.hasCapacity (TimeSlot.id (store.slotAt st s)) st))
    by (intros; by rewrite hasCapacity_spec).
  destruct (List.find _ otherRefs) as [tr|] eqn:Ef; simpl.
  - apply find_elem_of in Ef as [Htr Hcap].
    rewrite hasCapacity_spec in Hcap. apply hasCapacity_present in Hcap.
    apply slot_present_tables in Hcap.
    set (tid := TimeSlot.id (store.slotAt st tr)) in *.
    destruct (move_spec k tid x st Hwf Hcap) as (st3 & E3 & X2 & X3 & H4).
    assert (forall st', extends st st' -> TimeSlot.id (store.slotAt st' tr) = tid) as Hid.
    { intros st' X'. pose proof (extends_trans _ _ _ Hext X') as (_ & _ & _ & Hi).
      destruct Hext as (_ & _ & _ & Hi0). unfold tid.
      by rewrite Hi, Hi0 by by apply Hvalid. }
    rewrite (Hid _ X2), E3, (Hid _ X3).
    destruct (H4 tid) as (W4 & X4 & T4).
    destruct (IH (mkRedistribution (redistributed acc + 1) (failed acc)
                   (details acc ++
                    [String.append "✅ "
                      (String.append (Token.patientName
                         (store.tokenAt (store.updateToken x (Token.set_slotId (Some tid)) st3) tok))
                        (String.append ": "
                          (String.append (TimeSlot.startTime
                             (store.slotAt (store.updateToken x (Token.set_slotId (Some tid)) st3) slot))
                            (String.append " → "
                              (TimeSlot.startTime
                                 (store.slotAt (store.updateToken x (Token.set_slotId (Some tid)) st3)
                                    tr))))))]))
                _ W4 (extends_trans _ _ _ Hext X4))
      as (res & st' & E & W & X & HV).
    eexists _, _. split; [exact E|]. split; [done|]. split; [done|].
    rewrite HV, T4. simpl. rewrite <- Hids. done.
  - destruct (IH (mkRedistribution (redistributed acc) (failed acc + 1)
                   (details acc ++
                    [String.append "❌ "
                       (String.append (Token.patientName (store.tokenAt st tok))
                                      ": No available slot found")])) st Hwf Hext)
      as (res & st' & E & W & X & HV).
    eexists _, _. split; [exact E|]. split; [done|]. split; [done|].
    rewrite HV. simpl. rewrite <- Hids. done.
Qed.

Lemma getSlotsByDoctor_valid d st r :
  wf st -> r ∈ store.getSlotsByDoctor d st -> (r < length (slotHeap st))%nat.
Proof.
  intros [(_ & _ & Hv) _] Hr. unfold store.getSlotsByDoctor in Hr.
  apply list_elem_of_filter in Hr as [_ Hr]. by apply Hv.
Qed.

Lemma redistributePatientsFromSlot_spec k st :
  wf st ->
  match V.redistributePatientsFromSlot k (tables st) with
  | Some (moved, unmoved, T') =>
      exists res st', delayHandler.redistributePatientsFromSlot k st = Some (res, st')
        /\ wf st' /\ tables st' = T'
        /\ redistributed res = moved /\ failed res = unmoved
  | None => delayHandler.redistributePatientsFromSlot k st = None
  end.
Proof.
  intros Hwf.
  unfold V.redistributePatientsFromSlot, delayHandler.redistributePatientsFromSlot.
  rewrite V_getSlot_tables.
  destruct (store.getSlot k st) as [r|] eqn:E; simpl; [|done].
  set (o := store.slotAt st r).
  set (otherRefs := filter _ (store.getSlotsByDoctor (TimeSlot.doctorId o) st)).
  assert (V.otherSlots k o (tables st)
          = (fun s => TimeSlot.id (store.slotAt st s)) <$> otherRefs) as ->.
  { unfold V.otherSlots, otherRefs. rewrite <- getSlotsByDoctor_spec.
    rewrite (filter_fmap_comm (store.slotAt st)), <- list_fmap_compose. done. }
  destruct (forEachToken_spec k r otherRefs st
              (TimeSlot.allocatedTokens o ++ TimeSlot.waitlist o))%list
    with (acc := mkRedistribution 0 0 []) (st := st)
    as (res & st1 & -> & W1 & X1 & HV); [|done|apply extends_refl|].
  { intros r' Hr'. unfold otherRefs in Hr'. apply list_elem_of_filter in Hr' as [_ Hr'].
    by eapply getSlotsByDoctor_valid. }
  simpl in HV. rewrite <- HV.
  destruct (updateSlot_spec k (TimeSlot.set_status CLOSED) st1 W1) as (W2 & G2 & T2).
  eexists _, _. split; [done|]. done.
Qed.

Lemma closeAll_spec st0 refs :
  (forall r, r ∈ refs -> (r < length (slotHeap st0))%nat) ->
  forall total st,
    wf st -> extends st0 st ->
    let st' := (delayHandler.closeAll refs total st).2 in
    wf st' /\ extends st0 st'
    /\ tables st'
       = V.closeAll ((fun s => TimeSlot.id (store.slotAt st0 s)) <$> refs) (tables st).
Proof.
  intros Hvalid. induction refs as [|r refs IH]; intros total st Hwf Hext; simpl.
  { done. }
  destruct (updateSlot_spec (TimeSlot.id (store.slotAt st r))
              (TimeSlot.set_status CLOSED) st Hwf) as (W1 & G1 & T1).
  destruct (IH (fun r' Hr' => Hvalid r' (list_elem_of_further _ _ _ Hr'))
              (total + (Z.of_nat (length (TimeSlot.allocatedTokens (store.slotAt st r)))
                        + Z.of_nat (length (TimeSlot.waitlist (store.slotAt st r)))))
              _ W1 (extends_trans _ _ _ Hext (grows_extends _ _ G1)))
    as (W & X & T).
  split; [done|]. split; [done|]. rewrite T, T1.
  destruct Hext as (_ & _ & _ & Hi). rewrite Hi by (apply Hvalid; left). done.
Qed.

Lemma handleDoctorUnavailable_spec d reason st res st' :
  wf st ->
  delayHandler.handleDoctorUnavailable d reason st = Some (res, st') ->
  wf st' /\ tables st' = V.handleDoctorUnavailable d (tables st).
Proof.
  intros Hwf. unfold delayHandler.handleDoctorUnavailable, V.handleDoctorUnavailable.
  destruct (store.getDoctor d st); [|done].
  destruct (closeAll_spec st (store.getSlotsByDoctor d st)) with (total := 0) (st := st)
    as (W & X & T); [|done|apply extends_refl|].
  { intros r Hr. by eapply getSlotsByDoctor_valid. }
  destruct (delayHandler.closeAll (store.getSlotsByDoctor d st) 0 st) as [total st1].
  intros [= <- <-]. split; [done|]. simpl in T. rewrite T.
  by rewrite <- getSlotsByDoctor_spec, <- list_fmap_compose.
Qed.

(** ** Every call of the engine, on the tables *)

Lemma step_spec op st st' :
  wf st -> step op st = Some st' ->
  wf st' /\ V.step op (tables st) = Some (tables st').
Proof.
  intros Hwf. destruct op as [uuid now n c d p|now x|now x|x|k|d reason]; simpl.
  - rewrite V_getToken_tables.
    destruct (decide (store.getToken uuid st = None)) as [E|]; [|done].
    rewrite E. simpl.
    destruct (allocateToken_spec uuid now n c d p st Hwf) as (res & st1 & -> & W & HV).
    simpl. intros [= <-]. split; [done|]. by rewrite <- HV.
  - pose proof (cancelToken_spec now x st Hwf) as H.
    destruct (V.cancelToken now x (tables st)) as [T'|].
    + destruct H as (res & st1 & -> & W & <-). simpl. by intros [= <-].
    + by rewrite H.
  - pose proof (markNoShow_spec now x st Hwf) as H.
    destruct (V.markNoShow now x (tables st)) as [T'|].
    + destruct H as (res & st1 & -> & W & <-). simpl. by intros [= <-].
    + by rewrite H.
  - pose proof (completeToken_spec x st Hwf) as H.
    destruct (V.completeToken x (tables st)) as [T'|].
    + destruct H as (st1 & -> & W & <-). by intros [= <-].
    + by rewrite H.
  - pose proof (redistributePatientsFromSlot_spec k st Hwf) as H.
    destruct (V.redistributePatientsFromSlot k (tables st)) as [[[m u] T']|].
    + destruct H as (res & st1 & -> & W & <- & _). simpl. by intros [= <-].
    + by rewrite H.
  - destruct (delayHandler.handleDoctorUnavailable d reason st) as [[res st1]|] eqn:E;
      [|done].
    simpl. intros [= <-].
    destruct (handleDoctorUnavailable_spec _ _ _ _ _ Hwf E) as [W T].
    split; [done|]. by rewrite T.
Qed.

(** ** Start-up *)

Lemma addDoctor_spec doctor st :
  wf st -> wf (store.addDoctor doctor st) /\ tables (store.addDoctor doctor st) = tables st.
Proof. done. Qed.

Lemma createSlot_spec d cap ts st :
  wf st ->
  let slotId := String.append "slot-" (String.append d (String.append "-"
                  (seedData.replaceColon ts.1))) in
  let st' := (seedData.createSlot d cap ts st).2 in
  (seedData.createSlot d cap ts st).1 = slotId
  /\ wf st'
  /\ slotTable (tables st')
     = map_set slotId (TimeSlot.mk slotId d ts.1 ts.2 cap 0 AVAILABLE [] [])
               (slotTable (tables st))
  /\ tokenTable (tables st') = tokenTable (tables st)
  /\ doctors st' = doctors st.
Proof.
  intros [Hs Ht]. simpl. unfold seedData.createSlot. simpl.
  set (slotId := String.append "slot-" _).
  set (o := TimeSlot.mk slotId d ts.1 ts.2 cap 0 AVAILABLE [] []).
  unfold store.addSlot. simpl.
  assert (store.slotAt (mkStore (doctors st) (slots st) (tokens st) (slotHeap st ++ [o])
            (tokenHeap st)) (length (slotHeap st)) = o) as Hnew.
  { rewrite slotAt_deref. simpl. apply deref_app_new. }
  rewrite Hnew. simpl. split; [done|]. split; [|split; [|done]].
  - split; simpl; [by apply wf_refs_alloc_set|done].
  - change (store.slotAt ?s) with (deref TimeSlot.blank (slotHeap s)). simpl.
    by rewrite table_alloc_set.
Qed.

(** ** Sorting *)

Section sorting_facts.
Context {A : Type} (cmp : A -> A -> Z).
Hypothesis cmp_total : forall a b, ~ cmp a b <= 0 -> cmp b a <= 0.
Hypothesis cmp_trans : forall a b c, cmp a b <= 0 -> cmp b c <= 0 -> cmp a c <= 0.

Lemma js_insert_perm x l : js_insert cmp x l ≡ₚ x :: l.
Proof.
  induction l as [|y l IH]; simpl; [done|].
  destruct (decide (cmp x y <= 0)); [done|].
  rewrite IH. apply Permutation_swap.
Qed.

Lemma js_sort_perm l : js_sort cmp l ≡ₚ l.
Proof.
  unfold js_sort. induction l as [|x l IH]; simpl; [done|].
  by rewrite js_insert_perm, IH.
Qed.

Lemma js_insert_sorted x l :
  StronglySorted (fun a b => cmp a b <= 0) l -> StronglySorted (fun a b => cmp a b <= 0) (js_insert cmp x l).
Proof.
  induction l as [|y l IH]; simpl; intros Hs.
  - by repeat constructor.
  - apply StronglySorted_inv in Hs as [Hs Hy].
    destruct (decide (cmp x y <= 0)) as [Hle|Hnle].
    + constructor; [by constructor|]. constructor; [done|].
      eapply Forall_impl; [exact Hy|]. intros z Hz. by eapply cmp_trans.
    + constructor; [by apply IH|].
      rewrite js_insert_perm. constructor; [by apply cmp_total|done].
Qed.

Lemma js_sort_sorted l : StronglySorted (fun a b => cmp a b <= 0) (js_sort cmp l).
Proof.
  unfold js_sort. induction l as [|x l IH]; simpl; [constructor|].
  by apply js_insert_sorted.
Qed.

End sorting_facts.

Lemma cmpTokens_total a b : ~ V.cmpTokens a b <= 0 -> V.cmpTokens b a <= 0.
Proof.
  unfold V.cmpTokens, priorityRules.compareTokenPriority.
  repeat case_decide; lia.
Qed.

Lemma cmpTokens_trans a b c :
  V.cmpTokens a b <= 0 -> V.cmpTokens b c <= 0 -> V.cmpTokens a c <= 0.
Proof.
  unfold V.cmpTokens, priorityRules.compareTokenPriority.
  repeat case_decide; lia.
Qed.

(** The comparator, spelled out: score descending, then creation time
    ascending. *)
Lemma cmpTokens_le a b :
  V.cmpTokens a b <= 0
  <-> Token.priority a > Token.priority b
      \/ (Token.priority a = Token.priority b /\ Token.createdAt a <= Token.createdAt b).
Proof.
  unfold V.cmpTokens, priorityRules.compareTokenPriority.
  case_decide; lia.
Qed.

Lemma StronglySorted_sublist {A : Type} (R : A -> A -> Prop) l1 l2 :
  l1 `sublist_of` l2 -> StronglySorted R l2 -> StronglySorted R l1.
Proof.
  induction 1 as [|x l1 l2 Hsub IH|x l1 l2 Hsub IH]; intros Hs.
  - constructor.
  - apply StronglySorted_inv in Hs as [Hs Hx]. constructor; [by apply IH|].
    apply Forall_forall. intros y Hy. rewrite Forall_forall in Hx.
    apply Hx. by eapply elem_of_sublist.
  - apply StronglySorted_inv in Hs as [Hs _]. by apply IH.
Qed.

Lemma StronglySorted_impl_in {A : Type} (R R' : A -> A -> Prop) l :
  (forall a b, a ∈ l -> b ∈ l -> R a b -> R' a b) ->
  StronglySorted R l -> StronglySorted R' l.
Proof.
  induction l as [|x l IH]; intros Himp Hs; [constructor|].
  apply StronglySorted_inv in Hs as [Hs Hx]. constructor.
  - apply IH; [|done]. intros a b Ha Hb. apply Himp; by right.
  - apply Forall_forall. intros y Hy. rewrite Forall_forall in Hx.
    apply Himp; [left|by right|by apply Hx].
Qed.

Lemma StronglySorted_fmap_in {A B : Type} (R : A -> A -> Prop) (R' : B -> B -> Prop)
    (f : A -> B) l :
  (forall a b, a ∈ l -> b ∈ l -> R a b -> R' (f a) (f b)) ->
  StronglySorted R l -> StronglySorted R' (f <$> l).
Proof.
  induction l as [|x l IH]; intros Himp Hs; csimpl; [constructor|].
  apply StronglySorted_inv in Hs as [Hs Hx]. constructor.
  - apply IH; [|done]. intros a b Ha Hb. apply Himp; by right.
  - apply Forall_fmap, Forall_forall. intros y Hy. rewrite Forall_forall in Hx.
    simpl. apply Himp; [left|by right|by apply Hx].
Qed.

(** ** Sorting a waitlist *)

Lemma omap_known T (l : list string) :
  (forall x t, V.getToken x T = Some t -> Token.id t = x) ->
  (forall x, x ∈ l -> is_Some (V.getToken x T)) ->
  Token.id <$> omap (fun id => V.getToken id T) l = l.
Proof.
  intros Hid. induction l as [|x l IH]; intros Hk; csimpl; [done|].
  destruct (Hk x) as [t Ht]; [left|]. rewrite Ht. csimpl.
  rewrite (Hid _ _ Ht), IH; [done|]. intros. apply Hk. by right.
Qed.

Lemma sortIds_perm T (l : list string) :
  (forall x t, V.getToken x T = Some t -> Token.id t = x) ->
  (forall x, x ∈ l -> is_Some (V.getToken x T)) ->
  V.sortIds T l ≡ₚ l.
Proof.
  intros Hid Hk. unfold V.sortIds.
  rewrite js_sort_perm. by rewrite omap_known.
Qed.

Lemma sortIds_sorted T (l : list string) :
  (forall x t, V.getToken x T = Some t -> Token.id t = x) ->
  StronglySorted (before T) (V.sortIds T l).
Proof.
  intros Hid. unfold V.sortIds.
  eapply StronglySorted_fmap_in;
    [|apply js_sort_sorted; [apply cmpTokens_total|apply cmpTokens_trans]].
  intros a b Ha Hb Hab tx ty Hx Hy.
  rewrite js_sort_perm in Ha, Hb.
  apply list_elem_of_omap in Ha as (xa & _ & Hxa).
  apply list_elem_of_omap in Hb as (xb & _ & Hxb).
  rewrite (Hid _ _ Hxa) in Hx. rewrite (Hid _ _ Hxb) in Hy.
  assert (tx = a) as -> by congruence. assert (ty = b) as -> by congruence. done.
Qed.

(** ** Lookups after a change of the tables *)

Lemma getToken_putToken k k' o T :
  V.getToken k' (V.putToken k o T) = if decide (k = k') then Some o else V.getToken k' T.
Proof. unfold V.getToken, V.putToken. simpl. apply map_get_set. Qed.

Lemma getSlot_putToken k k' o T : V.getSlot k' (V.putToken k o T) = V.getSlot k' T.
Proof. done. Qed.

Lemma getSlot_alterSlot_Some k k' g T o' :
  V.getSlot k' (V.alterSlot k g T) = Some o' ->
  exists o, V.getSlot k' T = Some o /\ o' = if decide (k = k') then g o else o.
Proof.
  rewrite getSlot_alterSlot. destruct (decide (k = k')) as [->|]; [|eauto].
  destruct (V.getSlot k' T); [|done]. intros [= <-]. eauto.
Qed.

Lemma getToken_alterToken_Some x x' f T t' :
  V.getToken x' (V.alterToken x f T) = Some t' ->
  exists t, V.getToken x' T = Some t /\ t' = if decide (x = x') then f t else t.
Proof.
  rewrite getToken_alterToken. destruct (decide (x = x')) as [->|]; [|eauto].
  destruct (V.getToken x' T); [|done]. intros [= <-]. eauto.
Qed.

Lemma alterSlot_alterSlot k g1 g2 T :
  V.alterSlot k g2 (V.alterSlot k g1 T) = V.alterSlot k (fun o => g2 (g1 o)) T.
Proof. unfold V.alterSlot. simpl. by rewrite map_alter_alter. Qed.

Lemma cmpTokens_keeping f a b :
  keeping f -> V.cmpTokens (f a) b = V.cmpTokens a b /\ V.cmpTokens a (f b) = V.cmpTokens a b.
Proof.
  intros Hf. unfold V.cmpTokens.
  destruct (Hf a) as (_ & -> & ->). destruct (Hf b) as (_ & -> & ->). done.
Qed.

Lemma before_alterToken x f T a b :
  keeping f -> before (V.alterToken x f T) a b <-> before T a b.
Proof.
  intros Hf. unfold before. split; intros H ta tb Ha Hb.
  - assert (V.getToken a (V.alterToken x f T)
            = Some (if decide (x = a) then f ta else ta)) as Ha'.
    { rewrite getToken_alterToken. repeat case_decide; subst; rewrite ?Ha; done. }
    assert (V.getToken b (V.alterToken x f T)
            = Some (if decide (x = b) then f tb else tb)) as Hb'.
    { rewrite getToken_alterToken. repeat case_decide; subst; rewrite ?Hb; done. }
    specialize (H _ _ Ha' Hb').
    destruct (cmpTokens_keeping f ta tb Hf) as [E1 E2].
    destruct (cmpTokens_keeping f ta (f tb) Hf) as [E3 _].
    repeat case_decide; congruence.
  - apply getToken_alterToken_Some in Ha as (ta' & Ha & ->).
    apply getToken_alterToken_Some in Hb as (tb' & Hb & ->).
    specialize (H _ _ Ha Hb).
    destruct (cmpTokens_keeping f ta' tb' Hf) as [E1 E2].
    destruct (cmpTokens_keeping f ta' (f tb') Hf) as [E3 _].
    repeat case_decide; congruence.
Qed.

Lemma before_putToken x o T a b :
  a <> x -> b <> x -> before (V.putToken x o T) a b <-> before T a b.
Proof.
  intros Ha Hb. unfold before.
  setoid_rewrite getToken_putToken. by rewrite !decide_False by done.
Qed.

(** ** Preservation of [Shape] *)

Lemma elem_of_members o x :
  x ∈ members o <-> x ∈ TimeSlot.allocatedTokens o \/ x ∈ TimeSlot.waitlist o.
Proof. apply elem_of_app. Qed.

Lemma members_seated o x : x ∈ TimeSlot.allocatedTokens o -> x ∈ members o.
Proof. intros. apply elem_of_members. by left. Qed.

Lemma members_waiting o x : x ∈ TimeSlot.waitlist o -> x ∈ members o.
Proof. intros. apply elem_of_members. by right. Qed.

Lemma shape_alterToken x f T : Shape T -> keeping f -> Shape (V.alterToken x f T).
Proof.
  intros [Hid Hkeys Htid Hload Hknown Hnd Hdis Hsort] Hf. split; try done.
  - intros x' t' (t & Ht & ->)%getToken_alterToken_Some.
    case_decide; [|eauto]. destruct (Hf t) as (-> & _). eauto.
  - intros k o y Hk Hy. apply token_present_alterToken. eauto.
  - intros k o Hk. eapply StronglySorted_impl_in; [|by eapply Hsort].
    intros a b _ _. by apply before_alterToken.
Qed.

Lemma shape_putToken x o T :
  Shape T -> V.getToken x T = None -> Token.id o = x -> Shape (V.putToken x o T).
Proof.
  intros [Hid Hkeys Htid Hload Hknown Hnd Hdis Hsort] Hfresh Hx. split; try done.
  - intros x' t'. rewrite getToken_putToken. case_decide; [|eauto].
    intros [= <-]. congruence.
  - intros k o' y Hk Hy. rewrite getToken_putToken. case_decide; [eauto|].
    by eapply Hknown.
  - intros k o' Hk. eapply StronglySorted_impl_in; [|by eapply Hsort].
    intros a b Ha Hb. apply before_putToken.
    + intros ->. destruct (Hknown k o' x Hk) as [? ?]; [|congruence].
      by apply members_waiting.
    + intros ->. destruct (Hknown k o' x Hk) as [? ?]; [|congruence].
      by apply members_waiting.
Qed.

Lemma shape_alterSlot k g T :
  Shape T ->
  (forall o, V.getSlot k T = Some o ->
     TimeSlot.id (g o) = TimeSlot.id o
     /\ TimeSlot.currentLoad (g o) = Z.of_nat (length (TimeSlot.allocatedTokens (g o)))
     /\ NoDup (members (g o))
     /\ (forall x, x ∈ members (g o) ->
           is_Some (V.getToken x T) /\ (x ∈ members o \/ free x T))
     /\ StronglySorted (before T) (TimeSlot.waitlist (g o))) ->
  Shape (V.alterSlot k g T).
Proof.
  intros [Hid Hkeys Htid Hload Hknown Hnd Hdis Hsort] Hg. split; try done.
  - intros k' o' (o & Ho & ->)%getSlot_alterSlot_Some.
    case_decide as E; [subst k'|by eauto].
    destruct (Hg o Ho) as (-> & _). eauto.
  - simpl. by rewrite map_alter_fst.
  - intros k' o' (o & Ho & ->)%getSlot_alterSlot_Some.
    case_decide as E; [subst k'|by eauto]. by destruct (Hg o Ho) as (_ & ? & _).
  - intros k' o' x (o & Ho & ->)%getSlot_alterSlot_Some.
    case_decide as E; [subst k'|by eauto].
    destruct (Hg o Ho) as (_ & _ & _ & Hm & _). intros Hx. by destruct (Hm x Hx).
  - intros k' o' (o & Ho & ->)%getSlot_alterSlot_Some.
    case_decide as E; [subst k'|by eauto]. by destruct (Hg o Ho) as (_ & _ & ? & _).
  - intros k1 k2 o1' o2' x Hne (o1 & Ho1 & ->)%getSlot_alterSlot_Some
      (o2 & Ho2 & ->)%getSlot_alterSlot_Some Hx.
    destruct (decide (k = k1)) as [->|N1].
    + rewrite decide_False by done.
      destruct (Hg o1 Ho1) as (_ & _ & _ & Hm & _).
      destruct (Hm x Hx) as [_ [Hin|Hfree]];
        [exact (Hdis k1 k2 o1 o2 x Hne Ho1 Ho2 Hin)|exact (Hfree k2 o2 Ho2)].
    + destruct (decide (k = k2)) as [->|N2];
        [|exact (Hdis k1 k2 o1 o2 x Hne Ho1 Ho2 Hx)].
      destruct (Hg o2 Ho2) as (_ & _ & _ & Hm & _). intros Hx2.
      destruct (Hm x Hx2) as [_ [Hin|Hfree]].
      * exact (Hdis k1 k2 o1 o2 x Hne Ho1 Ho2 Hx Hin).
      * exact (Hfree k1 o1 Ho1 Hx).
  - intros k' o' (o & Ho & ->)%getSlot_alterSlot_Some.
    case_decide as E; [subst k'|by eauto]. by destruct (Hg o Ho) as (_ & _ & _ & _ & ?).
Qed.

Lemma members_sublist g o :
  shrinking g -> members (g o) `sublist_of` members o.
Proof. intros Hg. destruct (Hg o) as (_ & ? & ? & _). by apply sublist_app. Qed.

Lemma shape_shrink k g T : Shape T -> shrinking g -> Shape (V.alterSlot k g T).
Proof.
  intros HS Hg. apply shape_alterSlot; [done|]. intros o Ho.
  destruct (Hg o) as (Hi & Ha & Hw & Hl).
  split; [done|]. split; [eapply Hl, shape_load; eauto|]. split; [|split].
  - eapply sublist_NoDup; [by eapply shape_nodup|by apply members_sublist].
  - intros x Hx. assert (x ∈ members o) by (eapply elem_of_sublist; [done|by apply members_sublist]).
    split; [by eapply shape_known|by left].
  - eapply StronglySorted_sublist; [done|]. by eapply shape_sorted.
Qed.

Lemma shrinking_unseat x : shrinking (V.unseat x).
Proof. intros o. simpl. repeat split; [apply sublist_filter|done]. Qed.

Lemma shrinking_dequeue x : shrinking (V.dequeue x).
Proof. intros o. simpl. repeat split; [done|apply sublist_filter|done]. Qed.

Lemma shrinking_status s : shrinking (TimeSlot.set_status s).
Proof. intros o. simpl. repeat split; done. Qed.

Lemma shrinking_compose g1 g2 : shrinking g1 -> shrinking g2 -> shrinking (fun o => g2 (g1 o)).
Proof.
  intros H1 H2 o. destruct (H1 o) as (I1 & A1 & W1 & L1).
  destruct (H2 (g1 o)) as (I2 & A2 & W2 & L2).
  split; [congruence|]. split; [by etrans|]. split; [by etrans|]. auto.
Qed.

Lemma shape_seat k x T :
  Shape T -> free x T -> is_Some (V.getToken x T) -> Shape (V.alterSlot k (V.seat x) T).
Proof.
  intros HS Hfree Hx. apply shape_alterSlot; [done|]. intros o Ho. simpl.
  split; [done|]. split; [done|]. split; [|split].
  - unfold members. simpl.
    assert ((TimeSlot.allocatedTokens o ++ [x]) ++ TimeSlot.waitlist o
            ≡ₚ x :: members o) as ->.
    { unfold members. rewrite (Permutation_app_comm (TimeSlot.allocatedTokens o) [x]).
      by rewrite <- app_assoc. }
    apply NoDup_cons. split; [by eapply Hfree|by eapply shape_nodup].
  - intros y Hy. unfold members in Hy. simpl in Hy.
    rewrite !elem_of_app, list_elem_of_singleton in Hy.
    destruct Hy as [[?| ->]|?].
    + split; [eapply (shape_known T HS k o)|left]; try done; by apply members_seated.
    + split; [done|by right].
    + split; [eapply (shape_known T HS k o)|left]; try done; by apply members_waiting.
  - by eapply shape_sorted.
Qed.

Lemma shape_enqueue k x T :
  Shape T -> free x T -> is_Some (V.getToken x T) -> Shape (V.addToWaitlist k x T).
Proof.
  intros HS Hfree Hx. apply shape_alterSlot; [done|]. intros o Ho. simpl.
  assert (V.sortIds T (TimeSlot.waitlist o ++ [x]) ≡ₚ TimeSlot.waitlist o ++ [x]) as Hp.
  { apply sortIds_perm; [by eapply shape_token_id|].
    intros y [Hy| ->%list_elem_of_singleton]%elem_of_app; [|done].
    eapply (shape_known T HS k o); [done|]. by apply members_waiting. }
  split; [done|]. split; [by eapply shape_load|]. split; [|split].
  - unfold members. simpl. rewrite Hp, app_assoc.
    apply NoDup_app. split; [by eapply shape_nodup|]. split; [|apply NoDup_singleton].
    intros y Hy ->%list_elem_of_singleton. by eapply Hfree.
  - intros y Hy. unfold members in Hy. simpl in Hy.
    rewrite Hp, !elem_of_app, list_elem_of_singleton in Hy.
    destruct Hy as [?|[?| ->]].
    + split; [eapply (shape_known T HS k o)|left]; try done; by apply members_seated.
    + split; [eapply (shape_known T HS k o)|left]; try done; by apply members_waiting.
    + split; [done|by right].
  - apply sortIds_sorted. by eapply shape_token_id.
Qed.

(** ** Tokens that no slot lists *)

Lemma free_alterToken x y f T : free x (V.alterToken y f T) <-> free x T.
Proof. done. Qed.

Lemma free_putToken x y o T : free x (V.putToken y o T) <-> free x T.
Proof. done. Qed.

Lemma free_fresh x T : Shape T -> V.getToken x T = None -> free x T.
Proof.
  intros HS Hx k o Ho Hin. destruct (shape_known T HS k o x Ho Hin). congruence.
Qed.

Lemma free_shrink x k g T : free x T -> shrinking g -> free x (V.alterSlot k g T).
Proof.
  intros Hf Hg k' o' (o & Ho & ->)%getSlot_alterSlot_Some.
  case_decide; [|by eapply Hf]. intros Hin. eapply Hf; [done|].
  eapply elem_of_sublist; [done|by apply members_sublist].
Qed.

(** Once [x] is taken off the lists of the slot that listed it, no slot
    lists it. *)
Lemma free_removed x k g o T :
  Shape T -> V.getSlot k T = Some o -> x ∈ members o ->
  shrinking g -> x ∉ members (g o) -> free x (V.alterSlot k g T).
Proof.
  intros HS Ho Hin Hg Hout k' o' (o0 & Ho0 & ->)%getSlot_alterSlot_Some.
  destruct (decide (k = k')) as [<-|Hne].
  - assert (o0 = o) as -> by congruence. done.
  - exact (shape_disjoint T HS k k' o o0 x Hne Ho Ho0 Hin).
Qed.

Lemma free_seat x y k T : free x T -> x <> y -> free x (V.alterSlot k (V.seat y) T).
Proof.
  intros Hf Hne k' o' (o & Ho & ->)%getSlot_alterSlot_Some.
  case_decide; [|by eapply Hf]. unfold members. simpl.
  rewrite !elem_of_app, list_elem_of_singleton. intros [[?|?]|?]; [|done|].
  - eapply Hf; [done|]. by apply members_seated.
  - eapply Hf; [done|]. by apply members_waiting.
Qed.

Lemma sortIds_elem T (l : list string) z :
  (forall x t, V.getToken x T = Some t -> Token.id t = x) ->
  z ∈ V.sortIds T l -> z ∈ l.
Proof.
  intros Hid. unfold V.sortIds. rewrite js_sort_perm.
  intros (t & -> & Ht)%list_elem_of_fmap.
  apply list_elem_of_omap in Ht as (x & Hx & Hxt). by rewrite (Hid _ _ Hxt).
Qed.

Lemma free_enqueue x y k T T' :
  (forall z t, V.getToken z T' = Some t -> Token.id t = z) ->
  free x T -> x <> y -> free x (V.alterSlot k (V.enqueue T' y) T).
Proof.
  intros Hid Hf Hne k' o' (o & Ho & ->)%getSlot_alterSlot_Some.
  case_decide; [|by eapply Hf]. unfold members. simpl.
  rewrite elem_of_app. intros [?|Hin].
  - eapply Hf; [done|]. by apply members_seated.
  - apply sortIds_elem in Hin; [|done].
    apply elem_of_app in Hin as [?|?%list_elem_of_singleton]; [|done].
    eapply Hf; [done|]. by apply members_waiting.
Qed.

(** ** Preservation of [Seated] *)

Lemma seated_alterSlot k g T :
  Seated T ->
  (forall o, TimeSlot.allocatedTokens o ⊆ TimeSlot.allocatedTokens (g o)) ->
  Seated (V.alterSlot k g T).
Proof.
  intros HS Hg x t Ht Hst. destruct (HS x t Ht Hst) as (k' & o & Hk & Ho & Hin).
  exists k'. rewrite getSlot_alterSlot.
  destruct (decide (k = k')) as [->|].
  - rewrite Ho. eexists. split; [done|]. split; [done|]. by apply Hg.
  - eauto.
Qed.

Lemma seated_seat k x T : Seated T -> Seated (V.alterSlot k (V.seat x) T).
Proof.
  intros. apply seated_alterSlot; [done|]. intros o y Hy. simpl.
  apply elem_of_app. by left.
Qed.

Lemma seated_enqueue k x T T' : Seated T -> Seated (V.alterSlot k (V.enqueue T' x) T).
Proof. intros. by apply seated_alterSlot. Qed.

Lemma seated_dequeue k x T : Seated T -> Seated (V.alterSlot k (V.dequeue x) T).
Proof. intros. by apply seated_alterSlot. Qed.

Lemma seated_status k s T : Seated T -> Seated (V.alterSlot k (TimeSlot.set_status s) T).
Proof. intros. by apply seated_alterSlot. Qed.

(** Taking [x] off a seat, when the token [x] is not, or no longer, in
    status ALLOCATED. *)
Lemma seated_unseat k x T :
  Seated T ->
  (forall t, V.getToken x T = Some t -> Token.status t <> ALLOCATED) ->
  Seated (V.alterSlot k (V.unseat x) T).
Proof.
  intros HS Hx y t Ht Hst. destruct (HS y t Ht Hst) as (k' & o & Hk & Ho & Hin).
  exists k'. rewrite getSlot_alterSlot.
  destruct (decide (k = k')) as [->|]; [|eauto].
  rewrite Ho. eexists. split; [done|]. split; [done|]. simpl.
  apply list_elem_of_filter. split; [|done]. intros ->. by eapply Hx.
Qed.

Lemma seated_alterToken_other x f T :
  Seated T -> (forall t, Token.status (f t) <> ALLOCATED) -> Seated (V.alterToken x f T).
Proof.
  intros HS Hf y t' (t & Ht & ->)%getToken_alterToken_Some Hst.
  case_decide; [by destruct (Hf t)|]. eauto.
Qed.

Lemma seated_alterToken_same x f T :
  Seated T ->
  (forall t, Token.status (f t) = Token.status t /\ Token.slotId (f t) = Token.slotId t) ->
  Seated (V.alterToken x f T).
Proof.
  intros HS Hf y t' (t & Ht & ->)%getToken_alterToken_Some Hst.
  case_decide; [|eauto]. destruct (Hf t) as [E1 E2]. rewrite E1 in Hst. rewrite E2. eauto.
Qed.

Lemma seated_alterToken_in x k o f T :
  Seated T -> V.getSlot k T = Some o -> x ∈ TimeSlot.allocatedTokens o ->
  (forall t, Token.slotId (f t) = Some k) ->
  Seated (V.alterToken x f T).
Proof.
  intros HS Ho Hin Hf y t' (t & Ht & ->)%getToken_alterToken_Some Hst.
  case_decide; [subst y|eauto]. exists k, o. eauto.
Qed.

Lemma seated_putToken x o T :
  Seated T -> Token.status o <> ALLOCATED -> Seated (V.putToken x o T).
Proof.
  intros HS Ho y t. rewrite getToken_putToken. case_decide; [|eauto].
  by intros [= <-].
Qed.

Lemma keeping_status s : keeping (Token.set_status s).
Proof. done. Qed.
Lemma keeping_slotId s : keeping (Token.set_slotId s).
Proof. done. Qed.
Lemma keeping_allocatedUpdate k now : keeping (tokenAllocator.allocatedUpdate k now).
Proof. done. Qed.
Lemma keeping_bumped b : keeping (V.bumped b).
Proof. done. Qed.

(** ** Preservation of the invariant by the operations *)

Lemma inv_place now x k T :
  Inv T -> is_Some (V.getSlot k T) -> free x T -> is_Some (V.getToken x T) ->
  Inv (V.place now x k T).
Proof.
  intros [HS HA] [o Ho] Hf Hx. unfold V.place. split.
  - apply shape_alterToken; [|apply keeping_allocatedUpdate]. by apply shape_seat.
  - eapply (seated_alterToken_in x k (V.seat x o)); [by apply seated_seat| | |done].
    + by rewrite getSlot_alterSlot, decide_True, Ho.
    + simpl. apply elem_of_app. right. by apply list_elem_of_singleton.
Qed.

Lemma inv_waitlisted x k T :
  Inv T -> free x T -> is_Some (V.getToken x T) -> Inv (V.waitlisted x k T).
Proof.
  intros [HS HA] Hf Hx. unfold V.waitlisted. split.
  - apply shape_alterToken; [|done]. by apply shape_enqueue.
  - apply seated_alterToken_other; [|done]. by apply seated_enqueue.
Qed.

Lemma inv_promote now k T : Inv T -> Inv (V.promoteFromWaitlist now k T).
Proof.
  intros [HS HA]. unfold V.promoteFromWaitlist.
  destruct (V.getSlot k T) as [o|] eqn:Ho; [|done].
  destruct (TimeSlot.waitlist o) as [|h rest] eqn:Hw; [done|].
  destruct (V.getToken h T) as [th|] eqn:Hh; [|done].
  rewrite (shape_token_id T HS h th Hh).
  assert (h ∈ members o) as Hin.
  { apply members_waiting. rewrite Hw. left. }
  assert (Shape (V.alterSlot k (V.dequeue h) T)) as HS1
    by (apply shape_shrink; [done|apply shrinking_dequeue]).
  assert (free h (V.alterSlot k (V.dequeue h) T)) as Hf.
  { eapply free_removed; [done..|apply shrinking_dequeue|].
    unfold members. simpl. rewrite elem_of_app, list_elem_of_filter.
    intros [Ha|[? _]]; [|done].
    pose proof (shape_nodup T HS k o Ho) as Hnd. unfold members in Hnd.
    apply NoDup_app in Hnd as (_ & Hnd & _). apply (Hnd h Ha). rewrite Hw. left. }
  split.
  - apply shape_alterToken; [|apply keeping_allocatedUpdate].
    apply shape_seat; [done..|]. rewrite getToken_alterSlot. eauto.
  - eapply (seated_alterToken_in h k (V.seat h (V.dequeue h o)));
      [by apply seated_seat, seated_dequeue| | |done].
    + by rewrite !getSlot_alterSlot, !decide_True, Ho.
    + simpl. apply elem_of_app. right. by apply list_elem_of_singleton.
Qed.

(** Freeing the seat of a token whose status has just left ALLOCATED. *)
Lemma inv_release now k x T :
  Inv T ->
  (forall t, V.getToken x T = Some t -> Token.status t <> ALLOCATED) ->
  Inv (V.release now k x T).
Proof.
  intros [HS HA] Hx. unfold V.release. apply inv_promote. split.
  - apply shape_shrink; [done|apply shrinking_unseat].
  - by apply seated_unseat.
Qed.

Lemma inv_alterToken_status x s T :
  Inv T -> s <> ALLOCATED -> Inv (V.alterToken x (Token.set_status s) T).
Proof.
  intros [HS HA] Hs. split.
  - by apply shape_alterToken.
  - by apply seated_alterToken_other.
Qed.

Lemma status_after x s T t :
  V.getToken x (V.alterToken x (Token.set_status s) T) = Some t -> Token.status t = s.
Proof. intros (t0 & _ & ->)%getToken_alterToken_Some. by rewrite decide_True. Qed.

Lemma inv_cancelToken now x T T' : Inv T -> V.cancelToken now x T = Some T' -> Inv T'.
Proof.
  intros HI. unfold V.cancelToken.
  destruct (V.getToken x T) as [t|] eqn:Ht; [|done].
  case_decide; [by intros [= <-]|]. intros [= <-].
  assert (Inv (V.alterToken x (Token.set_status CANCELLED) T)) as H1
    by by apply inv_alterToken_status.
  set (T3 := if truthy (Token.slotId t) && bool_decide (Token.status t = ALLOCATED)
             then _ else _).
  assert (Inv T3) as H3.
  { unfold T3. destruct (_ && _); [|done]. apply inv_release; [done|].
    intros t1 ->%status_after. done. }
  clearbody T3.
  destruct (_ && _); [|done]. destruct H3 as [HS3 HA3]. split.
  - apply shape_shrink; [done|apply shrinking_dequeue].
  - by apply seated_dequeue.
Qed.

Lemma inv_markNoShow now x T T' : Inv T -> V.markNoShow now x T = Some T' -> Inv T'.
Proof.
  intros HI. unfold V.markNoShow.
  destruct (V.getToken x T) as [t|] eqn:Ht; [|done]. intros [= <-].
  assert (Inv (V.alterToken x (Token.set_status NO_SHOW) T)) as H1
    by by apply inv_alterToken_status.
  destruct (truthy (Token.slotId t)); [|done]. apply inv_release; [done|].
  intros t1 ->%status_after. done.
Qed.

Lemma inv_completeToken x T T' : Inv T -> V.completeToken x T = Some T' -> Inv T'.
Proof.
  intros HI. unfold V.completeToken.
  destruct (V.getToken x T) as [t|] eqn:Ht; [|done]. intros [= <-].
  by apply inv_alterToken_status.
Qed.

(** *** Moving one token: bump and redistribution *)

Lemma seatedBut_of x T : Seated T -> SeatedBut x T.
Proof. intros HS y t _. apply HS. Qed.

Lemma seatedBut_unseat x k T : SeatedBut x T -> SeatedBut x (V.alterSlot k (V.unseat x) T).
Proof.
  intros HS y t Hne Ht Hst. destruct (HS y t Hne Ht Hst) as (k' & o & Hk & Ho & Hin).
  exists k'. rewrite getSlot_alterSlot.
  destruct (decide (k = k')) as [->|]; [|eauto].
  rewrite Ho. eexists. split; [done|]. split; [done|]. simpl.
  by apply list_elem_of_filter.
Qed.

Lemma seatedBut_alterSlot x k g T :
  SeatedBut x T ->
  (forall o, TimeSlot.allocatedTokens o ⊆ TimeSlot.allocatedTokens (g o)) ->
  SeatedBut x (V.alterSlot k g T).
Proof.
  intros HS Hg y t Hne Ht Hst. destruct (HS y t Hne Ht Hst) as (k' & o & Hk & Ho & Hin).
  exists k'. rewrite getSlot_alterSlot.
  destruct (decide (k = k')) as [->|]; [|eauto].
  rewrite Ho. eexists. split; [done|]. split; [done|]. by apply Hg.
Qed.

Lemma seatedBut_alterToken x f T : SeatedBut x T -> SeatedBut x (V.alterToken x f T).
Proof.
  intros HS y t Hne. rewrite getToken_alterToken, decide_False by done. by apply HS.
Qed.

Lemma seated_close x T :
  SeatedBut x T ->
  (forall t, V.getToken x T = Some t -> Token.status t = ALLOCATED ->
     exists k o, Token.slotId t = Some k /\ V.getSlot k T = Some o
                 /\ x ∈ TimeSlot.allocatedTokens o) ->
  Seated T.
Proof.
  intros HS Hx y t Ht Hst. destruct (decide (y = x)) as [->|]; [eauto|].
  by apply HS.
Qed.

Lemma not_in_unseat_dequeue x o : x ∉ members (V.dequeue x (V.unseat x o)).
Proof.
  unfold members. simpl. rewrite elem_of_app, !list_elem_of_filter. naive_solver.
Qed.

Lemma inv_evict k b o T :
  Inv T -> V.getSlot k T = Some o -> Token.id b ∈ TimeSlot.allocatedTokens o ->
  is_Some (V.getToken (Token.id b) T) ->
  Inv (V.evict k b T).
Proof.
  intros [HS HA] Ho Hin Hb. unfold V.evict.
  set (T1 := V.alterSlot k (V.unseat (Token.id b)) T).
  set (T2 := V.alterToken (Token.id b) (V.bumped b) T1).
  assert (Shape T1) as HS1 by (apply shape_shrink; [done|apply shrinking_unseat]).
  assert (Shape T2) as HS2 by (apply shape_alterToken; [done|apply keeping_bumped]).
  assert (free (Token.id b) T2) as Hf.
  { apply free_alterToken. eapply free_removed; [done..| |apply shrinking_unseat|].
    - by apply members_seated.
    - unfold members. simpl. rewrite elem_of_app, list_elem_of_filter.
      intros [[? _]|Hw]; [done|].
      pose proof (shape_nodup T HS k o Ho) as Hnd. unfold members in Hnd.
      apply NoDup_app in Hnd as (_ & Hnd & _). by apply (Hnd _ Hin). }
  split.
  - apply shape_enqueue; [done..|].
    apply token_present_alterToken. exact Hb.
  - apply seated_enqueue. apply (seated_close (Token.id b)).
    + apply seatedBut_alterToken, seatedBut_unseat. by apply seatedBut_of.
    + intros t (t0 & _ & ->)%getToken_alterToken_Some. by rewrite decide_True.
Qed.

Lemma bumpable_elem cat o T b :
  Shape T -> b ∈ V.bumpable cat o T ->
  Token.id b ∈ TimeSlot.allocatedTokens o
  /\ V.getToken (Token.id b) T = Some b
  /\ priorityRules.canBump cat (Token.patientType b) = true
  /\ priorityRules.canBeBumped (Token.bumpCount b) = true.
Proof.
  intros HS Hb. unfold V.bumpable in Hb.
  apply list_elem_of_filter in Hb as [Hq Hb].
  apply list_elem_of_omap in Hb as (x & Hx & Hxb).
  rewrite (shape_token_id T HS x b Hxb).
  apply andb_prop_elim in Hq as [H1 H2].
  repeat split; [done..| |]; by apply Is_true_true.
Qed.

Lemma inv_tryBumpLowerPriority now x cat k T T' :
  Inv T -> free x T -> is_Some (V.getToken x T) ->
  V.tryBumpLowerPriority now x cat k T = Some T' -> Inv T'.
Proof.
  intros HI Hf Hx. unfold V.tryBumpLowerPriority.
  destruct (V.getSlot k T) as [o|] eqn:Ho; [|done].
  destruct (last (V.bumpable cat o T)) as [b|] eqn:Hl; [|done]. intros [= <-].
  apply last_Some_elem_of in Hl.
  pose proof HI as [HS HA].
  destruct (bumpable_elem cat o T b HS Hl) as (Hin & Hb & _).
  assert (Inv (V.evict k b T)) as HI1 by (eapply inv_evict; eauto).
  assert (x <> Token.id b) as Hne.
  { intros ->. eapply Hf; [done|]. by apply members_seated. }
  apply inv_place; [done| | |].
  - unfold V.evict, V.addToWaitlist. apply slot_present_alterSlot.
    rewrite getSlot_alterToken. apply slot_present_alterSlot. eauto.
  - unfold V.evict, V.addToWaitlist. apply free_enqueue; [|by apply free_alterToken,
      free_shrink; [|apply shrinking_unseat]|done].
    apply shape_token_id. apply shape_alterToken; [|apply keeping_bumped].
    apply shape_shrink; [done|apply shrinking_unseat].
  - unfold V.evict, V.addToWaitlist. rewrite getToken_alterSlot.
    apply token_present_alterToken. by rewrite getToken_alterSlot.
Qed.

Lemma inv_allocateToSlot now x cat k T :
  Inv T -> free x T -> is_Some (V.getToken x T) ->
  Inv (V.allocateToSlot now x cat k T).2.
Proof.
  intros HI Hf Hx. unfold V.allocateToSlot.
  destruct (V.getSlot k T) as [o|] eqn:Ho; [|done].
  assert (is_Some (V.getSlot k T)) by eauto.
  destruct (V.hasCapacity k T); [by apply inv_place|].
  case_decide; [by apply inv_place|].
  case_decide; [|by apply inv_waitlisted].
  destruct (V.tryBumpLowerPriority now x cat k T) as [T1|] eqn:E; simpl.
  - by eapply inv_tryBumpLowerPriority.
  - by apply inv_waitlisted.
Qed.

Lemma inv_allocateToken uuid now n cat d p T :
  Inv T -> V.getToken uuid T = None ->
  Inv (V.allocateToken uuid now n cat d p T).2.
Proof.
  intros [HS HA] Hfresh. unfold V.allocateToken.
  set (o := Token.mk uuid n cat (priorityRules.getPriorityScore cat) d None PENDING now None 0).
  assert (Inv (V.putToken uuid o T)) as HI1.
  { split; [by apply shape_putToken|by apply seated_putToken]. }
  assert (free uuid (V.putToken uuid o T)) as Hf
    by by apply free_putToken, free_fresh.
  assert (is_Some (V.getToken uuid (V.putToken uuid o T))) as Hx
    by (rewrite getToken_putToken, decide_True; eauto).
  destruct (if truthy p then _ else _) as [s|].
  - by apply inv_allocateToSlot.
  - simpl. by apply inv_alterToken_status.
Qed.

Lemma inv_move k target x o T :
  Inv T -> is_Some (V.getSlot target T) -> is_Some (V.getToken x T) ->
  V.getSlot k T = Some o -> x ∈ members o ->
  Inv (V.move k target x T).
Proof.
  intros [HS HA] [ot Hot] Hx Ho Hin. unfold V.move.
  rewrite alterSlot_alterSlot.
  set (g := fun o0 => V.dequeue x (V.unseat x o0)).
  assert (shrinking g) as Hg
    by exact (shrinking_compose _ _ (shrinking_unseat x) (shrinking_dequeue x)).
  assert (Shape (V.alterSlot k g T)) as HS1 by by apply shape_shrink.
  assert (free x (V.alterSlot k g T)) as Hf.
  { eapply free_removed; [done..|]. apply not_in_unseat_dequeue. }
  split.
  - apply shape_alterToken; [|apply keeping_slotId]. by apply shape_seat.
  - apply (seated_close x).
    + apply seatedBut_alterToken, seatedBut_alterSlot.
      * unfold g. rewrite <- alterSlot_alterSlot.
        apply seatedBut_alterSlot; [|done]. by apply seatedBut_unseat, seatedBut_of.
      * intros o0 y Hy. simpl. apply elem_of_app. by left.
    + intros t (t0 & _ & ->)%getToken_alterToken_Some _. rewrite decide_True by done.
      simpl. exists target.
      assert (is_Some (V.getSlot target (V.alterSlot k g T))) as [ot' Hot'].
      { apply slot_present_alterSlot. eauto. }
      exists (V.seat x ot'). split; [done|]. rewrite getSlot_alterToken.
      rewrite getSlot_alterSlot, decide_True, Hot' by done. split; [done|].
      simpl. apply elem_of_app. right. by apply list_elem_of_singleton.
Qed.

Lemma inv_forEachToken k others l :
  (forall id, id ∈ others -> id <> k) ->
  forall acc T,
    Inv T -> NoDup l ->
    (forall x, x ∈ l -> exists o, V.getSlot k T = Some o /\ x ∈ members o) ->
    Inv (V.forEachToken k others l acc T).2.
Proof.
  intros Hothers. induction l as [|x l IH]; intros acc T HI Hnd Hl; simpl; [done|].
  apply NoDup_cons in Hnd as [Hx Hnd].
  assert (forall y, y ∈ l -> exists o, V.getSlot k T = Some o /\ y ∈ members o) as Hl'
    by (intros; apply Hl; by right).
  destruct (V.getToken x T) as [t|] eqn:Ht; [|by apply IH].
  destruct (List.find _ others) as [target|] eqn:Ef; [|by apply IH].
  apply find_elem_of in Ef as [Htarget Hcap]. apply hasCapacity_present in Hcap.
  destruct (Hl x) as (o & Ho & Hin); [left|].
  apply IH; [by eapply inv_move|done|].
  intros y Hy. destruct (Hl' y Hy) as (o' & Ho' & Hin').
  assert (o' = o) as -> by congruence.
  exists (V.dequeue x (V.unseat x o)). split.
  - unfold V.move. rewrite getSlot_alterToken, getSlot_alterSlot.
    rewrite decide_False by (intros ->; by eapply Hothers).
    by rewrite !getSlot_alterSlot, !decide_True, Ho.
  - assert (y <> x) by (intros ->; done).
    apply elem_of_members in Hin' as [?|?]; apply elem_of_members; simpl;
      [left|right]; by apply list_elem_of_filter.
Qed.

Lemma inv_alterSlot_status k s T : Inv T -> Inv (V.alterSlot k (TimeSlot.set_status s) T).
Proof.
  intros [HS HA]. split; [apply shape_shrink; [done|apply shrinking_status]|].
  by apply seated_status.
Qed.

Lemma inv_redistributePatientsFromSlot k T r :
  Inv T -> V.redistributePatientsFromSlot k T = Some r -> Inv r.2.
Proof.
  intros HI. unfold V.redistributePatientsFromSlot.
  destruct (V.getSlot k T) as [o|] eqn:Ho; [|done].
  pose proof (inv_forEachToken k (V.otherSlots k o T)
                (TimeSlot.allocatedTokens o ++ TimeSlot.waitlist o)) as H.
  destruct (V.forEachToken k _ _ (0, 0) T) as [acc T1] eqn:E.
  intros [= <-]. simpl. apply inv_alterSlot_status.
  specialize (H ltac:(clear; intros id (s & -> & [[? _] _]%list_elem_of_filter)%list_elem_of_fmap; done)
                (0, 0) T HI).
  rewrite E in H. apply H.
  - destruct HI as [HS _]. exact (shape_nodup T HS k o Ho).
  - intros x Hx. eauto.
Qed.

Lemma inv_closeAll ids T : Inv T -> Inv (V.closeAll ids T).
Proof.
  unfold V.closeAll. revert T. induction ids as [|id ids IH]; intros T HI; simpl; [done|].
  by apply IH, inv_alterSlot_status.
Qed.

Lemma inv_step op T T' : Inv T -> V.step op T = Some T' -> Inv T'.
Proof.
  intros HI. destruct op as [uuid now n c d p|now x|now x|x|k|d reason]; simpl.
  - case_decide; [|done]. intros [= <-]. by apply inv_allocateToken.
  - by apply inv_cancelToken.
  - by apply inv_markNoShow.
  - by apply inv_completeToken.
  - destruct (V.redistributePatientsFromSlot k T) as [r|] eqn:E; [|done].
    intros [= <-]. by eapply inv_redistributePatientsFromSlot.
  - intros [= <-]. by apply inv_closeAll.
Qed.

(** ** The invariant holds in every reachable store *)

Lemma pristine_clear : Pristine (tables store.clear).
Proof. split; [done|]. split; [constructor|done]. Qed.

Lemma pristine_createSlot d cap ts st :
  wf st -> Pristine (tables st) ->
  wf (seedData.createSlot d cap ts st).2
  /\ Pristine (tables (seedData.createSlot d cap ts st).2).
Proof.
  intros Hwf (Ht & Hk & Hs).
  destruct (createSlot_spec d cap ts st Hwf) as (_ & W & Es & Et & _).
  split; [done|]. split; [congruence|]. split.
  - rewrite Es. by apply map_set_NoDup_fst.
  - intros k o. unfold V.getSlot. rewrite Es, map_get_set.
    case_decide as E; [|apply Hs]. intros [= <-]. simpl. by rewrite <- E.
Qed.

Lemma createSlots_cons d cap ts l st :
  seedData.createSlots d cap (ts :: l) st
  = (let '(slotId, st1) := seedData.createSlot d cap ts st in
     let '(ids, st2) := seedData.createSlots d cap l st1 in
     (slotId :: ids, st2)).
Proof. done. Qed.

Lemma pristine_createSlots d cap l st :
  wf st -> Pristine (tables st) ->
  wf (seedData.createSlots d cap l st).2
  /\ Pristine (tables (seedData.createSlots d cap l st).2).
Proof.
  revert st. induction l as [|ts l IH]; intros st Hwf HP; [done|].
  rewrite createSlots_cons.
  destruct (pristine_createSlot d cap ts st Hwf HP) as [W1 P1].
  destruct (seedData.createSlot d cap ts st) as [slotId st1].
  specialize (IH st1 W1 P1).
  destruct (seedData.createSlots d cap l st1) as [ids st2]. done.
Qed.

Lemma seeded_pristine st : seeded st -> wf st /\ Pristine (tables st).
Proof.
  induction 1 as [|doctor st _ IH|d l cap st st' _ IH E].
  - split; [|apply pristine_clear]. repeat split; simpl; try constructor;
      by intros ? ?%elem_of_nil.
  - done.
  - unfold seedData.createSlotsForDoctor in E.
    destruct (store.getDoctor d st); [|done].
    destruct IH as [W P]. pose proof (pristine_createSlots d cap l st W P) as H.
    destruct (seedData.createSlots d cap l st) as [ids st1]. simpl in *.
    injection E as <-. done.
Qed.

Lemma pristine_inv T : Pristine T -> Inv T.
Proof.
  intros (Ht & Hk & Hs). split; [split|].
  - intros k o Ho. destruct (Hs k o Ho) as (? & ? & _). done.
  - done.
  - intros x t. unfold V.getToken. by rewrite Ht.
  - intros k o Ho. destruct (Hs k o Ho) as (_ & _ & -> & _ & ->). done.
  - intros k o x Ho. destruct (Hs k o Ho) as (_ & _ & Ha & Hw & _).
    unfold members. rewrite Ha, Hw. by intros ?%elem_of_nil.
  - intros k o Ho. destruct (Hs k o Ho) as (_ & _ & Ha & Hw & _).
    unfold members. rewrite Ha, Hw. constructor.
  - intros k1 k2 o1 o2 x _ Ho1 _. destruct (Hs k1 o1 Ho1) as (_ & _ & Ha & Hw & _).
    unfold members at 1. rewrite Ha, Hw. by intros ?%elem_of_nil.
  - intros k o Ho. destruct (Hs k o Ho) as (_ & _ & _ & -> & _). constructor.
  - intros x t. unfold V.getToken. by rewrite Ht.
Qed.

Lemma reachable_inv st : reachable st -> wf st /\ Inv (tables st).
Proof.
  induction 1 as [st Hs|op st st' _ [W I] E].
  - destruct (seeded_pristine st Hs) as [W P]. split; [done|by apply pristine_inv].
  - destruct (step_spec op st st' W E) as [W' E']. split; [done|].
    by eapply inv_step.
Qed.

Lemma reachable_steps ops st st' : reachable st -> steps ops st = Some st' -> reachable st'.
Proof.
  revert st. induction ops as [|op ops IH]; intros st Hr; simpl.
  - by intros [= <-].
  - destruct (step op st) as [st1|] eqn:E; [|done]. apply IH.
    by eapply reachable_step.
Qed.

(** ** Promotion after a cancellation or a no-show *)

Lemma filter_ne_notin (l : list string) x : x ∉ l -> filter (fun id => id <> x) l = l.
Proof.
  induction l as [|y l IH]; [done|]. rewrite not_elem_of_cons. intros [Hne Hl].
  rewrite filter_cons_True by done. by rewrite IH.
Qed.

Lemma filter_ne_length (l : list string) x :
  NoDup l -> x ∈ l -> S (length (filter (fun id => id <> x) l)) = length l.
Proof.
  induction l as [|y l IH]; [by intros _ ?%elem_of_nil|].
  rewrite NoDup_cons. intros [Hy Hnd] [->|Hin]%elem_of_cons.
  - rewrite filter_cons_False by (intros ?; done). by rewrite filter_ne_notin.
  - rewrite filter_cons_True by (intros ->; done). simpl. by rewrite IH.
Qed.

Lemma promote_head now k T o h rest th :
  V.getSlot k T = Some o -> TimeSlot.waitlist o = h :: rest ->
  V.getToken h T = Some th ->
  V.promoteFromWaitlist now k T
  = V.alterToken (Token.id th) (tokenAllocator.allocatedUpdate k now)
      (V.alterSlot k (V.seat (Token.id th)) (V.alterSlot k (V.dequeue (Token.id th)) T)).
Proof. intros Ho Hw Hth. unfold V.promoteFromWaitlist. by rewrite Ho, Hw, Hth. Qed.

Lemma release_head now k x T o h rest :
  Shape T -> V.getSlot k T = Some o -> x ∈ TimeSlot.allocatedTokens o ->
  TimeSlot.waitlist o = h :: rest ->
  exists th o',
    V.getToken h T = Some th
    /\ V.getSlot k (V.release now k x T) = Some o'
    /\ V.getToken h (V.release now k x T) = Some (tokenAllocator.allocatedUpdate k now th)
    /\ TimeSlot.allocatedTokens o'
       = filter (fun id => id <> x) (TimeSlot.allocatedTokens o) ++ [h]
    /\ TimeSlot.waitlist o' = rest
    /\ TimeSlot.currentLoad o' = TimeSlot.currentLoad o
    /\ o' = TimeSlot.set_allocatedTokens (TimeSlot.allocatedTokens o')
              (TimeSlot.set_waitlist rest o).
Proof.
  intros HS Ho Hx Hw.
  assert (h ∈ TimeSlot.waitlist o) as Hh by (rewrite Hw; left).
  destruct (shape_known T HS k o h Ho (members_waiting _ _ Hh)) as [th Hth].
  pose proof (shape_token_id T HS h th Hth) as Hid.
  pose proof (shape_nodup T HS k o Ho) as Hnd. unfold members in Hnd.
  apply NoDup_app in Hnd as (Hna & Hdis & Hnw).
  exists th, (V.seat h (V.dequeue h (V.unseat x o))).
  unfold V.release.
  rewrite (promote_head now k _ (V.unseat x o) h rest th);
    [|by rewrite getSlot_alterSlot, decide_True, Ho|done|done].
  rewrite Hid.
  assert (TimeSlot.waitlist (V.seat h (V.dequeue h (V.unseat x o))) = rest) as Hw'.
  { simpl. rewrite Hw. rewrite filter_cons_False by (intros ?; done).
    apply filter_ne_notin. rewrite Hw in Hnw. by apply NoDup_cons in Hnw as [? _]. }
  assert (TimeSlot.currentLoad (V.seat h (V.dequeue h (V.unseat x o)))
          = TimeSlot.currentLoad o) as Hl.
  { simpl. rewrite (shape_load T HS k o Ho), length_app. simpl.
    rewrite <- (filter_ne_length _ x Hna Hx). f_equal. lia. }
  split; [done|]. split; [|split; [|split; [|split; [|split]]]].
  - rewrite getSlot_alterToken, !getSlot_alterSlot, !decide_True, Ho by done. done.
  - rewrite getToken_alterToken, decide_True by done.
    by rewrite !getToken_alterSlot, Hth.
  - done.
  - done.
  - done.
  - destruct o. cbn in Hw', Hl.
    unfold V.seat, V.dequeue, V.unseat, TimeSlot.set_allocatedTokens,
      TimeSlot.set_waitlist, TimeSlot.set_currentLoad.
    cbn. by rewrite Hw', Hl.
Qed.

(** Freeing a seat touches the slot and the head of its waitlist, nothing
    else. *)
Lemma release_elsewhere now k x T o h rest :
  Shape T -> V.getSlot k T = Some o -> TimeSlot.waitlist o = h :: rest ->
  (forall k', k' <> k -> V.getSlot k' (V.release now k x T) = V.getSlot k' T)
  /\ (forall y, y <> h -> V.getToken y (V.release now k x T) = V.getToken y T).
Proof.
  intros HS Ho Hw.
  assert (h ∈ TimeSlot.waitlist o) as Hh by (rewrite Hw; left).
  destruct (shape_known T HS k o h Ho (members_waiting _ _ Hh)) as [th Hth].
  pose proof (shape_token_id T HS h th Hth) as Hid.
  unfold V.release.
  rewrite (promote_head now k _ (V.unseat x o) h rest th);
    [|by rewrite getSlot_alterSlot, decide_True, Ho|done|done].
  rewrite Hid. split.
  - intros k' Hk. rewrite getSlot_alterToken, !getSlot_alterSlot.
    by rewrite !decide_False by done.
  - intros y Hy. rewrite getToken_alterToken, decide_False by done.
    by rewrite !getToken_alterSlot.
Qed.

Lemma head_least T k o h rest y th ty :
  Shape T -> V.getSlot k T = Some o -> TimeSlot.waitlist o = h :: rest ->
  y ∈ rest -> V.getToken h T = Some th -> V.getToken y T = Some ty ->
  sortsBefore th ty.
Proof.
  intros HS Ho Hw Hy Hth Hty.
  pose proof (shape_sorted T HS k o Ho) as Hs. rewrite Hw in Hs.
  apply StronglySorted_inv in Hs as [_ Hf]. rewrite Forall_forall in Hf.
  apply cmpTokens_le. by apply (Hf y Hy).
Qed.

Lemma seated_slot T x t k :
  Inv T -> V.getToken x T = Some t -> Token.status t = ALLOCATED ->
  Token.slotId t = Some k ->
  exists o, V.getSlot k T = Some o /\ x ∈ TimeSlot.allocatedTokens o /\ k <> EmptyString.
Proof.
  intros [HS HA] Ht Hst Hk. destruct (HA x t Ht Hst) as (k' & o & Hk' & Ho & Hin).
  assert (k' = k) as -> by congruence. exists o. split; [done|]. split; [done|].
  by destruct (shape_slot_id T HS k o Ho).
Qed.

Lemma truthy_Some k : k <> EmptyString -> truthy (Some k) = true.
Proof.
  intros Hk. simpl. apply negb_true_iff. by apply String.eqb_neq.
Qed.

Lemma headPromoted_intro now k x h o rest st st' T0 s :
  Inv (tables st) ->
  V.getSlot k (tables st) = Some o -> x ∈ TimeSlot.allocatedTokens o ->
  TimeSlot.waitlist o = h :: rest -> s <> ALLOCATED ->
  T0 = V.alterToken x (Token.set_status s) (tables st) ->
  tables st' = V.release now k x T0 ->
  headPromoted st now s k x h o rest st'.
Proof.
  intros [HS HA] Ho Hx Hw Hs -> HT.
  assert (Shape (V.alterToken x (Token.set_status s) (tables st))) as HS1
    by by apply shape_alterToken.
  assert (x <> h) as Hxh.
  { pose proof (shape_nodup _ HS k o Ho) as Hnd. unfold members in Hnd.
    apply NoDup_app in Hnd as (_ & Hdis & _). intros <-. apply (Hdis x Hx).
    rewrite Hw. apply list_elem_of_here. }
  destruct (release_head now k x _ o h rest HS1 Ho Hx Hw)
    as (th & o' & Hth & Ho' & Hth' & Ha & Hw' & Hl & Hkept).
  destruct (release_elsewhere now k x _ o h rest HS1 Ho Hw) as [Hslots Htokens].
  rewrite getToken_alterToken, decide_False in Hth by done.
  assert (forall y, tokenOf st' y
                    = V.getToken y (V.release now k x
                        (V.alterToken x (Token.set_status s) (tables st)))) as Htk
    by (intros y; unfold tokenOf; by rewrite HT).
  assert (forall k', slotOf st' k'
                     = V.getSlot k' (V.release now k x
                         (V.alterToken x (Token.set_status s) (tables st)))) as Hsl
    by (intros k'; unfold slotOf; by rewrite HT).
  unfold headPromoted. split; [|split; [|split; [|split]]].
  - exists o', (tokenAllocator.allocatedUpdate k now th). by rewrite Hsl, Htk.
  - rewrite Htk, Hth'. change (tokenOf st h) with (V.getToken h (tables st)).
    by rewrite Hth.
  - rewrite Htk, (Htokens x Hxh), getToken_alterToken. by rewrite decide_True.
  - intros k' Hk'. by rewrite Hsl, (Hslots k' Hk'), getSlot_alterToken.
  - intros y Hyx Hyh. rewrite Htk, (Htokens y Hyh), getToken_alterToken.
    by rewrite decide_False by done.
Qed.

Lemma cancelToken_allocated now x t k T :
  V.getToken x T = Some t -> Token.status t = ALLOCATED ->
  Token.slotId t = Some k -> k <> EmptyString ->
  V.cancelToken now x T
  = Some (V.release now k x (V.alterToken x (Token.set_status CANCELLED) T)).
Proof.
  intros Ht Hst Hk Hne. unfold V.cancelToken. rewrite Ht, Hst, Hk.
  rewrite decide_False by done. by rewrite (truthy_Some k Hne).
Qed.

Lemma markNoShow_slot now x t k T :
  V.getToken x T = Some t -> Token.slotId t = Some k -> k <> EmptyString ->
  V.markNoShow now x T
  = Some (V.release now k x (V.alterToken x (Token.set_status NO_SHOW) T)).
Proof.
  intros Ht Hk Hne. unfold V.markNoShow. rewrite Ht, Hk.
  by rewrite (truthy_Some k Hne).
Qed.

(** C5.  In a reachable store, let [x] be a token in status ALLOCATED whose
    slot [k] has a waitlist with head [h].  Cancelling [x], and marking it
    no-show, both return, and after either call [h] is ALLOCATED in [k] and
    seated last there, the waitlist of [k] has lost [h] and nothing else, and
    the load of [k] is what it was before the call.  This is the one
    promotion of the call: the slot [k] has changed in its seats and its
    waitlist only, [h] by the update that allocates it, [x] by its status,
    now CANCELLED or NO_SHOW, and every other slot and every other token is
    what it was.  The head [h] sorts no later than any other waiting token:
    its score is higher, or equal with a creation time that is not later. *)
Theorem promotion_after_cancel_or_no_show st now x t k o h rest :
  reachable st ->
  tokenOf st x = Some t -> Token.status t = ALLOCATED -> Token.slotId t = Some k ->
  slotOf st k = Some o -> TimeSlot.waitlist o = h :: rest ->
  (exists res st', tokenAllocator.cancelToken now x st = Some (res, st')
                   /\ headPromoted st now CANCELLED k x h o rest st')
  /\ (exists res st', tokenAllocator.markNoShow now x st = Some (res, st')
                      /\ headPromoted st now NO_SHOW k x h o rest st')
  /\ (forall y th ty, y ∈ rest -> tokenOf st h = Some th -> tokenOf st y = Some ty ->
        sortsBefore th ty).
Proof.
  intros Hr Ht Hst Hk Ho Hw. destruct (reachable_inv st Hr) as [W HI].
  destruct (seated_slot _ x t k HI Ht Hst Hk) as (o0 & Ho0 & Hx & Hne).
  assert (o0 = o) as -> by (unfold slotOf, V.getSlot in *; congruence).
  split; [|split].
  - pose proof (cancelToken_spec now x st W) as H.
    rewrite (cancelToken_allocated now x t k _ Ht Hst Hk Hne) in H.
    destruct H as (res & st' & E & W' & HT). exists res, st'. split; [done|].
    by eapply (headPromoted_intro now k x h o rest st st' _ CANCELLED).
  - pose proof (markNoShow_spec now x st W) as H.
    rewrite (markNoShow_slot now x t k _ Ht Hk Hne) in H.
    destruct H as (res & st' & E & W' & HT). exists res, st'. split; [done|].
    by eapply (headPromoted_intro now k x h o rest st st' _ NO_SHOW).
  - intros y th ty Hy Hth Hty. destruct HI as [HS _].
    by eapply (head_least (tables st) k o h rest y).
Qed.

(** ** Bumping *)

Lemma last_filter_omap {A B : Type} (f : A -> option B) (Q : B -> Prop)
    `{forall b, Decision (Q b)} (l : list A) b :
  last (filter Q (omap f l)) = Some b ->
  exists l1 a l2,
    l = l1 ++ a :: l2 /\ f a = Some b /\ Q b
    /\ forall y ty, y ∈ l2 -> f y = Some ty -> ~ Q ty.
Proof.
  induction l as [|a l IH]; [done|].
  assert (filter Q (omap f (a :: l))
          = filter Q (option_list (f a)) ++ filter Q (omap f l)) as ->.
  { csimpl. destruct (f a); csimpl; [|done]. rewrite !filter_cons, filter_nil.
    by destruct (decide (Q b0)). }
  rewrite last_app.
  destruct (last (filter Q (omap f l))) as [b'|] eqn:El.
  - intros [= ->]. destruct (IH eq_refl) as (l1 & a' & l2 & -> & Ha & HQ & Hl2).
    exists (a :: l1), a', l2. done.
  - apply last_None in El. intros Hl. exists [], a, l.
    destruct (f a) as [t|]; csimpl in Hl; [|done].
    rewrite filter_cons in Hl. destruct (decide (Q t)) as [HQ|]; [|done].
    simpl in Hl. injection Hl as ->.
    split; [done|]. split; [done|]. split; [done|].
    intros y ty Hy Hty HQy.
    assert (ty ∈ filter Q (omap f l)) as Hin.
    { apply list_elem_of_filter. split; [done|]. apply list_elem_of_omap. eauto. }
    rewrite El in Hin. by apply elem_of_nil in Hin.
Qed.

Lemma filter_ne_middle (l1 l2 : list string) x :
  NoDup (l1 ++ x :: l2) -> filter (fun id => id <> x) (l1 ++ x :: l2) = l1 ++ l2.
Proof.
  intros Hnd. apply NoDup_app in Hnd as (_ & Hd & Hnd2).
  apply NoDup_cons in Hnd2 as [Hx2 _].
  rewrite filter_app, filter_cons_False by (intros ?; done).
  rewrite !filter_ne_notin; [done|done|]. intros Hx1. apply (Hd x Hx1). left.
Qed.

Lemma getSlot_place now u k0 k T :
  V.getSlot k (V.place now u k0 T)
  = if decide (k0 = k) then V.seat u <$> V.getSlot k0 T else V.getSlot k T.
Proof.
  unfold V.place. rewrite getSlot_alterToken, getSlot_alterSlot. by repeat case_decide.
Qed.

Lemma getSlot_waitlisted u k0 k T :
  V.getSlot k (V.waitlisted u k0 T)
  = if decide (k0 = k) then V.enqueue T u <$> V.getSlot k0 T else V.getSlot k T.
Proof.
  unfold V.waitlisted, V.addToWaitlist. rewrite getSlot_alterToken, getSlot_alterSlot.
  by repeat case_decide.
Qed.

Lemma getSlot_evict k0 b k T :
  V.getSlot k (V.evict k0 b T)
  = if decide (k0 = k)
    then (fun o => V.enqueue (V.alterToken (Token.id b) (V.bumped b)
                                (V.alterSlot k0 (V.unseat (Token.id b)) T))
                             (Token.id b) (V.unseat (Token.id b) o)) <$> V.getSlot k0 T
    else V.getSlot k T.
Proof.
  unfold V.evict, V.addToWaitlist.
  rewrite getSlot_alterSlot, !getSlot_alterToken, !getSlot_alterSlot.
  repeat case_decide; try done. subst. by destruct (V.getSlot k T).
Qed.

(** An allocation takes a seated token off its seat only through a bump, and
    then it is the last candidate of the target slot. *)
Lemma allocateToken_evicts uuid now n cat d p T k o o' x :
  let tok := Token.mk uuid n cat (priorityRules.getPriorityScore cat) d None PENDING
                      now None 0 in
  let T1 := V.putToken uuid tok T in
  let R := V.allocateToken uuid now n cat d p T in
  V.getSlot k T = Some o -> V.getSlot k R.2 = Some o' ->
  x ∈ TimeSlot.allocatedTokens o -> x ∉ TimeSlot.allocatedTokens o' ->
  exists b, R.1 = true /\ last (V.bumpable cat o T1) = Some b
            /\ R.2 = V.place now uuid k (V.evict k b T1)
            /\ Token.id b = x.
Proof.
  intros tok T1 R Ho Ho' Hx Hx'. subst R. revert Ho'.
  unfold V.allocateToken. cbv zeta. fold tok. fold T1.
  assert (V.getSlot k T1 = Some o) as Ho1 by done.
  assert (forall (g : TimeSlot.t -> TimeSlot.t) k0,
            (forall s, TimeSlot.allocatedTokens s ⊆ TimeSlot.allocatedTokens (g s)) ->
            (if decide (k0 = k) then g <$> V.getSlot k0 T1 else V.getSlot k T1) = Some o' ->
            False) as Hkeep.
  { intros g k0 Hg E. destruct (decide (k0 = k)) as [->|].
    - rewrite Ho1 in E. injection E as <-. by apply Hx', Hg.
    - rewrite Ho1 in E. by injection E as <-. }
  destruct (if truthy p then _ else _) as [s|].
  2:{ simpl. rewrite getSlot_alterToken, Ho1. intros [= <-]. done. }
  unfold V.allocateToSlot.
  set (k0 := TimeSlot.id s).
  destruct (V.getSlot k0 T1) as [o0|] eqn:Ho0.
  2:{ simpl. rewrite Ho1. intros [= <-]. done. }
  assert (forall now', V.getSlot k (V.place now' uuid k0 T1) = Some o' -> False) as Hplace.
  { intros now'. rewrite getSlot_place. apply Hkeep. intros s0 y Hy. simpl.
    apply elem_of_app. by left. }
  assert (V.getSlot k (V.waitlisted uuid k0 T1) = Some o' -> False) as Hwait.
  { rewrite getSlot_waitlisted. by apply Hkeep. }
  destruct (V.hasCapacity k0 T1); [by intros ?%Hplace|].
  case_decide; [by intros ?%Hplace|].
  case_decide; [|by intros ?%Hwait].
  unfold V.tryBumpLowerPriority. rewrite Ho0.
  destruct (last (V.bumpable cat o0 T1)) as [b|] eqn:El; [|by intros ?%Hwait].
  simpl. rewrite getSlot_place. case_decide as Hk0.
  2:{ rewrite getSlot_evict. case_decide; [done|]. rewrite Ho1. by intros [= <-]. }
  rewrite getSlot_evict, Ho0. case_decide; [|done]. rewrite Hk0 in *.
  assert (o0 = o) as -> by congruence. simpl. intros [= <-].
  exists b. split; [done|]. split; [done|]. split; [done|].
  simpl in Hx'. rewrite elem_of_app, list_elem_of_filter in Hx'.
  destruct (decide (Token.id b = x)); [done|]. naive_solver.
Qed.

Lemma bumpableBy_iff cat t :
  priorityRules.canBump cat (Token.patientType t)
  && priorityRules.canBeBumped (Token.bumpCount t) <-> bumpableBy cat t.
Proof.
  unfold bumpableBy, priorityRules.canBeBumped, priorityRules.MAX_BUMP_COUNT.
  rewrite andb_True, bool_decide_spec, Is_true_true. done.
Qed.

(** C6.  In a reachable store, let an allocation under a fresh id [uuid] take
    the token [x] off the seats of a slot [k].  Then [x] could be bumped by
    the category of the new token: [canBump] holds of the two categories and
    the bump count of [x] was below 2.  No token seated after [x] in [k]
    could be bumped.  After the call the bump count of [x] is one higher, [x]
    is WAITLISTED and on the waitlist of [k], and the new token is ALLOCATED
    in [k] and seated last there, the other seats being as before; the call
    reports success. *)
Theorem bump_evicts_last_candidate st uuid now name cat doctor pref res st' k o o' x :
  reachable st -> tokenOf st uuid = None ->
  tokenAllocator.allocateToken uuid now name cat doctor pref st = Some (res, st') ->
  slotOf st k = Some o -> slotOf st' k = Some o' ->
  x ∈ TimeSlot.allocatedTokens o -> x ∉ TimeSlot.allocatedTokens o' ->
  exists tx tx' tu l1 l2,
    tokenOf st x = Some tx /\ bumpableBy cat tx
    /\ TimeSlot.allocatedTokens o = l1 ++ x :: l2
    /\ (forall y ty, y ∈ l2 -> tokenOf st y = Some ty -> ~ bumpableBy cat ty)
    /\ tokenOf st' x = Some tx'
    /\ Token.bumpCount tx' = Token.bumpCount tx + 1
    /\ Token.status tx' = WAITLISTED
    /\ x ∈ TimeSlot.waitlist o'
    /\ TimeSlot.allocatedTokens o' = l1 ++ l2 ++ [uuid]
    /\ tokenOf st' uuid = Some tu
    /\ Token.status tu = ALLOCATED /\ Token.slotId tu = Some k
    /\ success res = true.
Proof.
  intros Hr Hfresh E Ho Ho' Hx Hx'. destruct (reachable_inv st Hr) as [W [HS HA]].
  destruct (allocateToken_spec uuid now name cat doctor pref st W)
    as (res0 & st0 & E0 & W0 & HV).
  rewrite E in E0. injection E0 as <- <-.
  change (tokenOf st uuid) with (V.getToken uuid (tables st)) in Hfresh.
  change (slotOf st k) with (V.getSlot k (tables st)) in Ho.
  change (slotOf st' k) with (V.getSlot k (tables st')) in Ho'.
  set (T := tables st) in *.
  set (tok := Token.mk uuid name cat (priorityRules.getPriorityScore cat) doctor None
                       PENDING now None 0).
  set (T1 := V.putToken uuid tok T).
  destruct (allocateToken_evicts uuid now name cat doctor pref T k o o' x Ho)
    as (b & Hres & El & HT & Hid); [by rewrite <- HV|done|done|].
  rewrite <- HV in Hres, HT. simpl in Hres, HT. fold tok in El, HT. fold T1 in El, HT.
  assert (Shape T1) as HS1 by by apply shape_putToken.
  pose proof (shape_nodup T HS k o Ho) as Hnd. unfold members in Hnd.
  apply NoDup_app in Hnd as (Hna & _ & _).
  assert (forall y, y ∈ members o -> y <> uuid /\ V.getToken y T1 = V.getToken y T) as Hold.
  { intros y Hy. destruct (shape_known T HS k o y Ho Hy) as [ty Hty].
    assert (y <> uuid) by congruence. split; [done|].
    unfold T1. rewrite getToken_putToken. by rewrite decide_False. }
  unfold V.bumpable in El.
  apply (last_filter_omap (fun id => V.getToken id T1)) in El
    as (l1 & a & l2 & Hl & Ha & HQ & Hl2).
  assert (a = x) as ->.
  { rewrite <- Hid. symmetry. by apply (shape_token_id T1 HS1). }
  destruct (Hold x (members_seated _ _ Hx)) as [Hxu Hxb]. rewrite Hxb in Ha.
  assert (V.getSlot k (V.evict k b T1)
          = Some (V.enqueue (V.alterToken x (V.bumped b) (V.alterSlot k (V.unseat x) T1))
                            x (V.unseat x o))) as Hev.
  { rewrite getSlot_evict, Hid. case_decide; [|done]. unfold T1.
    by rewrite getSlot_putToken, Ho. }
  assert (o' = V.seat uuid (V.enqueue (V.alterToken x (V.bumped b)
                                         (V.alterSlot k (V.unseat x) T1))
                                      x (V.unseat x o))) as Ho'e.
  { rewrite HT, getSlot_place in Ho'. case_decide; [|done]. rewrite Hev in Ho'.
    by injection Ho' as <-. }
  exists b, (V.bumped b b), (tokenAllocator.allocatedUpdate k now tok), l1, l2.
  split; [done|]. split; [by apply bumpableBy_iff|]. split; [done|].
  split; [|split; [|split; [done|split; [done|split; [|split; [|split; [|done]]]]]]].
  - intros y ty Hy Hty. rewrite <- bumpableBy_iff. apply (Hl2 y ty Hy).
    destruct (Hold y) as [_ ->]; [|done]. apply members_seated. rewrite Hl.
    apply elem_of_app. right. by right.
  - unfold tokenOf. fold (V.getToken x (tables st')). rewrite HT. unfold V.place.
    rewrite getToken_alterToken. case_decide; [done|]. rewrite getToken_alterSlot.
    unfold V.evict, V.addToWaitlist. rewrite getToken_alterSlot, Hid.
    rewrite getToken_alterToken. case_decide; [|done].
    unfold T1. rewrite getToken_alterSlot, getToken_putToken.
    case_decide; [done|]. fold T. by rewrite Ha.
  - rewrite Ho'e. simpl.
    set (T2 := V.alterToken x (V.bumped b) (V.alterSlot k (V.unseat x) T1)).
    assert (Shape T2) as HS2.
    { apply shape_alterToken; [|apply keeping_bumped].
      apply shape_shrink; [done|apply shrinking_unseat]. }
    rewrite (sortIds_perm T2).
    + apply elem_of_app. right. left.
    + apply (shape_token_id T2 HS2).
    + intros y [Hy| ->%list_elem_of_singleton]%elem_of_app;
        apply token_present_alterToken; rewrite getToken_alterSlot.
      * destruct (Hold y (members_waiting _ _ Hy)) as [_ ->].
        apply (shape_known T HS k o y Ho). by apply members_waiting.
      * rewrite Hxb, Ha. eauto.
  - rewrite Ho'e. simpl. rewrite Hl, filter_ne_middle by by rewrite <- Hl.
    by rewrite <- (assoc_L (++)).
  - unfold tokenOf. fold (V.getToken uuid (tables st')). rewrite HT. unfold V.place.
    rewrite getToken_alterToken. case_decide; [|done]. rewrite getToken_alterSlot.
    unfold V.evict, V.addToWaitlist. rewrite getToken_alterSlot, Hid.
    rewrite getToken_alterToken. case_decide; [done|].
    unfold T1. rewrite getToken_alterSlot, getToken_putToken. by case_decide.
Qed.

(** ** Redistribution *)

Lemma find_head_filter {A : Type} (p : A -> bool) (Q : A -> Prop)
    `{forall x, Decision (Q x)} (l : list A) :
  (forall x, p x = true <-> Q x) -> List.find p l = head (filter Q l).
Proof.
  intros Hpq. induction l as [|x l IH]; [done|]. simpl. rewrite filter_cons.
  destruct (p x) eqn:E.
  - apply Hpq in E. by rewrite decide_True.
  - rewrite decide_False; [done|]. rewrite <- Hpq. congruence.
Qed.

Lemma hasCapacity_hasRoom k T : V.hasCapacity k T = true <-> Spec.hasRoom T k.
Proof.
  unfold V.hasCapacity, Spec.hasRoom, V.getSlot.
  destruct (map_get k (slotTable T)) as [s|].
  - rewrite bool_decide_eq_true. split; [eauto|]. by intros (s' & [= <-] & ?).
  - split; [done|]. by intros (s' & [=] & _).
Qed.

Lemma otherOpenSlots_alter k d k' g (m : list (string * TimeSlot.t)) toks toks' :
  (forall s, TimeSlot.doctorId (g s) = TimeSlot.doctorId s
             /\ TimeSlot.status (g s) = TimeSlot.status s) ->
  Spec.otherOpenSlots k d (mkTables (map_alter k' g m) toks)
  = Spec.otherOpenSlots k d (mkTables m toks').
Proof.
  intros Hg. unfold Spec.otherOpenSlots. simpl.
  induction m as [|[k0 s] m IH]; [done|]. simpl.
  destruct (decide (k0 = k')) as [->|].
  - rewrite !filter_cons. simpl. destruct (Hg s) as [-> ->].
    by repeat case_decide.
  - rewrite !filter_cons. simpl. repeat case_decide; csimpl; by rewrite ?IH.
Qed.

Lemma otherOpenSlots_moveToken k d target x T :
  Spec.otherOpenSlots k d (Spec.moveToken k target x T) = Spec.otherOpenSlots k d T.
Proof.
  unfold Spec.moveToken. destruct T as [m toks].
  rewrite (otherOpenSlots_alter k d target (Spec.receive x) _ _ toks) by done.
  by rewrite (otherOpenSlots_alter k d k (Spec.withdraw x) _ _ toks).
Qed.

Lemma otherSlots_open k o T :
  Shape T -> V.otherSlots k o T = Spec.otherOpenSlots k (TimeSlot.doctorId o) T.
Proof.
  intros HS. unfold V.otherSlots, V.slotsByDoctor, Spec.otherOpenSlots.
  assert (forall k' s, (k', s) ∈ slotTable T -> TimeSlot.id s = k') as Hid.
  { intros k' s Hin. apply (shape_slot_id T HS k' s).
    apply map_get_NoDup; [apply (shape_slot_keys T HS)|done]. }
  induction (slotTable T) as [|[k0 s] m IH]; [done|].
  assert (TimeSlot.id s = k0) as Hs by (apply Hid; left).
  assert (forall k' s', (k', s') ∈ m -> TimeSlot.id s' = k') as Hid'
    by (intros; apply Hid; by right).
  rewrite fmap_cons. simpl. rewrite (filter_cons _ s), (filter_cons _ (k0, s)). simpl.
  destruct (decide (TimeSlot.doctorId s = TimeSlot.doctorId o)) as [Hd|Hd].
  - rewrite filter_cons, Hs.
    destruct (decide (k0 <> k /\ TimeSlot.status s <> CLOSED)) as [Hc|Hc].
    + rewrite decide_True by naive_solver. csimpl. rewrite Hs. f_equal. by apply IH.
    + rewrite decide_False by naive_solver. by apply IH.
  - rewrite decide_False by naive_solver. by apply IH.
Qed.

Lemma move_moveToken k target x T : V.move k target x T = Spec.moveToken k target x T.
Proof.
  unfold V.move, Spec.moveToken, V.alterToken, V.alterSlot. simpl. f_equal.
  rewrite map_alter_alter. done.
Qed.

Lemma forEachToken_redistributeAll k d others l :
  forall acc T,
    (forall x, x ∈ l -> is_Some (V.getToken x T)) ->
    Spec.otherOpenSlots k d T = others ->
    V.forEachToken k others l acc T
    = (acc.1 + Z.of_nat (length (Spec.redistributeAll k d l T).1.1),
       acc.2 + Z.of_nat (length (Spec.redistributeAll k d l T).1.2),
       (Spec.redistributeAll k d l T).2).
Proof.
  induction l as [|x l IH]; intros [a1 a2] T Hl Ho; simpl.
  { by rewrite !Z.add_0_r. }
  destruct (Hl x) as [t Ht]; [left|]. rewrite Ht.
  unfold Spec.firstFit. rewrite Ho.
  rewrite (find_head_filter _ (Spec.hasRoom T)) by (intros; apply hasCapacity_hasRoom).
  destruct (head (filter (Spec.hasRoom T) others)) as [target|].
  - rewrite move_moveToken, IH.
    + destruct (Spec.redistributeAll k d l (Spec.moveToken k target x T)) as [[mv un] T'].
      simpl. f_equal. f_equal. lia.
    + intros y Hy. unfold Spec.moveToken, V.getToken. simpl.
      rewrite map_get_alter. case_decide; [subst|by apply Hl; right].
      apply fmap_is_Some. by exists t.
    + by rewrite otherOpenSlots_moveToken.
  - rewrite IH; [|intros; apply Hl; by right|done].
    destruct (Spec.redistributeAll k d l T) as [[mv un] T'].
    simpl. f_equal. f_equal. lia.
Qed.

Lemma redistribute_refines k T :
  Shape T ->
  V.redistributePatientsFromSlot k T
  = (fun r => (Z.of_nat (length r.1.1), Z.of_nat (length r.1.2), r.2))
      <$> Spec.redistribute k T.
Proof.
  intros HS. unfold V.redistributePatientsFromSlot, Spec.redistribute, V.getSlot.
  destruct (map_get k (slotTable T)) as [o|] eqn:Ho; [|done].
  rewrite (forEachToken_redistributeAll k (TimeSlot.doctorId o)).
  - destruct (Spec.redistributeAll _ _ _ T) as [[mv un] T']. done.
  - intros x Hx. apply (shape_known T HS k o x Ho Hx).
  - symmetry. by apply otherSlots_open.
Qed.

Lemma redistributeAll_keys k d l :
  forall T, (slotTable (Spec.redistributeAll k d l T).2).*1 = (slotTable T).*1.
Proof.
  induction l as [|x l IH]; intros T; simpl; [done|].
  destruct (Spec.firstFit k d T) as [target|].
  - specialize (IH (Spec.moveToken k target x T)).
    destruct (Spec.redistributeAll k d l (Spec.moveToken k target x T)) as [[mv un] T'].
    simpl in *. rewrite IH. unfold Spec.moveToken. simpl. by rewrite !map_alter_fst.
  - specialize (IH T). by destruct (Spec.redistributeAll k d l T) as [[mv un] T'].
Qed.

(** C8.  In a reachable store, redistributing the patients of a stored slot
    [k] returns, and does what [Spec.redistribute] describes: the tokens of
    [k], the seated ones first and then the waiting ones, each go to the first
    other slot of the doctor that is not CLOSED and has room when the token is
    reached, or stay where they are when no such slot has room.  The two
    counts returned are the numbers of tokens moved and not moved, and [k] is
    CLOSED afterwards. *)
Theorem redistribution_is_first_fit st k o :
  reachable st -> slotOf st k = Some o ->
  exists res st' moved unmoved o',
    delayHandler.redistributePatientsFromSlot k st = Some (res, st')
    /\ Spec.redistribute k (tables st) = Some (moved, unmoved, tables st')
    /\ redistributed res = Z.of_nat (length moved)
    /\ failed res = Z.of_nat (length unmoved)
    /\ slotOf st' k = Some o' /\ TimeSlot.status o' = CLOSED.
Proof.
  intros Hr Ho. destruct (reachable_inv st Hr) as [W [HS HA]].
  pose proof (redistributePatientsFromSlot_spec k st W) as H.
  rewrite redistribute_refines in H by done.
  unfold Spec.redistribute in *. unfold slotOf in Ho. rewrite Ho in *.
  pose proof (redistributeAll_keys k (TimeSlot.doctorId o)
                (TimeSlot.allocatedTokens o ++ TimeSlot.waitlist o) (tables st)) as Hk.
  destruct (Spec.redistributeAll _ _ _ (tables st)) as [[mv un] T1].
  simpl in H, Hk. destruct H as (res & st' & Hc & W' & HT & Hm & Hf).
  assert (is_Some (map_get k (slotTable T1))) as [o1 Ho1].
  { apply map_get_is_Some. rewrite Hk. apply map_get_is_Some. eauto. }
  exists res, st', mv, un, (TimeSlot.set_status CLOSED o1).
  split; [done|]. split; [by rewrite HT|]. split; [done|]. split; [done|].
  split; [|done]. unfold slotOf. rewrite HT. unfold V.alterSlot. simpl.
  rewrite map_get_alter. case_decide; [|done]. by rewrite Ho1.
Qed.

(** ** A preferred slot that is not stored *)

Lemma map_alter_last {V : Type} k (f : V -> V) v (m : list (string * V)) :
  map_get k m = None -> map_alter k f (m ++ [(k, v)]) = m ++ [(k, f v)].
Proof.
  induction m as [|[k0 v0] m IH]; simpl.
  - by rewrite decide_True.
  - destruct (decide (k0 = k)); [done|]. intros. by rewrite IH.
Qed.

(** C10, amended.  In a reachable store, a request under a fresh id that
    prefers a slot id [p] other than the empty string, under which no slot is
    stored, returns: it reports failure with the message of the general
    waitlist, the slots are what they were, and the tokens are those of
    before followed by the new one, which is WAITLISTED and has no slot.  A
    request that prefers the empty string is handled, in every store, as the
    same request with no preferred slot: the two calls return the same
    outcome and leave the same store. *)
Theorem unknown_preferred_slot_goes_to_general_waitlist uuid now name cat doctor :
  (forall st p,
     reachable st -> tokenOf st uuid = None -> p <> EmptyString -> slotOf st p = None ->
     exists r,
       tokenAllocator.allocateToken uuid now name cat doctor (Some p) st = Some r
       /\ onGeneralWaitlist uuid st r)
  /\ (forall st,
        tokenAllocator.allocateToken uuid now name cat doctor (Some EmptyString) st
        = tokenAllocator.allocateToken uuid now name cat doctor None st).
Proof.
  split; [|reflexivity].
  intros st p Hr Hfresh Hp Hk. destruct (reachable_inv st Hr) as [W _].
  unfold tokenAllocator.allocateToken.
  set (o := Token.mk uuid name cat (priorityRules.getPriorityScore cat) doctor None
                     PENDING now None 0).
  destruct (newToken_spec o st W) as (W2 & G2 & T2 & A2 & Hg & Hv).
  destruct (store.newToken o st) as [tok st1] eqn:En. simpl in W2, G2, T2, A2, Hg, Hv.
  cbv zeta. set (st2 := store.addToken tok st1) in *.
  rewrite (truthy_Some p Hp). simpl (default _ _).
  assert (store.getSlot p st2 = None) as ->.
  { pose proof (V_getSlot_tables st2 p) as H. rewrite T2, getSlot_putToken in H.
    unfold slotOf in Hk. unfold V.getSlot in H at 1. rewrite Hk in H.
    by destruct (store.getSlot p st2). }
  destruct (assignToken_spec uuid tok (Token.set_status WAITLISTED) st2 W2 Hg)
    as (W3 & T3 & S3 & A3).
  set (st3 := store.assignToken tok (Token.set_status WAITLISTED) st2) in *.
  destruct (updateToken_spec (Token.id (store.tokenAt st3 tok))
              (whole (store.tokenAt st3 tok)) st3 W3) as (W4 & G4 & T4).
  set (st4 := store.updateToken _ _ st3) in *.
  assert (tables st4
          = V.alterToken uuid (Token.set_status WAITLISTED) (V.putToken uuid o (tables st)))
    as HT.
  { rewrite T4, T3, A3, A2, T2. apply alterToken_whole. simpl.
    rewrite getToken_putToken. by rewrite decide_True. }
  assert (store.tokenAt st4 tok = Token.set_status WAITLISTED o) as Htok.
  { rewrite (grows_tokenAt st3 st4 tok G4); [by rewrite A3, A2|].
    apply (getToken_valid st3 uuid tok W3). unfold store.getToken in *. by rewrite S3. }
  eexists. split; [done|]. unfold onGeneralWaitlist. cbn [fst snd success message token].
  split; [done|]. split; [done|]. split; [by rewrite HT|].
  exists (store.tokenAt st4 tok). split; [done|]. rewrite Htok. split; [|done].
  rewrite HT. unfold V.alterToken, V.putToken. simpl.
  rewrite map_set_fresh by done. by apply map_alter_last.
Qed.

(** ** The scenarios are reachable *)

Lemma oneSlot_seeded cap st : Scenario.oneSlot cap = Some st -> seeded st.
Proof. intros H. eapply seeded_slots; [|exact H]. apply seeded_doctor, seeded_clear. Qed.

Lemma twoSlots_seeded cap st : Scenario.twoSlots cap = Some st -> seeded st.
Proof. intros H. eapply seeded_slots; [|exact H]. apply seeded_doctor, seeded_clear. Qed.

Lemma run_reachable seed ops :
  (forall st, seed = Some st -> seeded st) -> reachable (Scenario.run seed ops).
Proof.
  intros Hs. unfold Scenario.run.
  destruct seed as [st0|]; simpl; [|apply reachable_seeded, seeded_clear].
  destruct (steps ops st0) as [st1|] eqn:E; simpl; [|apply reachable_seeded, seeded_clear].
  eapply reachable_steps; [|done]. apply reachable_seeded. by apply Hs.
Qed.

Lemma oneSlot_reachable cap ops : reachable (Scenario.run (Scenario.oneSlot cap) ops).
Proof. apply run_reachable, oneSlot_seeded. Qed.

Lemma twoSlots_reachable cap ops : reachable (Scenario.run (Scenario.twoSlots cap) ops).
Proof. apply run_reachable, twoSlots_seeded. Qed.

Local Open Scope string_scope.

(** ** What the code does on the scenarios *)

(** C10, as stated, does not hold: no slot is stored under the empty string,
    yet a request that prefers it is seated in the doctor's slot. *)
Lemma empty_preferred_slot_is_seated :
  ~ (forall st uuid now name cat doctor p,
       reachable st -> tokenOf st uuid = None -> slotOf st p = None ->
       exists r,
         tokenAllocator.allocateToken uuid now name cat doctor (Some p) st = Some r
         /\ onGeneralWaitlist uuid st r).
Proof.
  intros H.
  destruct (H Scenario.emptySlot "t1" 1 "Asha" WALK_IN "doc-1" EmptyString)
    as (r & E & Hs & _); [apply oneSlot_reachable|done|done|].
  vm_compute in E. injection E as <-. vm_compute in Hs. discriminate.
Qed.

(** C1.  [Scenario.fullSlot] is reachable, and an EMERGENCY request for its
    doctor that prefers no slot reports failure: the token is WAITLISTED
    without a slot, and the slot is as it was. *)
Theorem emergency_without_room_is_waitlisted :
  let r := tokenAllocator.allocateToken "t2" 2 "Bala" EMERGENCY "doc-1" None
             Scenario.fullSlot in
  reachable Scenario.fullSlot
  /\ answer r = Some (false, "No available slots. Added to general waitlist.")
  /\ standing (after r) "t2" = Some (EMERGENCY, WAITLISTED, None)
  /\ seats (after r) Scenario.slot0900 = Some (1, 1, AVAILABLE, ["t1"], []).
Proof. split; [apply oneSlot_reachable|]. by vm_compute. Qed.

(** C2.  Scenario B: [Scenario.afterBump] is reachable, its slot of capacity 2
    holds 2 tokens, and an EMERGENCY request that prefers it is seated there;
    the slot then has load 3 and its status is AVAILABLE, as it was with load
    2. *)
Theorem overflow_leaves_status_available :
  let r := tokenAllocator.allocateToken "t4" 4 "Dev" EMERGENCY "doc-1"
             (Some Scenario.slot0900) Scenario.afterBump in
  reachable Scenario.afterBump
  /\ seats Scenario.afterBump Scenario.slot0900
     = Some (2, 2, AVAILABLE, ["t1"; "t3"], ["t2"])
  /\ answer r = Some (true, "Emergency patient allocated (slot in overflow: 3/2)")
  /\ seats (after r) Scenario.slot0900
     = Some (3, 2, AVAILABLE, ["t1"; "t3"; "t4"], ["t2"]).
Proof. split; [apply oneSlot_reachable|]. by vm_compute. Qed.

(** C3.  [Scenario.waitingNoShow] is reachable by two allocations and a
    no-show; its slot of capacity 1 has load 2, and the two tokens seated
    there are walk-ins. *)
Theorem no_show_of_waiting_token_overfills :
  reachable Scenario.waitingNoShow
  /\ seats Scenario.oneWaiting Scenario.slot0900 = Some (1, 1, AVAILABLE, ["t1"], ["t2"])
  /\ seats Scenario.waitingNoShow Scenario.slot0900
     = Some (2, 1, AVAILABLE, ["t1"; "t2"], [])
  /\ standing Scenario.waitingNoShow "t1"
     = Some (WALK_IN, ALLOCATED, Some Scenario.slot0900)
  /\ standing Scenario.waitingNoShow "t2"
     = Some (WALK_IN, ALLOCATED, Some Scenario.slot0900).
Proof. split; [apply oneSlot_reachable|]. by vm_compute. Qed.

(** C4.  [Scenario.noShowWaiting] is reachable; there the token t3 is NO_SHOW
    and still on the waitlist of the slot.  Cancelling t1 then makes t3
    ALLOCATED. *)
Theorem no_show_token_is_promoted :
  let r := tokenAllocator.cancelToken 5 "t1" Scenario.noShowWaiting in
  reachable Scenario.noShowWaiting
  /\ standing Scenario.noShowWaiting "t3"
     = Some (WALK_IN, NO_SHOW, Some Scenario.slot0900)
  /\ seats Scenario.noShowWaiting Scenario.slot0900
     = Some (2, 1, AVAILABLE, ["t1"; "t2"], ["t3"])
  /\ answer r = Some (true, "Token cancelled successfully")
  /\ standing (after r) "t3" = Some (WALK_IN, ALLOCATED, Some Scenario.slot0900)
  /\ seats (after r) Scenario.slot0900 = Some (2, 1, AVAILABLE, ["t2"; "t3"], []).
Proof. split; [apply oneSlot_reachable|]. by vm_compute. Qed.

(** C7.  [Scenario.closedSlot] is reachable and its slot is CLOSED and empty.
    A walk-in request that prefers this slot is seated in it: the load goes
    from 0 to 1 and the slot stays CLOSED. *)
Theorem closed_slot_admits_preferred_request :
  let r := tokenAllocator.allocateToken "t1" 1 "Asha" WALK_IN "doc-1"
             (Some Scenario.slot0900) Scenario.closedSlot in
  reachable Scenario.closedSlot
  /\ seats Scenario.closedSlot Scenario.slot0900 = Some (0, 1, CLOSED, [], [])
  /\ answer r = Some (true, "Token allocated successfully")
  /\ seats (after r) Scenario.slot0900 = Some (1, 1, CLOSED, ["t1"], [])
  /\ standing (after r) "t1" = Some (WALK_IN, ALLOCATED, Some Scenario.slot0900).
Proof. split; [apply oneSlot_reachable|]. by vm_compute. Qed.

(** C9.  [Scenario.oneWaiting] is reachable, with t2 waiting.  A follow-up
    request t3 that prefers the slot is put on its waitlist, first, before
    t2; the message reports position 2. *)
Theorem waitlist_position_is_the_length :
  let r := tokenAllocator.allocateToken "t3" 3 "Chitra" FOLLOW_UP "doc-1"
             (Some Scenario.slot0900) Scenario.oneWaiting in
  reachable Scenario.oneWaiting
  /\ answer r = Some (false, "Added to waitlist (position: 2)")
  /\ seats (after r) Scenario.slot0900 = Some (1, 1, AVAILABLE, ["t1"], ["t3"; "t2"])
  /\ standing (after r) "t3" = Some (FOLLOW_UP, WAITLISTED, Some Scenario.slot0900).
Proof. split; [apply oneSlot_reachable|]. by vm_compute. Qed.

(** ** The theorems at work on the scenarios *)

(** Promotion in [Scenario.oneWaiting]: cancelling t1 seats t2. *)
Lemma promotion_in_oneWaiting :
  exists o res st',
    slotOf Scenario.oneWaiting Scenario.slot0900 = Some o
    /\ TimeSlot.waitlist o = ["t2"]
    /\ tokenAllocator.cancelToken 3 "t1" Scenario.oneWaiting = Some (res, st')
    /\ headPromoted Scenario.oneWaiting 3 CANCELLED Scenario.slot0900 "t1" "t2" o [] st'.
Proof.
  assert (exists t o,
            tokenOf Scenario.oneWaiting "t1" = Some t
            /\ Token.status t = ALLOCATED /\ Token.slotId t = Some Scenario.slot0900
            /\ slotOf Scenario.oneWaiting Scenario.slot0900 = Some o
            /\ TimeSlot.waitlist o = ["t2"]) as (t & o & Ht & Hst & Hk & Ho & Hw).
  { vm_compute. eexists _, _. repeat split; reflexivity. }
  destruct (promotion_after_cancel_or_no_show Scenario.oneWaiting 3 "t1" t
              Scenario.slot0900 o "t2" [] (oneSlot_reachable _ _) Ht Hst Hk Ho Hw)
    as [(res & st' & E & Hp) _].
  exists o, res, st'. split; [exact Ho|]. split; [exact Hw|]. split; [exact E|exact Hp].
Defined.

(** Scenario A: the paid-priority patient t3 bumps the walk-in t2, the last
    seated, whose bump count goes from 0 to 1. *)
Lemma bump_in_scenario_A :
  exists tx tx' l1 l2,
    tokenOf Scenario.beforeBump "t2" = Some tx /\ bumpableBy PAID_PRIORITY tx
    /\ (l1 ++ "t2" :: l2)%list = ["t1"; "t2"]
    /\ tokenOf Scenario.afterBump "t2" = Some tx'
    /\ Token.bumpCount tx' = Token.bumpCount tx + 1
    /\ Token.status tx' = WAITLISTED.
Proof.
  assert (exists res,
            tokenAllocator.allocateToken "t3" 3 "Chitra" PAID_PRIORITY "doc-1"
              (Some Scenario.slot0900) Scenario.beforeBump
            = Some (res, Scenario.afterBump)) as [res E].
  { vm_compute. eexists. reflexivity. }
  assert (tokenOf Scenario.beforeBump "t3" = None) as Hfresh by (vm_compute; reflexivity).
  assert (exists o o',
            slotOf Scenario.beforeBump Scenario.slot0900 = Some o
            /\ slotOf Scenario.afterBump Scenario.slot0900 = Some o'
            /\ TimeSlot.allocatedTokens o = ["t1"; "t2"]
            /\ TimeSlot.allocatedTokens o' = ["t1"; "t3"]) as (o & o' & Ho & Ho' & Ha & Ha').
  { vm_compute. eexists _, _. repeat split; reflexivity. }
  assert ("t2" ∈ TimeSlot.allocatedTokens o) as Hx.
  { rewrite Ha. apply list_elem_of_further, list_elem_of_here. }
  assert ("t2" ∉ TimeSlot.allocatedTokens o') as Hx'.
  { rewrite Ha'. intros H. apply elem_of_cons in H as [H|H]; [discriminate|].
    apply elem_of_cons in H as [H|H]; [discriminate|]. by apply elem_of_nil in H. }
  destruct (bump_evicts_last_candidate Scenario.beforeBump "t3" 3 "Chitra" PAID_PRIORITY
              "doc-1" (Some Scenario.slot0900) res Scenario.afterBump Scenario.slot0900
              o o' "t2" (oneSlot_reachable _ _) Hfresh E Ho Ho' Hx Hx')
    as (tx & tx' & tu & l1 & l2 & Htx & Hb & Hl & _ & Htx' & Hc & Hs & _).
  exists tx, tx', l1, l2. rewrite <- Ha, Hl.
  repeat split; (assumption || reflexivity || apply Hb).
Defined.

(** Scenario E: of the three patients of the first slot two move to the
    second slot, one stays, and the first slot is CLOSED. *)
Lemma redistribution_in_scenario_E :
  exists res st' o',
    delayHandler.redistributePatientsFromSlot Scenario.slot0900
      Scenario.beforeRedistribution = Some (res, st')
    /\ redistributed res = 2 /\ failed res = 1
    /\ slotOf st' Scenario.slot0900 = Some o' /\ TimeSlot.status o' = CLOSED.
Proof.
  assert (exists o, slotOf Scenario.beforeRedistribution Scenario.slot0900 = Some o)
    as [o Ho] by (vm_compute; eexists; reflexivity).
  destruct (redistribution_is_first_fit Scenario.beforeRedistribution Scenario.slot0900 o
              (twoSlots_reachable _ _) Ho)
    as (res & st' & mv & un & o' & E & Hs & Hm & Hf & Ho' & Hc).
  assert (exists a b c T,
            Spec.redistribute Scenario.slot0900 (tables Scenario.beforeRedistribution)
            = Some ([a; b], [c], T)) as (a & b & c & T & Hr).
  { vm_compute. eexists _, _, _, _. reflexivity. }
  rewrite Hr in Hs. injection Hs as <- <- _.
  exists res, st', o'. repeat split; assumption.
Defined.

(** A request in [Scenario.fullSlot] that prefers a slot of another doctor,
    which is not stored. *)
Lemma unknown_slot_in_fullSlot :
  exists r,
    tokenAllocator.allocateToken "t2" 2 "Bala" WALK_IN "doc-1" (Some "slot-doc-9-0900")
      Scenario.fullSlot = Some r
    /\ onGeneralWaitlist "t2" Scenario.fullSlot r.
Proof.
  apply (proj1 (unknown_preferred_slot_goes_to_general_waitlist
                  "t2" 2 "Bala" WALK_IN "doc-1")).
  - apply oneSlot_reachable.
  - vm_compute. reflexivity.
  - discriminate.
  - vm_compute. reflexivity.
Defined.

(** * Further properties *)

Local Close Scope string_scope.

(** ** What the calls keep *)

Lemma tokenKept_refl t : tokenKept t t.
Proof. by repeat split. Qed.

Lemma tokenMoves_refl t : tokenMoves t t.
Proof. split; [apply tokenKept_refl|]. split; [lia|by right]. Qed.

Lemma tokenMoves_trans t1 t2 t3 : tokenMoves t1 t2 -> tokenMoves t2 t3 -> tokenMoves t1 t3.
Proof.
  intros [(?&?&?&?&?&?) [? ?]] [(?&?&?&?&?&?) [? ?]].
  split; [repeat split; congruence|]. split; [lia|]. lia.
Qed.

Lemma slotMoves_refl o : slotMoves o o.
Proof. split; [by repeat split|by left]. Qed.

Lemma slotMoves_trans o1 o2 o3 : slotMoves o1 o2 -> slotMoves o2 o3 -> slotMoves o1 o3.
Proof.
  intros [(?&?&?&?&?) ?] [(?&?&?&?&?) ?].
  split; [repeat split; congruence|]. destruct (TimeSlot.status o3); naive_solver congruence.
Qed.

Lemma created_moves t t' : created t -> tokenMoves t t' -> created t'.
Proof.
  intros [? ?] [(?&?&?&?&?&?) [? ?]]. split; [lia|congruence].
Qed.

Lemma evolves_refl T : evolves T T.
Proof.
  split; [done|]. split; [|split; [done|]].
  - intros k o Ho. exists o. split; [done|apply slotMoves_refl].
  - intros x t Ht. rewrite Ht. apply tokenMoves_refl.
Qed.

Lemma evolves_trans T1 T2 T3 : evolves T1 T2 -> evolves T2 T3 -> evolves T1 T3.
Proof.
  intros (K1 & S1 & P1 & M1) (K2 & S2 & P2 & M2).
  split; [congruence|]. split; [|split; [auto|]].
  - intros k o3 Ho3. destruct (S2 k o3 Ho3) as (o2 & Ho2 & H23).
    destruct (S1 k o2 Ho2) as (o1 & Ho1 & H12). exists o1. split; [done|].
    by eapply slotMoves_trans.
  - intros x t3 Ht3. specialize (M2 x t3 Ht3).
    destruct (V.getToken x T2) as [t2|] eqn:Ht2.
    + specialize (M1 x t2 Ht2). destruct (V.getToken x T1) as [t1|] eqn:Ht1.
      * by eapply tokenMoves_trans.
      * by eapply created_moves.
    + destruct (V.getToken x T1) as [t1|] eqn:Ht1; [|done].
      destruct (P1 x) as [? ?]; [eauto|congruence].
Qed.

Lemma evolves_alterSlot k g T :
  (forall o, V.getSlot k T = Some o -> slotMoves o (g o)) ->
  evolves T (V.alterSlot k g T).
Proof.
  intros Hg. split; [apply map_alter_fst|]. split; [|split; [done|]].
  - intros k' o' (o & Ho & ->)%getSlot_alterSlot_Some. exists o. split; [done|].
    case_decide; [subst; by apply Hg|apply slotMoves_refl].
  - intros x t Ht. rewrite getToken_alterSlot in Ht. rewrite Ht. apply tokenMoves_refl.
Qed.

Lemma evolves_alterToken x f T :
  (forall t, V.getToken x T = Some t -> tokenMoves t (f t)) ->
  evolves T (V.alterToken x f T).
Proof.
  intros Hf. split; [done|]. split; [|split].
  - intros k o Ho. exists o. split; [done|apply slotMoves_refl].
  - intros y Hy. by apply token_present_alterToken.
  - intros y t' (t & Ht & ->)%getToken_alterToken_Some. rewrite Ht.
    case_decide; [subst; by apply Hf|apply tokenMoves_refl].
Qed.

Lemma evolves_putToken x t T :
  V.getToken x T = None -> created t -> evolves T (V.putToken x t T).
Proof.
  intros Hx Ht. split; [done|]. split; [|split].
  - intros k o Ho. exists o. split; [done|apply slotMoves_refl].
  - intros y Hy. rewrite getToken_putToken. case_decide; [eauto|done].
  - intros y t'. rewrite getToken_putToken. case_decide.
    + intros [= <-]. subst. by rewrite Hx.
    + intros Hy. rewrite Hy. apply tokenMoves_refl.
Qed.

Local Ltac slot_step := intros; split; [by repeat split|by left].
Local Ltac token_step :=
  intros; split; [by repeat split|split; [simpl; lia|by right]].

Lemma evolves_seat k x T : evolves T (V.alterSlot k (V.seat x) T).
Proof. apply evolves_alterSlot. slot_step. Qed.

Lemma evolves_unseat k x T : evolves T (V.alterSlot k (V.unseat x) T).
Proof. apply evolves_alterSlot. slot_step. Qed.

Lemma evolves_dequeue k x T : evolves T (V.alterSlot k (V.dequeue x) T).
Proof. apply evolves_alterSlot. slot_step. Qed.

Lemma evolves_addToWaitlist k x T : evolves T (V.addToWaitlist k x T).
Proof. apply evolves_alterSlot. slot_step. Qed.

Lemma evolves_close k T : evolves T (V.alterSlot k (TimeSlot.set_status CLOSED) T).
Proof. apply evolves_alterSlot. intros. split; [by repeat split|by right]. Qed.

Lemma evolves_status x s T : evolves T (V.alterToken x (Token.set_status s) T).
Proof. apply evolves_alterToken. token_step. Qed.

Lemma evolves_slotId x s T : evolves T (V.alterToken x (Token.set_slotId s) T).
Proof. apply evolves_alterToken. token_step. Qed.

Lemma evolves_allocatedUpdate x k now T :
  evolves T (V.alterToken x (tokenAllocator.allocatedUpdate k now) T).
Proof. apply evolves_alterToken. token_step. Qed.

Lemma evolves_place now x k T : evolves T (V.place now x k T).
Proof.
  unfold V.place. eapply evolves_trans; [apply evolves_seat|apply evolves_allocatedUpdate].
Qed.

Lemma evolves_waitlisted x k T : evolves T (V.waitlisted x k T).
Proof.
  unfold V.waitlisted. eapply evolves_trans; [apply evolves_addToWaitlist|].
  apply evolves_alterToken. token_step.
Qed.

Lemma evolves_evict k b T :
  V.getToken (Token.id b) T = Some b ->
  priorityRules.canBeBumped (Token.bumpCount b) = true ->
  evolves T (V.evict k b T).
Proof.
  intros Hb Hc. unfold V.evict.
  eapply evolves_trans; [apply evolves_unseat|].
  eapply evolves_trans; [|apply evolves_addToWaitlist].
  apply evolves_alterToken. intros t. rewrite getToken_alterSlot, Hb. intros [= <-].
  apply bool_decide_eq_true in Hc.
  split; [by repeat split|]. simpl. unfold priorityRules.MAX_BUMP_COUNT in *. lia.
Qed.

Lemma evolves_tryBumpLowerPriority now x cat k T T' :
  Shape T -> V.tryBumpLowerPriority now x cat k T = Some T' -> evolves T T'.
Proof.
  intros HS. unfold V.tryBumpLowerPriority.
  destruct (V.getSlot k T) as [o|]; [|done].
  destruct (last (V.bumpable cat o T)) as [b|] eqn:El; [|done]. intros [= <-].
  apply last_Some_elem_of in El.
  destruct (bumpable_elem cat o T b HS El) as (_ & Hb & _ & Hc).
  eapply evolves_trans; [by apply evolves_evict|apply evolves_place].
Qed.

Lemma evolves_allocateToSlot now x cat k T :
  Shape T -> evolves T (V.allocateToSlot now x cat k T).2.
Proof.
  intros HS. unfold V.allocateToSlot.
  destruct (V.getSlot k T); [|apply evolves_refl].
  destruct (V.hasCapacity k T); [apply evolves_place|].
  case_decide; [apply evolves_place|].
  case_decide; [|apply evolves_waitlisted].
  destruct (V.tryBumpLowerPriority now x cat k T) as [T1|] eqn:E; simpl.
  - by eapply evolves_tryBumpLowerPriority.
  - apply evolves_waitlisted.
Qed.

Lemma evolves_allocateToken uuid now n cat d p T :
  Shape T -> V.getToken uuid T = None ->
  evolves T (V.allocateToken uuid now n cat d p T).2.
Proof.
  intros HS Hfresh. unfold V.allocateToken. cbv zeta.
  set (tok := Token.mk uuid n cat (priorityRules.getPriorityScore cat) d None PENDING
                       now None 0).
  assert (evolves T (V.putToken uuid tok T)) as H1.
  { apply evolves_putToken; [done|]. split; [done|done]. }
  assert (Shape (V.putToken uuid tok T)) as HS1 by by apply shape_putToken.
  destruct (if truthy p then _ else _) as [o|]; simpl.
  - eapply evolves_trans; [exact H1|by apply evolves_allocateToSlot].
  - eapply evolves_trans; [exact H1|apply evolves_status].
Qed.

Lemma evolves_promoteFromWaitlist now k T : evolves T (V.promoteFromWaitlist now k T).
Proof.
  unfold V.promoteFromWaitlist.
  destruct (V.getSlot k T) as [o|]; [|apply evolves_refl].
  destruct (TimeSlot.waitlist o) as [|h rest]; [apply evolves_refl|].
  destruct (V.getToken h T) as [th|]; [|apply evolves_refl].
  eapply evolves_trans; [apply evolves_dequeue|].
  eapply evolves_trans; [apply evolves_seat|apply evolves_allocatedUpdate].
Qed.

Lemma evolves_release now k x T : evolves T (V.release now k x T).
Proof.
  unfold V.release.
  eapply evolves_trans; [apply evolves_unseat|apply evolves_promoteFromWaitlist].
Qed.

Lemma evolves_cancelToken now x T T' : V.cancelToken now x T = Some T' -> evolves T T'.
Proof.
  unfold V.cancelToken. destruct (V.getToken x T) as [t|]; [|done].
  case_decide; [intros [= <-]; apply evolves_refl|]. intros [= <-].
  destruct (truthy _ && bool_decide (_ = ALLOCATED)),
           (truthy _ && bool_decide (_ = WAITLISTED));
    repeat first [apply evolves_status
                 |eapply evolves_trans; [|apply evolves_dequeue]
                 |eapply evolves_trans; [|apply evolves_release]].
Qed.

Lemma evolves_markNoShow now x T T' : V.markNoShow now x T = Some T' -> evolves T T'.
Proof.
  unfold V.markNoShow. destruct (V.getToken x T) as [t|]; [|done]. intros [= <-].
  eapply evolves_trans; [apply evolves_status|].
  destruct (truthy _); [apply evolves_release|apply evolves_refl].
Qed.

Lemma evolves_completeToken x T T' : V.completeToken x T = Some T' -> evolves T T'.
Proof.
  unfold V.completeToken. destruct (V.getToken x T) as [t|]; [|done]. intros [= <-].
  apply evolves_status.
Qed.

Lemma evolves_move k target x T : evolves T (V.move k target x T).
Proof.
  unfold V.move.
  eapply evolves_trans; [apply evolves_unseat|].
  eapply evolves_trans; [apply evolves_dequeue|].
  eapply evolves_trans; [apply evolves_seat|apply evolves_slotId].
Qed.

Lemma evolves_forEachToken k others l :
  forall acc T, evolves T (V.forEachToken k others l acc T).2.
Proof.
  induction l as [|x l IH]; intros acc T; simpl; [apply evolves_refl|].
  destruct (V.getToken x T); [|apply IH].
  destruct (List.find _ others) as [target|]; [|apply IH].
  eapply evolves_trans; [apply evolves_move|apply IH].
Qed.

Lemma evolves_redistributePatientsFromSlot k T r :
  V.redistributePatientsFromSlot k T = Some r -> evolves T r.2.
Proof.
  unfold V.redistributePatientsFromSlot. destruct (V.getSlot k T) as [o|]; [|done].
  pose proof (evolves_forEachToken k (V.otherSlots k o T)
                (TimeSlot.allocatedTokens o ++ TimeSlot.waitlist o) (0, 0) T) as H.
  destruct (V.forEachToken _ _ _ _ T) as [acc T1]. intros [= <-]. simpl in *.
  eapply evolves_trans; [exact H|apply evolves_close].
Qed.

Lemma evolves_closeAll ids : forall T, evolves T (V.closeAll ids T).
Proof.
  unfold V.closeAll. induction ids as [|k ids IH]; intros T; simpl; [apply evolves_refl|].
  eapply evolves_trans; [apply evolves_close|apply IH].
Qed.

Lemma evolves_step op T T' : Shape T -> V.step op T = Some T' -> evolves T T'.
Proof.
  intros HS. destruct op; simpl.
  - case_decide; [|done]. intros [= <-]. by apply evolves_allocateToken.
  - apply evolves_cancelToken.
  - apply evolves_markNoShow.
  - apply evolves_completeToken.
  - destruct (V.redistributePatientsFromSlot slotId T) as [r|] eqn:E; [|done].
    simpl. intros [= <-]. by apply (evolves_redistributePatientsFromSlot slotId).
  - intros [= <-]. apply evolves_closeAll.
Qed.

Lemma evolves_steps ops : forall st st',
  reachable st -> steps ops st = Some st' -> evolves (tables st) (tables st').
Proof.
  induction ops as [|op ops IH]; intros st st' Hr; simpl.
  - intros [= <-]. apply evolves_refl.
  - destruct (step op st) as [st1|] eqn:E; [|done]. intros Hs.
    destruct (reachable_inv st Hr) as [W [HS _]].
    destruct (step_spec op st st1 W E) as [_ HV].
    eapply evolves_trans; [by eapply evolves_step|].
    apply IH; [by eapply reachable_step|done].
Qed.

Lemma seeded_available st :
  seeded st -> forall k o, slotOf st k = Some o -> TimeSlot.status o = AVAILABLE.
Proof.
  induction 1 as [|doctor st Hs IH|d l cap st st' Hs IH E]; [done|done|].
  unfold seedData.createSlotsForDoctor in E.
  destruct (store.getDoctor d st) as [doctor|]; [|done].
  destruct (seeded_pristine st Hs) as [W _].
  assert (forall st0, wf st0 ->
            (forall k o, slotOf st0 k = Some o -> TimeSlot.status o = AVAILABLE) ->
            forall k o, slotOf (seedData.createSlots d cap l st0).2 k = Some o ->
                        TimeSlot.status o = AVAILABLE) as Hl.
  { clear. induction l as [|ts l IHl]; intros st0 W0 H0 k o; [by apply H0|].
    rewrite createSlots_cons.
    destruct (createSlot_spec d cap ts st0 W0) as (_ & W1 & HT & _ & _).
    destruct (seedData.createSlot d cap ts st0) as [slotId st1].
    cbn [fst snd] in W1, HT. specialize (IHl st1 W1).
    destruct (seedData.createSlots d cap l st1) as [ids st2]. cbn [snd] in *.
    apply IHl. intros k' o'. unfold slotOf. rewrite HT, map_get_set.
    case_decide; [by intros [= <-]|apply H0]. }
  specialize (Hl st W IH).
  destruct (seedData.createSlots d cap l st) as [ids st1]. injection E as <-.
  exact Hl.
Qed.

Lemma reachable_evolves st :
  reachable st ->
  (forall k o, slotOf st k = Some o ->
     TimeSlot.status o = AVAILABLE \/ TimeSlot.status o = CLOSED)
  /\ (forall x t, tokenOf st x = Some t -> created t).
Proof.
  induction 1 as [st Hs|op st st' Hr [IHs IHt] E].
  - split.
    + intros k o Ho. left. by eapply seeded_available.
    + destruct (seeded_pristine st Hs) as [_ [Ht _]]. intros x t. unfold tokenOf.
      by rewrite Ht.
  - destruct (reachable_inv st Hr) as [W [HS _]].
    destruct (step_spec op st st' W E) as [_ HV].
    destruct (evolves_step op _ _ HS HV) as (_ & S & _ & M). split.
    + intros k o' Ho'. destruct (S k o' Ho') as (o & Ho & _ & Hst).
      destruct (IHs k o Ho); naive_solver congruence.
    + intros x t' Ht'. specialize (M x t' Ht').
      destruct (V.getToken x (tables st)) as [t|] eqn:Ht; [|done].
      eapply created_moves; [by apply (IHt x)|done].
Qed.

(** X1.  A sequence of calls keeps every token: it is still stored, under
    the same id, for the same patient, category, doctor, score and creation
    time, and its bump count has not gone down. *)
Theorem tokens_keep_their_identity st ops st' x t :
  reachable st -> steps ops st = Some st' -> tokenOf st x = Some t ->
  exists t', tokenOf st' x = Some t' /\ tokenKept t t'
             /\ Token.bumpCount t <= Token.bumpCount t'.
Proof.
  intros Hr Hs Ht. destruct (evolves_steps ops st st' Hr Hs) as (_ & _ & P & M).
  destruct (P x) as [t' Ht']; [by eexists|]. exists t'. split; [done|].
  specialize (M x t' Ht'). unfold tokenOf, V.getToken in *. rewrite Ht in M.
  destruct M as (? & ? & _). done.
Qed.

(** X2.  A sequence of calls keeps the slots: the same ids in the same
    order, and for each slot the same doctor, times and capacity. *)
Theorem slots_keep_their_place st ops st' :
  reachable st -> steps ops st = Some st' ->
  (slotTable (tables st')).*1 = (slotTable (tables st)).*1
  /\ forall k o, slotOf st k = Some o ->
       exists o', slotOf st' k = Some o' /\ slotKept o o'.
Proof.
  intros Hr Hs. destruct (evolves_steps ops st st' Hr Hs) as (K & S & _ & _).
  split; [done|]. intros k o Ho.
  assert (is_Some (slotOf st' k)) as [o' Ho'].
  { unfold slotOf. apply map_get_is_Some. rewrite K. apply map_get_is_Some. by eexists. }
  exists o'. split; [done|]. destruct (S k o' Ho') as (o0 & Ho0 & Hk & _).
  unfold slotOf, V.getSlot in *. congruence.
Qed.

(** X3.  A slot that is CLOSED stays CLOSED whatever is called afterwards. *)
Theorem closed_slot_stays_closed st ops st' k o :
  reachable st -> steps ops st = Some st' ->
  slotOf st k = Some o -> TimeSlot.status o = CLOSED ->
  exists o', slotOf st' k = Some o' /\ TimeSlot.status o' = CLOSED.
Proof.
  intros Hr Hs Ho Hc. destruct (evolves_steps ops st st' Hr Hs) as (K & S & _ & _).
  assert (is_Some (slotOf st' k)) as [o' Ho'].
  { unfold slotOf. apply map_get_is_Some. rewrite K. apply map_get_is_Some. by eexists. }
  exists o'. split; [done|]. destruct (S k o' Ho') as (o0 & Ho0 & _ & Hst).
  unfold slotOf, V.getSlot in *. assert (o0 = o) as -> by congruence.
  destruct Hst; congruence.
Qed.

(** X4.  In a reachable store the status of a slot is AVAILABLE or CLOSED:
    the values FULL and OVERFLOW are never stored. *)
Theorem slot_status_is_available_or_closed st k o :
  reachable st -> slotOf st k = Some o ->
  TimeSlot.status o = AVAILABLE \/ TimeSlot.status o = CLOSED.
Proof. intros Hr. by apply (reachable_evolves st Hr). Qed.

(** X5.  In a reachable store no token has been bumped more than
    [MAX_BUMP_COUNT] times. *)
Theorem bump_count_is_bounded st x t :
  reachable st -> tokenOf st x = Some t ->
  0 <= Token.bumpCount t <= priorityRules.MAX_BUMP_COUNT.
Proof. intros Hr Ht. by destruct (proj2 (reachable_evolves st Hr) x t Ht). Qed.

(** X6.  In a reachable store the score of a token is the score of its
    category. *)
Theorem priority_is_the_score_of_the_category st x t :
  reachable st -> tokenOf st x = Some t ->
  Token.priority t = priorityRules.getPriorityScore (Token.patientType t).
Proof. intros Hr Ht. by destruct (proj2 (reachable_evolves st Hr) x t Ht). Qed.

(** ** Invariants of a reachable store *)

(** X7.  In a reachable store the load of a slot is the number of its
    seats. *)
Theorem load_counts_the_seats st k o :
  reachable st -> slotOf st k = Some o ->
  TimeSlot.currentLoad o = Z.of_nat (length (TimeSlot.allocatedTokens o)).
Proof.
  intros Hr Ho. destruct (reachable_inv st Hr) as [_ [HS _]].
  by apply (shape_load _ HS k).
Qed.



(** X10.  In a reachable store every waitlist is in the order of the
    comparator: a token that waits before another has a higher score, or
    the same score and a creation time that is not later. *)
Theorem waitlists_are_sorted st k o :
  reachable st -> slotOf st k = Some o ->
  StronglySorted
    (fun x y => forall tx ty, tokenOf st x = Some tx -> tokenOf st y = Some ty ->
                              sortsBefore tx ty)
    (TimeSlot.waitlist o).
Proof.
  intros Hr Ho. destruct (reachable_inv st Hr) as [_ [HS _]].
  eapply StronglySorted_impl_in; [|by apply (shape_sorted _ HS k)].
  intros x y _ _ Hb tx ty Hx Hy. apply cmpTokens_le. by apply Hb.
Qed.

(** X11.  In a reachable store a token in status ALLOCATED refers to a
    stored slot and has a seat there. *)
Theorem allocated_token_is_seated st x t :
  reachable st -> tokenOf st x = Some t -> Token.status t = ALLOCATED ->
  exists k o, Token.slotId t = Some k /\ slotOf st k = Some o
              /\ x ∈ TimeSlot.allocatedTokens o.
Proof.
  intros Hr Ht Hs. destruct (reachable_inv st Hr) as [_ [_ HA]]. by apply (HA x t).
Qed.

(** ** Placement without a preferred slot *)

Lemma head_js_insert {A : Type} (cmp : A -> A -> Z) x (l : list A) :
  head (js_insert cmp x l)
  = match head l with
    | None => Some x
    | Some h => if decide (cmp x h <= 0) then Some x else Some h
    end.
Proof. destruct l as [|h l]; simpl; [done|]. by case_decide. Qed.

Lemma head_js_sort_key {A : Type} (f : A -> Z) (l : list A) x :
  head (js_sort (fun a b => f a - f b) l) = Some x ->
  exists l1 l2, l = l1 ++ x :: l2
    /\ (forall y, y ∈ l1 -> f x < f y) /\ (forall y, y ∈ l2 -> f x <= f y).
Proof.
  revert x. induction l as [|a l IH]; intros x; [done|].
  change (js_sort (fun a b => f a - f b) (a :: l))
    with (js_insert (fun a b => f a - f b) a (js_sort (fun a b => f a - f b) l)).
  rewrite head_js_insert.
  destruct (head (js_sort (fun a b => f a - f b) l)) as [h|] eqn:Eh.
  - destruct (IH h eq_refl) as (l1 & l2 & -> & H1 & H2). case_decide; intros [= <-].
    + exists [], (l1 ++ h :: l2). split; [done|]. split; [by intros y ?%elem_of_nil|].
      intros y [Hy|[->|Hy]%elem_of_cons]%elem_of_app.
      * specialize (H1 y Hy). lia.
      * lia.
      * specialize (H2 y Hy). lia.
    + exists (a :: l1), l2. split; [done|]. split; [|done].
      intros y [->|Hy]%elem_of_cons; [lia|by apply H1].
  - intros [= <-]. exists [], []. split; [|by split; intros y ?%elem_of_nil].
    assert (js_sort (fun a b => f a - f b) l = []) as Hnil
      by by destruct (js_sort _ l).
    assert (l ≡ₚ []) as Hp by by rewrite <- Hnil, js_sort_perm.
    by apply Permutation_nil_r in Hp as ->.
Qed.

Lemma head_js_sort_None {A : Type} (cmp : A -> A -> Z) (l : list A) :
  head (js_sort cmp l) = None -> l = [].
Proof.
  intros H. assert (js_sort cmp l = []) as Hnil by by destruct (js_sort cmp l).
  assert (l ≡ₚ []) as Hp by by rewrite <- Hnil, js_sort_perm.
  by apply Permutation_nil_r in Hp.
Qed.

(** X12.  [findBestAvailableSlot] looks at the slots of the doctor that are
    not CLOSED and have a free seat, in the order of the store. It answers
    the least loaded of them, the earliest one when several are least
    loaded, and it answers nothing only when there is none. *)
Theorem findBestAvailableSlot_is_least_loaded d st :
  let load s := TimeSlot.currentLoad (store.slotAt st s) in
  let open :=
    filter (fun s => TimeSlot.status (store.slotAt st s) <> CLOSED
                     /\ load s < TimeSlot.maxCapacity (store.slotAt st s))
           (filter (fun s => TimeSlot.doctorId (store.slotAt st s) = d) (slots st).*2) in
  match slotManager.findBestAvailableSlot d st with
  | Some r =>
      exists l1 l2, open = l1 ++ r :: l2
        /\ (forall s, s ∈ l1 -> load r < load s) /\ (forall s, s ∈ l2 -> load r <= load s)
  | None => open = []
  end.
Proof.
  intros load open.
  change (slotManager.findBestAvailableSlot d st)
    with (head (js_sort (fun a b => load a - load b) open)).
  destruct (head (js_sort (fun a b => load a - load b) open)) as [r|] eqn:E.
  - by apply (head_js_sort_key load).
  - by eapply head_js_sort_None.
Qed.

(** ** What an allocation does to the new token and to the slots *)

Lemma findBestAvailableSlot_elem d T o :
  V.findBestAvailableSlot d T = Some o ->
  o ∈ (slotTable T).*2 /\ TimeSlot.doctorId o = d /\ TimeSlot.status o <> CLOSED
  /\ TimeSlot.currentLoad o < TimeSlot.maxCapacity o.
Proof.
  unfold V.findBestAvailableSlot, V.slotsByDoctor. intros H.
  apply head_Some_elem_of in H. rewrite js_sort_perm in H.
  apply list_elem_of_filter in H as [[? ?] H2].
  apply list_elem_of_filter in H2 as [? H3]. done.
Qed.

Lemma stored_under_id T o : Shape T -> o ∈ (slotTable T).*2 -> V.getSlot (TimeSlot.id o) T = Some o.
Proof.
  intros HS (e & -> & He)%list_elem_of_fmap. destruct e as [k o]. simpl.
  assert (V.getSlot k T = Some o) as Ho
    by (apply map_get_NoDup; [apply (shape_slot_keys T HS)|done]).
  by destruct (shape_slot_id T HS k o Ho) as [-> _].
Qed.

Lemma target_is_stored d p T o :
  Shape T ->
  (if truthy p then V.getSlot (default EmptyString p) T
   else V.findBestAvailableSlot d T) = Some o ->
  V.getSlot (TimeSlot.id o) T = Some o.
Proof.
  intros HS. destruct (truthy p).
  - intros Ho. destruct (shape_slot_id T HS _ o Ho) as [E _]. by rewrite E.
  - intros (Ho & _)%findBestAvailableSlot_elem. by apply stored_under_id.
Qed.

Lemma getToken_place now x k T :
  V.getToken x (V.place now x k T) = tokenAllocator.allocatedUpdate k now <$> V.getToken x T.
Proof.
  unfold V.place. rewrite getToken_alterToken, getToken_alterSlot. by case_decide.
Qed.

Lemma getToken_waitlisted x k T :
  V.getToken x (V.waitlisted x k T)
  = (fun t => Token.set_slotId (Some k) (Token.set_status WAITLISTED t)) <$> V.getToken x T.
Proof.
  unfold V.waitlisted, V.addToWaitlist.
  rewrite getToken_alterToken, getToken_alterSlot. by case_decide.
Qed.

Lemma allocateToSlot_status now x cat k T t :
  V.getToken x (V.allocateToSlot now x cat k T).2 = Some t ->
  is_Some (V.getSlot k T) ->
  Token.status t = (if (V.allocateToSlot now x cat k T).1 then ALLOCATED else WAITLISTED)
  /\ Token.slotId t = Some k.
Proof.
  unfold V.allocateToSlot. intros Ht [o Ho]. rewrite Ho in *.
  assert (forall T0, V.getToken x (V.place now x k T0) = Some t ->
            Token.status t = ALLOCATED /\ Token.slotId t = Some k) as Hp.
  { intros T0. rewrite getToken_place. destruct (V.getToken x T0); [|done].
    by intros [= <-]. }
  assert (forall T0, V.getToken x (V.waitlisted x k T0) = Some t ->
            Token.status t = WAITLISTED /\ Token.slotId t = Some k) as Hw.
  { intros T0. rewrite getToken_waitlisted. destruct (V.getToken x T0); [|done].
    by intros [= <-]. }
  destruct (V.hasCapacity k T); [by apply (Hp T)|].
  case_decide; [by apply (Hp T)|].
  case_decide; [|by apply (Hw T)].
  unfold V.tryBumpLowerPriority in *. rewrite Ho in *.
  destruct (last (V.bumpable cat o T)) as [b|]; [|by apply (Hw T)].
  by apply (Hp (V.evict k b T)).
Qed.

Lemma token_keys_alterToken x f T :
  (tokenTable (V.alterToken x f T)).*1 = (tokenTable T).*1.
Proof. apply map_alter_fst. Qed.

Lemma token_keys_allocateToSlot now x cat k T :
  (tokenTable (V.allocateToSlot now x cat k T).2).*1 = (tokenTable T).*1.
Proof.
  unfold V.allocateToSlot, V.tryBumpLowerPriority.
  destruct (V.getSlot k T) as [o|]; [|done].
  assert (forall T0, (tokenTable (V.place now x k T0)).*1 = (tokenTable T0).*1) as Hp
    by (intros; unfold V.place; by rewrite token_keys_alterToken).
  assert ((tokenTable (V.waitlisted x k T)).*1 = (tokenTable T).*1) as Hw
    by (unfold V.waitlisted; by rewrite token_keys_alterToken).
  destruct (V.hasCapacity k T); [apply Hp|].
  case_decide; [apply Hp|].
  case_decide; [|apply Hw].
  destruct (last (V.bumpable cat o T)) as [b|]; [|apply Hw].
  cbn [snd]. rewrite Hp. unfold V.evict, V.addToWaitlist. simpl. apply map_alter_fst.
Qed.

Lemma allocateToken_new_token uuid now n cat d p T :
  let tok := Token.mk uuid n cat (priorityRules.getPriorityScore cat) d None PENDING
                      now None 0 in
  let R := V.allocateToken uuid now n cat d p T in
  Shape T -> V.getToken uuid T = None ->
  (tokenTable R.2).*1 = (tokenTable T).*1 ++ [uuid]
  /\ exists t, V.getToken uuid R.2 = Some t /\ tokenKept tok t
               /\ Token.bumpCount t = 0
               /\ Token.status t = (if R.1 then ALLOCATED else WAITLISTED).
Proof.
  intros tok R HS Hfresh. subst R. unfold V.allocateToken. cbv zeta. fold tok.
  set (T1 := V.putToken uuid tok T).
  assert (Shape T1) as HS1 by by apply shape_putToken.
  assert (V.getToken uuid T1 = Some tok) as H1
    by (unfold T1; rewrite getToken_putToken; by rewrite decide_True).
  assert ((tokenTable T1).*1 = (tokenTable T).*1 ++ [uuid]) as K1.
  { unfold T1, V.putToken. simpl. rewrite map_set_fresh by done. by rewrite fmap_app. }
  destruct (if truthy p then _ else _) as [o|] eqn:Eo.
  - apply target_is_stored in Eo; [|done].
    split; [by rewrite token_keys_allocateToSlot|].
    destruct (evolves_allocateToSlot now uuid cat (TimeSlot.id o) T1 HS1)
      as (_ & _ & P & M).
    destruct (P uuid) as [t Ht]; [by eexists|]. exists t. split; [done|].
    specialize (M uuid t Ht). rewrite H1 in M. destruct M as (Hk & Hb1 & Hb2).
    split; [done|].
    destruct (allocateToSlot_status now uuid cat (TimeSlot.id o) T1 t Ht) as [Hst _];
      [by eexists|].
    split; [|done].
    assert (Token.bumpCount t = 0) as ->; [|done].
    revert Ht. clear -H1 Eo HS1 HS Hfresh. unfold V.allocateToSlot. rewrite Eo.
    assert (forall T0 t0, V.getToken uuid T0 = Some t0 -> Token.bumpCount t0 = 0 ->
              V.getToken uuid (V.place now uuid (TimeSlot.id o) T0) = Some t ->
              Token.bumpCount t = 0) as Hp.
    { intros T0 t0 H0 Hb. rewrite getToken_place, H0. by intros [= <-]. }
    assert (V.getToken uuid (V.waitlisted uuid (TimeSlot.id o) T1) = Some t ->
            Token.bumpCount t = 0) as Hw.
    { rewrite getToken_waitlisted, H1. by intros [= <-]. }
    destruct (V.hasCapacity _ T1); [by apply (Hp T1 tok)|].
    case_decide; [by apply (Hp T1 tok)|].
    case_decide; [|done].
    unfold V.tryBumpLowerPriority. rewrite Eo.
    destruct (last (V.bumpable cat o T1)) as [b|] eqn:El; [|done]. simpl.
    apply last_Some_elem_of in El.
    destruct (bumpable_elem cat o T1 b HS1 El) as (Hin & Hb & _ & _).
    assert (Token.id b <> uuid) as Hne.
    { intros E.
      assert (free uuid T1) as Hf by (unfold T1; by apply free_putToken, free_fresh).
      apply (Hf _ o Eo). apply members_seated. by rewrite <- E. }
    apply (Hp _ tok); [|done]. unfold V.evict, V.addToWaitlist.
    rewrite getToken_alterSlot, getToken_alterToken, decide_False by done.
    by rewrite getToken_alterSlot.
  - cbn [fst snd]. split; [by rewrite token_keys_alterToken|].
    exists (Token.set_status WAITLISTED tok).
    rewrite getToken_alterToken, decide_True, H1 by done. by repeat split.
Qed.

(** X13.  In a reachable store a request under a fresh id returns. It adds
    one token, after those that were stored: the token of the patient,
    category and doctor of the request, with the score of the category,
    never bumped. The token is ALLOCATED when the outcome reports success
    and WAITLISTED when it does not. *)
Theorem allocateToken_stores_one_token st uuid now name cat doctor pref :
  reachable st -> tokenOf st uuid = None ->
  exists res st' t,
    tokenAllocator.allocateToken uuid now name cat doctor pref st = Some (res, st')
    /\ (tokenTable (tables st')).*1 = (tokenTable (tables st)).*1 ++ [uuid]
    /\ tokenOf st' uuid = Some t
    /\ Token.id t = uuid /\ Token.patientName t = name /\ Token.patientType t = cat
    /\ Token.doctorId t = doctor /\ Token.createdAt t = now
    /\ Token.priority t = priorityRules.getPriorityScore cat
    /\ Token.bumpCount t = 0
    /\ Token.status t = (if success res then ALLOCATED else WAITLISTED).
Proof.
  intros Hr Hfresh. destruct (reachable_inv st Hr) as [W [HS _]].
  destruct (allocateToken_spec uuid now name cat doctor pref st W)
    as (res & st' & E & _ & HV).
  destruct (allocateToken_new_token uuid now name cat doctor pref (tables st) HS Hfresh)
    as (K & t & Ht & (?&?&?&?&?&?) & Hb & Hst).
  rewrite <- HV in K, Ht, Hst. exists res, st', t. by repeat split.
Qed.

Lemma hasCapacity_stored k T o :
  V.getSlot k T = Some o ->
  V.hasCapacity k T = bool_decide (TimeSlot.currentLoad o < TimeSlot.maxCapacity o).
Proof. intros Ho. unfold V.hasCapacity. by rewrite Ho. Qed.

Lemma allocateToken_seats uuid now n cat d p T o :
  let tok := Token.mk uuid n cat (priorityRules.getPriorityScore cat) d None PENDING
                      now None 0 in
  Shape T -> p <> EmptyString -> V.getSlot p T = Some o ->
  cat = EMERGENCY \/ TimeSlot.currentLoad o < TimeSlot.maxCapacity o ->
  V.allocateToken uuid now n cat d (Some p) T
  = (true, V.place now uuid p (V.putToken uuid tok T)).
Proof.
  intros tok HS Hp Ho Hc. unfold V.allocateToken. cbv zeta. fold tok.
  rewrite (truthy_Some p Hp). simpl (default _ _). rewrite getSlot_putToken, Ho.
  destruct (shape_slot_id T HS p o Ho) as [-> _].
  unfold V.allocateToSlot. rewrite getSlot_putToken, Ho.
  rewrite (hasCapacity_stored _ _ o) by done.
  case_bool_decide; [done|]. case_decide; [done|]. by destruct Hc.
Qed.

Lemma bumpable_nil cat o T :
  (forall x t, x ∈ TimeSlot.allocatedTokens o -> V.getToken x T = Some t ->
               ~ bumpableBy cat t) ->
  V.bumpable cat o T = [].
Proof.
  intros H. destruct (V.bumpable cat o T) as [|b l] eqn:E; [done|].
  assert (b ∈ V.bumpable cat o T) as Hb by (rewrite E; left).
  unfold V.bumpable in Hb. apply list_elem_of_filter in Hb as [Hq Hb].
  apply list_elem_of_omap in Hb as (x & Hx & Ht).
  destruct (H x b Hx Ht). by apply bumpableBy_iff.
Qed.

Lemma allocateToken_waits uuid now n cat d p T o :
  let tok := Token.mk uuid n cat (priorityRules.getPriorityScore cat) d None PENDING
                      now None 0 in
  Shape T -> V.getToken uuid T = None -> p <> EmptyString -> V.getSlot p T = Some o ->
  TimeSlot.maxCapacity o <= TimeSlot.currentLoad o -> cat <> EMERGENCY ->
  (forall x t, x ∈ TimeSlot.allocatedTokens o -> V.getToken x T = Some t ->
               ~ bumpableBy cat t) ->
  V.allocateToken uuid now n cat d (Some p) T
  = (false, V.waitlisted uuid p (V.putToken uuid tok T)).
Proof.
  intros tok HS Hfresh Hp Ho Hfull Hcat Hnb. unfold V.allocateToken. cbv zeta. fold tok.
  rewrite (truthy_Some p Hp). simpl (default _ _). rewrite getSlot_putToken, Ho.
  destruct (shape_slot_id T HS p o Ho) as [-> _].
  unfold V.allocateToSlot. rewrite getSlot_putToken, Ho.
  rewrite (hasCapacity_stored _ _ o) by done.
  case_bool_decide; [lia|]. case_decide; [done|]. case_decide; [|done].
  unfold V.tryBumpLowerPriority. rewrite getSlot_putToken, Ho.
  rewrite bumpable_nil; [done|]. intros x t Hx. rewrite getToken_putToken.
  case_decide as E; [|by apply Hnb]. rewrite <- E in Hx.
  destruct (shape_known T HS p o uuid Ho (members_seated _ _ Hx)). congruence.
Qed.

Lemma allocateToken_keeps_seats uuid now n cat d p T k o o' x :
  cat <> PAID_PRIORITY ->
  V.getSlot k T = Some o -> V.getSlot k (V.allocateToken uuid now n cat d p T).2 = Some o' ->
  x ∈ TimeSlot.allocatedTokens o -> x ∈ TimeSlot.allocatedTokens o'.
Proof.
  intros Hcat Ho. unfold V.allocateToken. cbv zeta.
  set (T1 := V.putToken uuid _ T).
  assert (V.getSlot k T1 = Some o) as Ho1 by done.
  destruct (if truthy p then _ else _) as [s|].
  2:{ cbn [snd]. rewrite getSlot_alterToken, Ho1. by intros [= <-]. }
  unfold V.allocateToSlot. destruct (V.getSlot (TimeSlot.id s) T1) as [o0|] eqn:Ho0.
  2:{ cbn [snd]. rewrite Ho1. by intros [= <-]. }
  assert (V.getSlot k (V.place now uuid (TimeSlot.id s) T1) = Some o' ->
          x ∈ TimeSlot.allocatedTokens o -> x ∈ TimeSlot.allocatedTokens o') as Hp.
  { rewrite getSlot_place. case_decide as E.
    - rewrite E in *. rewrite Ho1. intros [= <-] Hx. simpl. apply elem_of_app. by left.
    - rewrite Ho1. by intros [= <-]. }
  assert (V.getSlot k (V.waitlisted uuid (TimeSlot.id s) T1) = Some o' ->
          x ∈ TimeSlot.allocatedTokens o -> x ∈ TimeSlot.allocatedTokens o') as Hw.
  { rewrite getSlot_waitlisted. case_decide as E.
    - rewrite E in *. rewrite Ho1. by intros [= <-].
    - rewrite Ho1. by intros [= <-]. }
  destruct (V.hasCapacity _ T1); [done|].
  case_decide; [done|]. case_decide; done.
Qed.

(** X14.  In a reachable store, a request under a fresh id that prefers a
    stored slot is seated there when the slot has a free seat, and an
    EMERGENCY request also when it has none: the outcome reports success,
    the new token takes the last seat and the load goes up by one, the
    waitlist and the status of the slot stay, the token is ALLOCATED in the
    slot, and no other slot or token changes. *)
Theorem request_is_seated_in_preferred_slot st uuid now name cat doctor p o :
  reachable st -> tokenOf st uuid = None -> p <> EmptyString ->
  slotOf st p = Some o ->
  cat = EMERGENCY \/ TimeSlot.currentLoad o < TimeSlot.maxCapacity o ->
  exists res st' o' t,
    tokenAllocator.allocateToken uuid now name cat doctor (Some p) st = Some (res, st')
    /\ success res = true
    /\ slotOf st' p = Some o'
    /\ TimeSlot.allocatedTokens o' = TimeSlot.allocatedTokens o ++ [uuid]
    /\ TimeSlot.currentLoad o' = TimeSlot.currentLoad o + 1
    /\ TimeSlot.waitlist o' = TimeSlot.waitlist o
    /\ TimeSlot.status o' = TimeSlot.status o
    /\ (forall k, k <> p -> slotOf st' k = slotOf st k)
    /\ tokenOf st' uuid = Some t
    /\ Token.status t = ALLOCATED /\ Token.slotId t = Some p
    /\ Token.allocatedAt t = Some now
    /\ (forall x, x <> uuid -> tokenOf st' x = tokenOf st x).
Proof.
  intros Hr Hfresh Hp Ho Hc. destruct (reachable_inv st Hr) as [W [HS _]].
  destruct (allocateToken_spec uuid now name cat doctor (Some p) st W)
    as (res & st' & E & _ & HV).
  rewrite (allocateToken_seats uuid now name cat doctor p _ o HS Hp Ho Hc) in HV.
  pose proof (f_equal fst HV) as Hres. pose proof (f_equal snd HV) as HT.
  cbn [fst snd] in Hres, HT. clear HV.
  set (tok := Token.mk uuid name cat (priorityRules.getPriorityScore cat) doctor None
                       PENDING now None 0) in *.
  exists res, st', (V.seat uuid o), (tokenAllocator.allocatedUpdate p now tok).
  split; [done|]. split; [done|].
  change (slotOf st') with (fun k => V.getSlot k (tables st')).
  change (tokenOf st') with (fun x => V.getToken x (tables st')).
  cbv beta. rewrite HT.
  split; [|split; [done|split; [|split; [done|split; [done|split; [|split; [|split;
    [done|split; [done|split; [done|]]]]]]]]]].
  - rewrite getSlot_place, decide_True by done. rewrite getSlot_putToken.
    unfold slotOf in Ho. unfold V.getSlot. by rewrite Ho.
  - simpl. rewrite length_app. simpl. rewrite (shape_load _ HS p o Ho). lia.
  - intros k Hk. rewrite getSlot_place, decide_False by done. done.
  - rewrite getToken_place, getToken_putToken, decide_True by done. done.
  - intros x Hx. unfold V.place. rewrite getToken_alterToken, decide_False by done.
    rewrite getToken_alterSlot, getToken_putToken, decide_False by done. done.
Qed.

(** X15.  In a reachable store, let a request under a fresh id that is not
    an EMERGENCY prefer a stored slot that has no free seat and in which no
    seated token can be bumped by the category of the request. The outcome
    reports failure; the seats and the load of the slot stay, the new token
    joins its waitlist, and is WAITLISTED for that slot; no other slot or
    token changes. *)
Theorem request_waits_for_full_preferred_slot st uuid now name cat doctor p o :
  reachable st -> tokenOf st uuid = None -> p <> EmptyString ->
  slotOf st p = Some o ->
  TimeSlot.maxCapacity o <= TimeSlot.currentLoad o -> cat <> EMERGENCY ->
  (forall x t, x ∈ TimeSlot.allocatedTokens o -> tokenOf st x = Some t ->
               ~ bumpableBy cat t) ->
  exists res st' o' t,
    tokenAllocator.allocateToken uuid now name cat doctor (Some p) st = Some (res, st')
    /\ success res = false
    /\ slotOf st' p = Some o'
    /\ TimeSlot.allocatedTokens o' = TimeSlot.allocatedTokens o
    /\ TimeSlot.currentLoad o' = TimeSlot.currentLoad o
    /\ TimeSlot.waitlist o' ≡ₚ TimeSlot.waitlist o ++ [uuid]
    /\ (forall k, k <> p -> slotOf st' k = slotOf st k)
    /\ tokenOf st' uuid = Some t
    /\ Token.status t = WAITLISTED /\ Token.slotId t = Some p
    /\ (forall x, x <> uuid -> tokenOf st' x = tokenOf st x).
Proof.
  intros Hr Hfresh Hp Ho Hfull Hcat Hnb. destruct (reachable_inv st Hr) as [W [HS _]].
  destruct (allocateToken_spec uuid now name cat doctor (Some p) st W)
    as (res & st' & E & _ & HV).
  rewrite (allocateToken_waits uuid now name cat doctor p _ o HS Hfresh Hp Ho Hfull
             Hcat Hnb) in HV.
  pose proof (f_equal fst HV) as Hres. pose proof (f_equal snd HV) as HT.
  cbn [fst snd] in Hres, HT. clear HV.
  set (tok := Token.mk uuid name cat (priorityRules.getPriorityScore cat) doctor None
                       PENDING now None 0) in *.
  set (T1 := V.putToken uuid tok (tables st)) in *.
  assert (Shape T1) as HS1 by by apply shape_putToken.
  exists res, st', (V.enqueue T1 uuid o),
    (Token.set_slotId (Some p) (Token.set_status WAITLISTED tok)).
  split; [done|]. split; [done|].
  change (slotOf st') with (fun k => V.getSlot k (tables st')).
  change (tokenOf st') with (fun x => V.getToken x (tables st')).
  cbv beta. rewrite HT.
  split; [|split; [done|split; [done|split; [|split; [|split; [|split;
    [done|split; [done|]]]]]]]].
  - rewrite getSlot_waitlisted, decide_True by done. unfold T1.
    rewrite getSlot_putToken. unfold slotOf in Ho. unfold V.getSlot. by rewrite Ho.
  - simpl. apply sortIds_perm; [apply (shape_token_id T1 HS1)|].
    intros x [Hx| ->%list_elem_of_singleton]%elem_of_app.
    + unfold T1. rewrite getToken_putToken. case_decide; [eauto|].
      apply (shape_known _ HS p o x Ho). by apply members_waiting.
    + unfold T1. rewrite getToken_putToken, decide_True by done. eauto.
  - intros k Hk. rewrite getSlot_waitlisted, decide_False by done. done.
  - rewrite getToken_waitlisted. unfold T1.
    rewrite getToken_putToken, decide_True by done. done.
  - intros x Hx. unfold V.waitlisted, V.addToWaitlist.
    rewrite getToken_alterToken, decide_False by done.
    rewrite getToken_alterSlot. unfold T1.
    rewrite getToken_putToken, decide_False by done. done.
Qed.

(** X16.  In a reachable store an allocation takes a seated token off its
    seat only when the request is PAID_PRIORITY and the token is a WALK_IN:
    an EMERGENCY request, which [canBump] lets bump anyone, never evicts. *)
Theorem only_paid_priority_evicts_and_only_walk_ins
    st uuid now name cat doctor pref res st' k o o' x :
  reachable st -> tokenOf st uuid = None ->
  tokenAllocator.allocateToken uuid now name cat doctor pref st = Some (res, st') ->
  slotOf st k = Some o -> slotOf st' k = Some o' ->
  x ∈ TimeSlot.allocatedTokens o -> x ∉ TimeSlot.allocatedTokens o' ->
  cat = PAID_PRIORITY
  /\ exists tx, tokenOf st x = Some tx /\ Token.patientType tx = WALK_IN.
Proof.
  intros Hr Hfresh E Ho Ho' Hx Hx'. destruct (reachable_inv st Hr) as [W [HS _]].
  destruct (allocateToken_spec uuid now name cat doctor pref st W)
    as (res0 & st0 & E0 & _ & HV).
  rewrite E in E0. injection E0 as <- <-.
  change (slotOf st' k) with (V.getSlot k (tables st')) in Ho'.
  change (slotOf st k) with (V.getSlot k (tables st)) in Ho.
  assert (tables st'
          = (V.allocateToken uuid now name cat doctor pref (tables st)).2) as HT
    by by rewrite <- HV.
  assert (cat = PAID_PRIORITY) as ->.
  { destruct (decide (cat = PAID_PRIORITY)) as [|Hne]; [done|]. destruct Hx'.
    rewrite HT in Ho'.
    by apply (allocateToken_keeps_seats uuid now name cat doctor pref (tables st) k o). }
  split; [done|].
  destruct (allocateToken_evicts uuid now name PAID_PRIORITY doctor pref (tables st)
              k o o' x Ho) as (b & _ & El & _ & Hid); [by rewrite <- HT|done|done|].
  apply last_Some_elem_of in El.
  set (tok := Token.mk uuid name PAID_PRIORITY _ doctor None PENDING now None 0) in *.
  assert (Shape (V.putToken uuid tok (tables st))) as HS1 by by apply shape_putToken.
  destruct (bumpable_elem _ _ _ b HS1 El) as (_ & Hb & Hcan & _).
  exists b. rewrite Hid, getToken_putToken in Hb. split.
  - case_decide as Hu; [|done]. rewrite <- Hu in Hx.
    destruct (shape_known _ HS k o uuid Ho (members_seated _ _ Hx)) as [? ?].
    unfold tokenOf, V.getToken in *. congruence.
  - unfold priorityRules.canBump in Hcan. simpl in Hcan.
    by apply bool_decide_eq_true in Hcan.
Qed.

(** ** Cancelling and completing *)

Lemma getToken_release_other now k x T o y :
  Shape T -> V.getSlot k T = Some o -> y ∉ TimeSlot.waitlist o ->
  V.getToken y (V.release now k x T) = V.getToken y T.
Proof.
  intros HS Ho Hy. unfold V.release, V.promoteFromWaitlist.
  rewrite getSlot_alterSlot, decide_True, Ho by done. simpl.
  destruct (TimeSlot.waitlist o) as [|h rest] eqn:Hw; [done|].
  rewrite getToken_alterSlot. destruct (V.getToken h T) as [th|] eqn:Hth; [|done].
  rewrite (shape_token_id T HS h th Hth).
  rewrite getToken_alterToken, decide_False; [done|].
  intros ->. apply Hy. left.
Qed.

Lemma seated_not_waiting T k o x :
  Shape T -> V.getSlot k T = Some o -> x ∈ TimeSlot.allocatedTokens o ->
  x ∉ TimeSlot.waitlist o.
Proof.
  intros HS Ho Hx Hw. pose proof (shape_nodup T HS k o Ho) as Hnd.
  unfold members in Hnd. apply NoDup_app in Hnd as (_ & Hd & _). by apply (Hd x).
Qed.

Lemma cancelToken_status now x T T' :
  Inv T -> V.cancelToken now x T = Some T' ->
  exists t', V.getToken x T' = Some t' /\ Token.status t' = CANCELLED.
Proof.
  intros [HS HA]. unfold V.cancelToken.
  destruct (V.getToken x T) as [t|] eqn:Ht; [|done].
  case_decide as Hc; [intros [= <-]; eauto|]. intros [= <-].
  set (T1 := V.alterToken x (Token.set_status CANCELLED) T).
  assert (V.getToken x T1 = Some (Token.set_status CANCELLED t)) as H1
    by (unfold T1; by rewrite getToken_alterToken, decide_True, Ht).
  exists (Token.set_status CANCELLED t). split; [|done].
  assert (forall T3, V.getToken x T3 = Some (Token.set_status CANCELLED t) ->
            V.getToken x (if truthy (Token.slotId t) && bool_decide (Token.status t = WAITLISTED)
                          then V.alterSlot (default EmptyString (Token.slotId t))
                                 (V.dequeue x) T3 else T3)
            = Some (Token.set_status CANCELLED t)) as Hd
    by (intros T3 H3; by destruct (_ && _)).
  apply Hd.
  destruct (truthy (Token.slotId t) && bool_decide (Token.status t = ALLOCATED)) eqn:Ec;
    [|done].
  apply andb_true_iff in Ec as [Hk Hst]. apply bool_decide_eq_true in Hst.
  destruct (Token.slotId t) as [k|] eqn:Hsl; [|done]. simpl.
  destruct (HA x t Ht Hst) as (k' & o & Hk' & Ho & Hx).
  assert (k' = k) as -> by congruence.
  rewrite (getToken_release_other now k x T1 o x); [done| | |].
  - apply shape_alterToken; [done|apply keeping_status].
  - done.
  - by eapply seated_not_waiting.
Qed.

(** X17.  In a reachable store, after a call of [cancelToken] that returns,
    the token is CANCELLED, and a second call changes nothing: it reports
    failure with the message that the token is already cancelled. *)
Theorem cancelToken_twice st now now' x res st' :
  reachable st -> tokenAllocator.cancelToken now x st = Some (res, st') ->
  exists t,
    tokenOf st' x = Some t /\ Token.status t = CANCELLED
    /\ tokenAllocator.cancelToken now' x st'
       = Some (mkResult false (Some t) "Token already cancelled" None, st').
Proof.
  intros Hr E. destruct (reachable_inv st Hr) as [W HI].
  pose proof (cancelToken_spec now x st W) as H.
  destruct (V.cancelToken now x (tables st)) as [T'|] eqn:EV; [|congruence].
  destruct H as (res0 & st0 & E0 & _ & HT). rewrite E in E0. injection E0 as <- <-.
  destruct (cancelToken_status now x _ _ HI EV) as (t & Ht & Hst).
  rewrite <- HT in Ht. exists t. split; [done|]. split; [done|].
  rewrite V_getToken_tables in Ht. unfold tokenAllocator.cancelToken.
  destruct (store.getToken x st') as [r|]; [|done]. injection Ht as Ht.
  rewrite Ht. by rewrite decide_True.
Qed.

Lemma release_nobody_waits now k x T o :
  V.getSlot k T = Some o -> TimeSlot.waitlist o = [] ->
  V.release now k x T = V.alterSlot k (V.unseat x) T.
Proof.
  intros Ho Hw. unfold V.release, V.promoteFromWaitlist.
  rewrite getSlot_alterSlot, decide_True, Ho by done. simpl. by rewrite Hw.
Qed.

Lemma freed_seat now k x s st st' o :
  Shape (tables st) -> V.getSlot k (tables st) = Some o ->
  x ∈ TimeSlot.allocatedTokens o -> TimeSlot.waitlist o = [] ->
  tables st' = V.release now k x (V.alterToken x (Token.set_status s) (tables st)) ->
  exists o',
    slotOf st' k = Some o'
    /\ TimeSlot.allocatedTokens o' = filter (fun id => id <> x) (TimeSlot.allocatedTokens o)
    /\ TimeSlot.currentLoad o' = TimeSlot.currentLoad o - 1
    /\ TimeSlot.waitlist o' = []
    /\ (Token.status <$> tokenOf st' x) = Some s.
Proof.
  intros HS Ho Hx Hw HT. exists (V.unseat x o).
  rewrite (release_nobody_waits now k x _ o) in HT by done.
  unfold slotOf, tokenOf. rewrite HT.
  change (map_get k (slotTable ?T)) with (V.getSlot k T).
  change (map_get x (tokenTable ?T)) with (V.getToken x T).
  rewrite getSlot_alterSlot, decide_True, getSlot_alterToken, Ho by done.
  split; [done|]. split; [done|]. split; [|split; [done|]].
  - simpl. rewrite (shape_load _ HS k o Ho).
    pose proof (shape_nodup _ HS k o Ho) as Hnd. unfold members in Hnd.
    apply NoDup_app in Hnd as (Hna & _ & _).
    rewrite <- (filter_ne_length _ x Hna Hx). lia.
  - rewrite getToken_alterSlot, getToken_alterToken, decide_True by done.
    destruct (shape_known _ HS k o x Ho (members_seated _ _ Hx)) as [t Ht].
    by rewrite Ht.
Qed.

(** X18.  In a reachable store, let [x] be ALLOCATED in a slot where nobody
    waits. Cancelling [x], and marking it no-show, both return and free the
    seat: [x] leaves the seats, the load goes down by one, and [x] is
    CANCELLED, or NO_SHOW. *)
Theorem seat_is_freed_when_nobody_waits st now x t k o :
  reachable st ->
  tokenOf st x = Some t -> Token.status t = ALLOCATED -> Token.slotId t = Some k ->
  slotOf st k = Some o -> TimeSlot.waitlist o = [] ->
  (exists res st' o',
     tokenAllocator.cancelToken now x st = Some (res, st')
     /\ slotOf st' k = Some o'
     /\ TimeSlot.allocatedTokens o'
        = filter (fun id => id <> x) (TimeSlot.allocatedTokens o)
     /\ TimeSlot.currentLoad o' = TimeSlot.currentLoad o - 1
     /\ TimeSlot.waitlist o' = []
     /\ (Token.status <$> tokenOf st' x) = Some CANCELLED)
  /\ (exists res st' o',
        tokenAllocator.markNoShow now x st = Some (res, st')
        /\ slotOf st' k = Some o'
        /\ TimeSlot.allocatedTokens o'
           = filter (fun id => id <> x) (TimeSlot.allocatedTokens o)
        /\ TimeSlot.currentLoad o' = TimeSlot.currentLoad o - 1
        /\ TimeSlot.waitlist o' = []
        /\ (Token.status <$> tokenOf st' x) = Some NO_SHOW).
Proof.
  intros Hr Ht Hst Hk Ho Hw. destruct (reachable_inv st Hr) as [W HI].
  destruct (seated_slot _ x t k HI Ht Hst Hk) as (o0 & Ho0 & Hx & Hne).
  assert (o0 = o) as -> by (unfold slotOf, V.getSlot in *; congruence).
  destruct HI as [HS _]. split.
  - pose proof (cancelToken_spec now x st W) as H.
    rewrite (cancelToken_allocated now x t k _ Ht Hst Hk Hne) in H.
    destruct H as (res & st' & E & _ & HT).
    destruct (freed_seat now k x CANCELLED st st' o HS Ho0 Hx Hw HT) as (o' & H').
    by exists res, st', o'.
  - pose proof (markNoShow_spec now x st W) as H.
    rewrite (markNoShow_slot now x t k _ Ht Hk Hne) in H.
    destruct H as (res & st' & E & _ & HT).
    destruct (freed_seat now k x NO_SHOW st st' o HS Ho0 Hx Hw HT) as (o' & H').
    by exists res, st', o'.
Qed.


(** X20.  Completing a stored token returns and changes its status only:
    the slots are what they were, so the token keeps its seat and the load
    still counts it, and no other token changes. *)
Theorem completeToken_keeps_the_seat st x t :
  reachable st -> tokenOf st x = Some t ->
  exists st',
    tokenAllocator.completeToken x st = Some st'
    /\ slotTable (tables st') = slotTable (tables st)
    /\ tokenOf st' x = Some (Token.set_status COMPLETED t)
    /\ (forall y, y <> x -> tokenOf st' y = tokenOf st y).
Proof.
  intros Hr Ht. destruct (reachable_inv st Hr) as [W _].
  pose proof (completeToken_spec x st W) as H. unfold V.completeToken in H.
  change (tokenOf st x) with (V.getToken x (tables st)) in Ht. rewrite Ht in H.
  destruct H as (st' & E & _ & HT). exists st'. split; [done|].
  unfold tokenOf. rewrite HT.
  change (map_get ?y (tokenTable ?T)) with (V.getToken y T).
  split; [done|]. split.
  - by rewrite getToken_alterToken, decide_True, Ht.
  - intros y Hy. by rewrite getToken_alterToken, decide_False.
Qed.

(** ** Requests that find no slot *)

Lemma general_waitlist_outcome st uuid now name cat doctor pref :
  wf st -> tokenOf st uuid = None ->
  (if truthy pref then V.getSlot (default EmptyString pref) (tables st)
   else V.findBestAvailableSlot doctor (tables st)) = None ->
  exists r,
    tokenAllocator.allocateToken uuid now name cat doctor pref st = Some r
    /\ onGeneralWaitlist uuid st r.
Proof.
  intros W Hfresh Hnone. unfold tokenAllocator.allocateToken.
  set (o := Token.mk uuid name cat (priorityRules.getPriorityScore cat) doctor None
                     PENDING now None 0).
  destruct (newToken_spec o st W) as (W2 & G2 & T2 & A2 & Hg & Hv).
  destruct (store.newToken o st) as [tok st1] eqn:En. simpl in W2, G2, T2, A2, Hg, Hv.
  cbv zeta. set (st2 := store.addToken tok st1) in *.
  assert ((if truthy pref then store.getSlot (default EmptyString pref) st2
           else slotManager.findBestAvailableSlot doctor st2) = None) as ->.
  { assert (store.slotAt st2 <$>
              (if truthy pref then store.getSlot (default EmptyString pref) st2
               else slotManager.findBestAvailableSlot doctor st2) = None) as H.
    { rewrite <- Hnone. destruct (truthy pref).
      - by rewrite <- V_getSlot_tables, T2.
      - by rewrite findBestAvailableSlot_spec, T2. }
    revert H. generalize (if truthy pref then store.getSlot (default EmptyString pref) st2
                          else slotManager.findBestAvailableSlot doctor st2).
    by intros [r|]. }
  destruct (assignToken_spec uuid tok (Token.set_status WAITLISTED) st2 W2 Hg)
    as (W3 & T3 & S3 & A3).
  set (st3 := store.assignToken tok (Token.set_status WAITLISTED) st2) in *.
  destruct (updateToken_spec (Token.id (store.tokenAt st3 tok))
              (whole (store.tokenAt st3 tok)) st3 W3) as (W4 & G4 & T4).
  set (st4 := store.updateToken _ _ st3) in *.
  assert (tables st4
          = V.alterToken uuid (Token.set_status WAITLISTED) (V.putToken uuid o (tables st)))
    as HT.
  { rewrite T4, T3, A3, A2, T2. apply alterToken_whole. simpl.
    rewrite getToken_putToken. by rewrite decide_True. }
  assert (store.tokenAt st4 tok = Token.set_status WAITLISTED o) as Htok.
  { rewrite (grows_tokenAt st3 st4 tok G4); [by rewrite A3, A2|].
    apply (getToken_valid st3 uuid tok W3). unfold store.getToken in *. by rewrite S3. }
  eexists. split; [done|]. unfold onGeneralWaitlist. cbn [fst snd success message token].
  split; [done|]. split; [done|]. split; [by rewrite HT|].
  exists (store.tokenAt st4 tok). split; [done|]. rewrite Htok. split; [|done].
  rewrite HT. unfold V.alterToken, V.putToken. simpl.
  rewrite map_set_fresh by done. by apply map_alter_last.
Qed.

Lemma no_open_slot st uuid now name cat doctor :
  reachable st -> tokenOf st uuid = None ->
  (forall k o, slotOf st k = Some o -> TimeSlot.doctorId o = doctor ->
     TimeSlot.status o = CLOSED \/ TimeSlot.maxCapacity o <= TimeSlot.currentLoad o) ->
  exists r,
    tokenAllocator.allocateToken uuid now name cat doctor None st = Some r
    /\ onGeneralWaitlist uuid st r.
Proof.
  intros Hr Hfresh Hfull. destruct (reachable_inv st Hr) as [W [HS _]].
  apply general_waitlist_outcome; [done|done|]. simpl.
  destruct (V.findBestAvailableSlot doctor (tables st)) as [o|] eqn:E; [|done].
  apply findBestAvailableSlot_elem in E as (Hin & Hd & Hc & Hl).
  pose proof (stored_under_id _ o HS Hin) as Ho.
  destruct (Hfull _ o Ho Hd); [done|lia].
Qed.

(** X21.  In a reachable store, a request that prefers no slot, for a
    doctor whose slots are all CLOSED or without a free seat, ends on the
    general waitlist, whatever its category: it reports failure, the token
    is WAITLISTED without a slot, and no slot changes. *)
Theorem request_without_open_slot_joins_general_waitlist st uuid now name cat doctor :
  reachable st -> tokenOf st uuid = None ->
  (forall k o, slotOf st k = Some o -> TimeSlot.doctorId o = doctor ->
     TimeSlot.status o = CLOSED \/ TimeSlot.maxCapacity o <= TimeSlot.currentLoad o) ->
  exists r,
    tokenAllocator.allocateToken uuid now name cat doctor None st = Some r
    /\ onGeneralWaitlist uuid st r.
Proof. apply no_open_slot. Qed.

(** ** A doctor who is unavailable *)

Lemma closeAll_count st0 refs :
  (forall r, r ∈ refs -> (r < length (slotHeap st0))%nat) ->
  forall total st,
    wf st -> grows st0 st ->
    (delayHandler.closeAll refs total st).1
    = total + affected (store.slotAt st0 <$> refs).
Proof.
  intros Hvalid. induction refs as [|r refs IH]; intros total st Hwf Hg; simpl.
  { lia. }
  destruct (updateSlot_spec (TimeSlot.id (store.slotAt st r))
              (TimeSlot.set_status CLOSED) st Hwf) as (W1 & G1 & _).
  rewrite IH; [|intros; apply Hvalid; by right|done|by eapply grows_trans].
  rewrite (grows_slotAt st0 st r Hg) by (apply Hvalid; left).
  unfold patients. by rewrite <- Z.add_assoc.
Qed.

Lemma getSlot_closeAll k ids :
  forall T,
    V.getSlot k (V.closeAll ids T)
    = if decide (k ∈ ids) then TimeSlot.set_status CLOSED <$> V.getSlot k T
      else V.getSlot k T.
Proof.
  unfold V.closeAll. induction ids as [|a ids IH]; intros T.
  { rewrite decide_False; [done|apply not_elem_of_nil]. }
  cbn [foldl]. rewrite IH, getSlot_alterSlot.
  repeat case_decide; subst; try done; try (by destruct (V.getSlot _ T));
    exfalso; rewrite ?elem_of_cons, ?not_elem_of_cons in *; naive_solver.
Qed.

Lemma tokenTable_closeAll ids : forall T, tokenTable (V.closeAll ids T) = tokenTable T.
Proof.
  unfold V.closeAll. induction ids as [|a ids IH]; intros T; simpl; [done|].
  by rewrite IH.
Qed.

Lemma slotsByDoctor_ids d T k :
  Shape T ->
  k ∈ TimeSlot.id <$> V.slotsByDoctor d T
  <-> exists o, V.getSlot k T = Some o /\ TimeSlot.doctorId o = d.
Proof.
  intros HS. unfold V.slotsByDoctor. rewrite list_elem_of_fmap. split.
  - intros (o & -> & [Hd Hin]%list_elem_of_filter). exists o. split; [|done].
    by apply stored_under_id.
  - intros (o & Ho & Hd). exists o.
    split; [by destruct (shape_slot_id T HS k o Ho)|].
    apply list_elem_of_filter. split; [done|].
    apply list_elem_of_fmap. exists (k, o). split; [done|].
    by apply map_get_elem_of.
Qed.

(** X22.  In a reachable store, [handleDoctorUnavailable] for a registered
    doctor returns: every slot of the doctor is CLOSED and otherwise as it
    was, the slots of other doctors and all tokens are untouched, and the
    answer counts the slots of the doctor and the patients they list. *)
Theorem doctor_unavailable_closes_the_slots st d reason doctor :
  reachable st -> store.getDoctor d st = Some doctor ->
  exists res st',
    delayHandler.handleDoctorUnavailable d reason st = Some (res, st')
    /\ tokenTable (tables st') = tokenTable (tables st)
    /\ (forall k o, slotOf st k = Some o ->
          slotOf st' k
          = Some (if decide (TimeSlot.doctorId o = d)
                  then TimeSlot.set_status CLOSED o else o))
    /\ affectedSlots res = Z.of_nat (length (V.slotsByDoctor d (tables st)))
    /\ affectedPatients res = affected (V.slotsByDoctor d (tables st)).
Proof.
  intros Hr Hd. destruct (reachable_inv st Hr) as [W [HS _]].
  destruct (delayHandler.handleDoctorUnavailable d reason st) as [[res st']|] eqn:E.
  2:{ unfold delayHandler.handleDoctorUnavailable in E. rewrite Hd in E.
      by destruct (delayHandler.closeAll _ _ _). }
  destruct (handleDoctorUnavailable_spec d reason st res st' W E) as [_ HT].
  exists res, st'. split; [done|]. unfold slotOf. rewrite HT.
  split; [apply tokenTable_closeAll|]. split.
  - intros k o Ho. change (V.getSlot k (tables st) = Some o) in Ho.
    change (map_get k (slotTable ?T)) with (V.getSlot k T).
    unfold V.handleDoctorUnavailable. rewrite getSlot_closeAll, Ho.
    destruct (decide (TimeSlot.doctorId o = d)) as [Ho'|Ho'].
    + rewrite decide_True; [done|]. apply slotsByDoctor_ids; eauto.
    + rewrite decide_False; [done|].
      intros (o' & Ho2 & ?)%slotsByDoctor_ids; [|done]. congruence.
  - unfold delayHandler.handleDoctorUnavailable in E. rewrite Hd in E.
    pose proof (closeAll_count st (store.getSlotsByDoctor d st)
                  (fun r Hr' => getSlotsByDoctor_valid d st r W Hr') 0 st W
                  (grows_refl st)) as Hc.
    destruct (delayHandler.closeAll (store.getSlotsByDoctor d st) 0 st) as [total st1].
    injection E as <- <-. simpl in *.
    rewrite <- getSlotsByDoctor_spec. rewrite length_fmap. split; [done|]. lia.
Qed.


(** ** Redistribution *)

Lemma forEachToken_counts k others l :
  forall acc T,
    (forall x, x ∈ l -> is_Some (V.getToken x T)) ->
    (V.forEachToken k others l acc T).1.1 + (V.forEachToken k others l acc T).1.2
    = acc.1 + acc.2 + Z.of_nat (length l).
Proof.
  induction l as [|x l IH]; intros acc T Hl; [simpl; lia|].
  cbn [V.forEachToken]. destruct (Hl x) as [t Ht]; [left|]. rewrite Ht.
  destruct (List.find _ others) as [target|].
  - rewrite IH; [simpl; lia|]. intros y Hy.
    destruct (evolves_move k target x T) as (_ & _ & P & _). apply P, Hl. by right.
  - rewrite IH; [simpl; lia|]. intros y Hy. apply Hl. by right.
Qed.

(** X24.  In a reachable store, redistributing the patients of a stored
    slot answers two counts that add up to the number of patients that the
    slot listed, seated or waiting. *)
Theorem redistribution_counts_every_patient st k o :
  reachable st -> slotOf st k = Some o ->
  exists res st',
    delayHandler.redistributePatientsFromSlot k st = Some (res, st')
    /\ redistributed res + failed res = patients o.
Proof.
  intros Hr Ho. destruct (reachable_inv st Hr) as [W [HS _]].
  pose proof (redistributePatientsFromSlot_spec k st W) as H.
  unfold V.redistributePatientsFromSlot in H.
  change (V.getSlot k (tables st) = Some o) in Ho. rewrite Ho in H.
  pose proof (forEachToken_counts k (V.otherSlots k o (tables st))
                (TimeSlot.allocatedTokens o ++ TimeSlot.waitlist o) (0, 0) (tables st)
                (fun x Hx => shape_known _ HS k o x Ho Hx)) as Hc.
  destruct (V.forEachToken _ _ _ _ (tables st)) as [[m u] T1].
  destruct H as (res & st' & E & _ & _ & Hm & Hu). exists res, st'. split; [done|].
  simpl in Hc. rewrite Hm, Hu, Hc, length_app. unfold patients. lia.
Qed.

(** The load of each slot counts its seats, and has not grown beyond the
    capacity since [T]. *)
Lemma forEachToken_bound k others l :
  forall acc T,
    (forall k' o, V.getSlot k' T = Some o ->
       TimeSlot.currentLoad o = Z.of_nat (length (TimeSlot.allocatedTokens o))) ->
    forall k' o o',
      V.getSlot k' T = Some o ->
      V.getSlot k' (V.forEachToken k others l acc T).2 = Some o' ->
      TimeSlot.maxCapacity o' = TimeSlot.maxCapacity o
      /\ TimeSlot.currentLoad o' <= Z.max (TimeSlot.currentLoad o) (TimeSlot.maxCapacity o).
Proof.
  induction l as [|x l IH]; intros acc T HP k' o o' Ho.
  { simpl. rewrite Ho. intros [= <-]. split; [done|lia]. }
  cbn [V.forEachToken]. destruct (V.getToken x T); [|by apply IH].
  destruct (List.find _ others) as [target|] eqn:Ef; [|by apply IH].
  apply find_elem_of in Ef as [_ Hcap].
  unfold V.hasCapacity in Hcap. destruct (V.getSlot target T) as [ot|] eqn:Hot; [|done].
  apply bool_decide_eq_true in Hcap. pose proof (HP target ot Hot) as Hlt.
  set (T1 := V.move k target x T).
  assert (exists o1, V.getSlot k' T1 = Some o1
            /\ TimeSlot.maxCapacity o1 = TimeSlot.maxCapacity o
            /\ TimeSlot.currentLoad o1
               <= Z.max (TimeSlot.currentLoad o) (TimeSlot.maxCapacity o)) as (o1 & Ho1 & Hc1 & Hb1).
  { unfold T1, V.move.
    rewrite getSlot_alterToken, !getSlot_alterSlot.
    pose proof (HP k' o Ho) as Hlo.
    assert (length (filter (fun id => id <> x) (TimeSlot.allocatedTokens o))
            <= length (TimeSlot.allocatedTokens o))%nat as Hf by apply length_filter.
    repeat case_decide; subst; rewrite ?Ho, ?Hot in *; simplify_eq; simpl;
      eexists; (split; [done|]); (split; [done|]); simpl;
      rewrite ?length_app; simpl; lia. }
  intros Ho'. destruct (IH (fst acc + 1, snd acc) T1) with (k' := k') (o := o1) (o' := o')
    as [Hc Hb]; [|done|done|split; [congruence|lia]].
  intros k2 o2. unfold T1, V.move.
  rewrite getSlot_alterToken, !getSlot_alterSlot.
  repeat case_decide; subst;
    repeat (match goal with
            | |- context [V.getSlot ?k T] => destruct (V.getSlot k T) eqn:?
            end); simpl; intros; simplify_eq; simpl; eauto.
Qed.

(** X25.  In a reachable store a redistribution seats nobody beyond the
    capacity: the load of a slot afterwards is at most its capacity, or at
    most what it was when the slot was already beyond it. *)
Theorem redistribution_never_overfills st k res st' k' o o' :
  reachable st ->
  delayHandler.redistributePatientsFromSlot k st = Some (res, st') ->
  slotOf st k' = Some o -> slotOf st' k' = Some o' ->
  TimeSlot.currentLoad o' <= Z.max (TimeSlot.currentLoad o) (TimeSlot.maxCapacity o).
Proof.
  intros Hr E Ho Ho'. destruct (reachable_inv st Hr) as [W [HS _]].
  pose proof (redistributePatientsFromSlot_spec k st W) as H.
  unfold V.redistributePatientsFromSlot in H.
  destruct (V.getSlot k (tables st)) as [ok|] eqn:Hk; [|congruence].
  pose proof (forEachToken_bound k (V.otherSlots k ok (tables st))
                (TimeSlot.allocatedTokens ok ++ TimeSlot.waitlist ok) (0, 0) (tables st)
                (shape_load _ HS) k' o) as Hb.
  destruct (V.forEachToken _ _ _ _ (tables st)) as [[m u] T1].
  destruct H as (res0 & st0 & E0 & _ & HT & _). rewrite E in E0. injection E0 as <- <-.
  unfold slotOf in Ho'. rewrite HT in Ho'.
  change (V.getSlot k' (V.alterSlot k (TimeSlot.set_status CLOSED) T1) = Some o') in Ho'.
  apply getSlot_alterSlot_Some in Ho' as (o1 & Ho1 & ->).
  destruct (Hb o1 Ho Ho1) as [_ Hle]. by case_decide.
Qed.

(** ** The store *)

(** X26.  [updateSlot] on a stored id stores a new object, the old one with
    the updates applied, in the place of the old one; the object that
    [getSlot] handed out before is not changed, and no other id is
    affected. On an id that is not stored, [updateSlot] does nothing. *)
Theorem updateSlot_makes_a_copy st id updates :
  wf st ->
  let st' := store.updateSlot id updates st in
  match store.getSlot id st with
  | Some r =>
      exists r', store.getSlot id st' = Some r' /\ r' <> r
        /\ store.slotAt st' r' = updates (store.slotAt st r)
        /\ store.slotAt st' r = store.slotAt st r
        /\ (forall id', id' <> id -> store.getSlot id' st' = store.getSlot id' st)
        /\ (slots st').*1 = (slots st).*1
  | None => st' = st
  end.
Proof.
  intros W st'. destruct (store.getSlot id st) as [r|] eqn:E.
  2:{ unfold st', store.updateSlot. unfold store.getSlot in E. by rewrite E. }
  pose proof (getSlot_valid st id r W E) as Hr.
  destruct (updateSlot_spec id updates st W) as (_ & G & _). fold st' in G.
  unfold st', store.updateSlot, store.getSlot in *. rewrite E in *. simpl in *.
  exists (length (slotHeap st)). rewrite map_get_set_eq.
  split; [done|]. split; [lia|]. split; [|split; [|split]].
  - rewrite !slotAt_deref. simpl. by rewrite deref_app_new.
  - rewrite !slotAt_deref. simpl. by rewrite deref_app_l.
  - intros id' Hne. by rewrite map_get_set_ne.
  - rewrite (map_set_alter id _ r) by done. apply map_alter_fst.
Qed.

(** X27.  In a reachable store the two records of where a patient sits
    agree: for a token that is ALLOCATED, [getTokensBySlot] of a stored
    slot returns it exactly when the slot has it among its seats. *)
Theorem getTokensBySlot_agrees_with_seats st x token k o :
  reachable st -> store.getToken x st = Some token ->
  Token.status (store.tokenAt st token) = ALLOCATED ->
  slotOf st k = Some o ->
  token ∈ store.getTokensBySlot k st <-> x ∈ TimeSlot.allocatedTokens o.
Proof.
  intros Hr Hg Hst Ho. destruct (reachable_inv st Hr) as [_ [HS HA]].
  pose proof (getToken_tokenOf st x token Hg) as Ht.
  destruct (HA x _ Ht Hst) as (k' & o' & Hk' & Ho' & Hx).
  unfold store.getTokensBySlot, store.getAllTokens.
  change (map snd (tokens st)) with (tokens st).*2. rewrite list_elem_of_filter.
  split.
  - intros [Hk _]. assert (k' = k) as -> by congruence.
    unfold slotOf, V.getSlot in *. congruence.
  - intros Hx2. split.
    + destruct (decide (k' = k)) as [->|Hne]; [done|].
      destruct (shape_disjoint _ HS k' k o' o x Hne Ho' Ho); by apply members_seated.
    + apply list_elem_of_fmap. exists (x, token). split; [done|].
      by apply map_get_elem_of.
Qed.

(** ** The priority rules *)

(** X28.  The comparator puts [a] first exactly when its score is higher,
    or the scores are equal and [a] was created earlier; it answers 0
    exactly when score and creation time are equal, and swapping the tokens
    negates the answer. *)
Theorem compareTokenPriority_orders_by_score_then_time pa ta pb tb :
  (priorityRules.compareTokenPriority pa ta pb tb < 0
   <-> pa > pb \/ (pa = pb /\ ta < tb))
  /\ (priorityRules.compareTokenPriority pa ta pb tb = 0 <-> pa = pb /\ ta = tb)
  /\ priorityRules.compareTokenPriority pb tb pa ta
     = - priorityRules.compareTokenPriority pa ta pb tb.
Proof. unfold priorityRules.compareTokenPriority. repeat case_decide; lia. Qed.

(** X29.  Whoever [canBump] lets bump has a score at least that of the
    bumped category, and a higher one unless both are EMERGENCY; and the
    bump rule is never mutual except between two EMERGENCY patients. *)
Theorem canBump_follows_the_scores a b :
  priorityRules.canBump a b = true ->
  (priorityRules.getPriorityScore b < priorityRules.getPriorityScore a
   /\ priorityRules.canBump b a = false)
  \/ (a = EMERGENCY /\ b = EMERGENCY).
Proof. destruct a, b; simpl; intros H; try done; (by right) || (left; by split). Qed.

Local Open Scope string_scope.

(** ** The further properties at work on the scenarios *)

(** A fact about a scenario, by evaluation. *)
Local Ltac evaluated := vm_compute; repeat eexists.

(** After a bump in [Scenario.fullSlot], the bumped token t1 is the token
    it was. *)
Lemma identity_of_a_bumped_token :
  exists st' t t',
    steps [Allocate "t2" 2 "Bala" PAID_PRIORITY "doc-1" (Some Scenario.slot0900)]
          Scenario.fullSlot = Some st'
    /\ tokenOf Scenario.fullSlot "t1" = Some t
    /\ tokenOf st' "t1" = Some t' /\ tokenKept t t'
    /\ Token.bumpCount t <= Token.bumpCount t'.
Proof.
  assert (exists st',
            steps [Allocate "t2" 2 "Bala" PAID_PRIORITY "doc-1" (Some Scenario.slot0900)]
                  Scenario.fullSlot = Some st') as [st' Hs] by evaluated.
  assert (exists t, tokenOf Scenario.fullSlot "t1" = Some t) as [t Ht] by evaluated.
  destruct (tokens_keep_their_identity Scenario.fullSlot _ st' "t1" t
              (oneSlot_reachable _ _) Hs Ht) as (t' & Ht' & Hk & Hb).
  exists st', t, t'. exact (conj Hs (conj Ht (conj Ht' (conj Hk Hb)))).
Defined.

(** The two slots of Scenario E after the redistribution. *)
Lemma slots_after_redistribution :
  exists st',
    steps [Redistribute Scenario.slot0900] Scenario.beforeRedistribution = Some st'
    /\ (slotTable (tables st')).*1 = (slotTable (tables Scenario.beforeRedistribution)).*1
    /\ forall k o, slotOf Scenario.beforeRedistribution k = Some o ->
         exists o', slotOf st' k = Some o' /\ slotKept o o'.
Proof.
  assert (exists st',
            steps [Redistribute Scenario.slot0900] Scenario.beforeRedistribution
            = Some st') as [st' Hs] by evaluated.
  exists st'. split; [exact Hs|].
  exact (slots_keep_their_place Scenario.beforeRedistribution _ st'
           (twoSlots_reachable _ _) Hs).
Defined.

(** The slot of [Scenario.closedSlot] after a request that prefers it. *)
Lemma closed_slot_after_a_request :
  exists st' o',
    steps [Allocate "t1" 1 "Asha" WALK_IN "doc-1" (Some Scenario.slot0900)]
          Scenario.closedSlot = Some st'
    /\ slotOf st' Scenario.slot0900 = Some o' /\ TimeSlot.status o' = CLOSED.
Proof.
  assert (exists st',
            steps [Allocate "t1" 1 "Asha" WALK_IN "doc-1" (Some Scenario.slot0900)]
                  Scenario.closedSlot = Some st') as [st' Hs] by evaluated.
  assert (exists o, slotOf Scenario.closedSlot Scenario.slot0900 = Some o
                    /\ TimeSlot.status o = CLOSED) as (o & Ho & Hc) by evaluated.
  destruct (closed_slot_stays_closed Scenario.closedSlot _ st' Scenario.slot0900 o
              (oneSlot_reachable _ _) Hs Ho Hc) as (o' & Ho' & Hc').
  exists st', o'. exact (conj Hs (conj Ho' Hc')).
Defined.

(** The slot of Scenario B, full after the bump. *)
Lemma status_after_the_bump :
  exists o, slotOf Scenario.afterBump Scenario.slot0900 = Some o
            /\ (TimeSlot.status o = AVAILABLE \/ TimeSlot.status o = CLOSED).
Proof.
  assert (exists o, slotOf Scenario.afterBump Scenario.slot0900 = Some o) as [o Ho]
    by evaluated.
  exists o. split; [exact Ho|].
  exact (slot_status_is_available_or_closed Scenario.afterBump Scenario.slot0900 o
           (oneSlot_reachable _ _) Ho).
Defined.

(** The bumped token of Scenario A. *)
Lemma bump_count_after_the_bump :
  exists t, tokenOf Scenario.afterBump "t2" = Some t
            /\ 0 <= Token.bumpCount t <= priorityRules.MAX_BUMP_COUNT.
Proof.
  assert (exists t, tokenOf Scenario.afterBump "t2" = Some t) as [t Ht] by evaluated.
  exists t. split; [exact Ht|].
  exact (bump_count_is_bounded Scenario.afterBump "t2" t (oneSlot_reachable _ _) Ht).
Defined.

(** The score of the paid-priority token of Scenario A. *)
Lemma score_of_the_paid_priority_token :
  exists t, tokenOf Scenario.afterBump "t3" = Some t
            /\ Token.patientType t = PAID_PRIORITY
            /\ Token.priority t = priorityRules.getPriorityScore PAID_PRIORITY.
Proof.
  assert (exists t, tokenOf Scenario.afterBump "t3" = Some t
                    /\ Token.patientType t = PAID_PRIORITY) as (t & Ht & Hc) by evaluated.
  pose proof (priority_is_the_score_of_the_category Scenario.afterBump "t3" t
                (oneSlot_reachable _ _) Ht) as Hp.
  rewrite Hc in Hp. exists t. exact (conj Ht (conj Hc Hp)).
Defined.

(** The slot of Scenario A after the bump: two seats, load 2. *)
Lemma load_after_the_bump :
  exists o, slotOf Scenario.afterBump Scenario.slot0900 = Some o
            /\ TimeSlot.currentLoad o = Z.of_nat (length (TimeSlot.allocatedTokens o)).
Proof.
  assert (exists o, slotOf Scenario.afterBump Scenario.slot0900 = Some o) as [o Ho]
    by evaluated.
  exists o. split; [exact Ho|].
  exact (load_counts_the_seats Scenario.afterBump Scenario.slot0900 o
           (oneSlot_reachable _ _) Ho).
Defined.



(** The waitlist of [Scenario.oneWaiting] after a follow-up request. *)
Lemma waitlist_after_a_follow_up :
  let st := Scenario.run (Scenario.oneSlot 1)
              [Allocate "t1" 1 "Asha" WALK_IN "doc-1" None;
               Allocate "t2" 2 "Bala" WALK_IN "doc-1" (Some Scenario.slot0900);
               Allocate "t3" 3 "Chitra" FOLLOW_UP "doc-1" (Some Scenario.slot0900)] in
  exists o, slotOf st Scenario.slot0900 = Some o
    /\ TimeSlot.waitlist o = ["t3"; "t2"]
    /\ StronglySorted
         (fun x y => forall tx ty, tokenOf st x = Some tx -> tokenOf st y = Some ty ->
                                   sortsBefore tx ty)
         (TimeSlot.waitlist o).
Proof.
  intros st.
  assert (exists o, slotOf st Scenario.slot0900 = Some o
                    /\ TimeSlot.waitlist o = ["t3"; "t2"]) as (o & Ho & Hw) by evaluated.
  exists o. split; [exact Ho|]. split; [exact Hw|].
  exact (waitlists_are_sorted st Scenario.slot0900 o (oneSlot_reachable _ _) Ho).
Defined.

(** The seated token of [Scenario.fullSlot]. *)
Lemma seat_of_the_allocated_token :
  exists t k o,
    tokenOf Scenario.fullSlot "t1" = Some t
    /\ Token.slotId t = Some k /\ slotOf Scenario.fullSlot k = Some o
    /\ "t1" ∈ TimeSlot.allocatedTokens o.
Proof.
  assert (exists t, tokenOf Scenario.fullSlot "t1" = Some t
                    /\ Token.status t = ALLOCATED) as (t & Ht & Hs) by evaluated.
  destruct (allocated_token_is_seated Scenario.fullSlot "t1" t
              (oneSlot_reachable _ _) Ht Hs) as (k & o & Hk & Ho & Hin).
  exists t, k, o. exact (conj Ht (conj Hk (conj Ho Hin))).
Defined.

(** A paid-priority request in [Scenario.fullSlot], which bumps. *)
Lemma token_of_a_request :
  exists res st' t,
    tokenAllocator.allocateToken "t2" 2 "Bala" PAID_PRIORITY "doc-1"
      (Some Scenario.slot0900) Scenario.fullSlot = Some (res, st')
    /\ (tokenTable (tables st')).*1 = ["t1"; "t2"]
    /\ tokenOf st' "t2" = Some t
    /\ Token.status t = (if success res then ALLOCATED else WAITLISTED).
Proof.
  assert (tokenOf Scenario.fullSlot "t2" = None) as Hf by (vm_compute; reflexivity).
  assert ((tokenTable (tables Scenario.fullSlot)).*1 = ["t1"]) as Hk
    by (vm_compute; reflexivity).
  destruct (allocateToken_stores_one_token Scenario.fullSlot "t2" 2 "Bala" PAID_PRIORITY
              "doc-1" (Some Scenario.slot0900) (oneSlot_reachable _ _) Hf)
    as (res & st' & t & E & K & Ht & _ & _ & _ & _ & _ & _ & _ & Hst).
  rewrite Hk in K. exists res, st', t. exact (conj E (conj K (conj Ht Hst))).
Defined.

(** A walk-in request that prefers the empty slot of [Scenario.emptySlot]. *)
Lemma request_in_the_empty_slot :
  exists res st' o' t,
    tokenAllocator.allocateToken "t1" 1 "Asha" WALK_IN "doc-1"
      (Some Scenario.slot0900) Scenario.emptySlot = Some (res, st')
    /\ success res = true
    /\ slotOf st' Scenario.slot0900 = Some o'
    /\ TimeSlot.allocatedTokens o' = ["t1"] /\ TimeSlot.currentLoad o' = 1
    /\ tokenOf st' "t1" = Some t /\ Token.status t = ALLOCATED.
Proof.
  assert (tokenOf Scenario.emptySlot "t1" = None) as Hf by (vm_compute; reflexivity).
  assert (exists o, slotOf Scenario.emptySlot Scenario.slot0900 = Some o
                    /\ TimeSlot.allocatedTokens o = []
                    /\ TimeSlot.currentLoad o = 0 /\ TimeSlot.maxCapacity o = 1)
    as (o & Ho & Ha & Hl & Hc) by evaluated.
  assert (Scenario.slot0900 <> EmptyString) as Hp by discriminate.
  assert (WALK_IN = EMERGENCY \/ TimeSlot.currentLoad o < TimeSlot.maxCapacity o) as Hroom
    by (right; rewrite Hl, Hc; reflexivity).
  destruct (request_is_seated_in_preferred_slot Scenario.emptySlot "t1" 1 "Asha" WALK_IN
              "doc-1" Scenario.slot0900 o (oneSlot_reachable _ _) Hf Hp Ho Hroom)
    as (res & st' & o' & t & E & Hs & Ho' & Ha' & Hl' & _ & _ & _ & Ht & Hst & _).
  rewrite Ha in Ha'. rewrite Hl in Hl'.
  exists res, st', o', t.
  exact (conj E (conj Hs (conj Ho' (conj Ha' (conj Hl' (conj Ht Hst)))))).
Defined.

(** A follow-up request that prefers the full slot of [Scenario.fullSlot]. *)
Lemma request_in_the_full_slot :
  exists res st' o' t,
    tokenAllocator.allocateToken "t2" 2 "Bala" FOLLOW_UP "doc-1"
      (Some Scenario.slot0900) Scenario.fullSlot = Some (res, st')
    /\ success res = false
    /\ slotOf st' Scenario.slot0900 = Some o'
    /\ TimeSlot.allocatedTokens o' = ["t1"]
    /\ TimeSlot.waitlist o' ≡ₚ ["t2"]
    /\ tokenOf st' "t2" = Some t /\ Token.status t = WAITLISTED.
Proof.
  assert (tokenOf Scenario.fullSlot "t2" = None) as Hf by (vm_compute; reflexivity).
  assert (exists o, slotOf Scenario.fullSlot Scenario.slot0900 = Some o
                    /\ TimeSlot.allocatedTokens o = ["t1"] /\ TimeSlot.waitlist o = []
                    /\ TimeSlot.currentLoad o = 1 /\ TimeSlot.maxCapacity o = 1)
    as (o & Ho & Ha & Hw & Hl & Hc) by evaluated.
  assert (Scenario.slot0900 <> EmptyString) as Hp by discriminate.
  assert (TimeSlot.maxCapacity o <= TimeSlot.currentLoad o) as Hfull
    by (rewrite Hl, Hc; apply Z.le_refl).
  assert (FOLLOW_UP <> EMERGENCY) as Hcat by discriminate.
  assert (forall x t, x ∈ TimeSlot.allocatedTokens o ->
                      tokenOf Scenario.fullSlot x = Some t ->
                      ~ bumpableBy FOLLOW_UP t) as Hnone.
  { intros x t _ _ [Hb _]. discriminate Hb. }
  destruct (request_waits_for_full_preferred_slot Scenario.fullSlot "t2" 2 "Bala"
              FOLLOW_UP "doc-1" Scenario.slot0900 o (oneSlot_reachable _ _) Hf Hp Ho
              Hfull Hcat Hnone)
    as (res & st' & o' & t & E & Hs & Ho' & Ha' & _ & Hw' & _ & Ht & Hst & _).
  rewrite Ha in Ha'. rewrite Hw in Hw'.
  exists res, st', o', t.
  exact (conj E (conj Hs (conj Ho' (conj Ha' (conj Hw' (conj Ht Hst)))))).
Defined.

(** Scenario A: the request that bumps is PAID_PRIORITY and the token that
    loses its seat is a WALK_IN. *)
Lemma who_bumps_whom_in_scenario_A :
  exists tx, tokenOf Scenario.beforeBump "t2" = Some tx
             /\ Token.patientType tx = WALK_IN.
Proof.
  assert (exists res,
            tokenAllocator.allocateToken "t3" 3 "Chitra" PAID_PRIORITY "doc-1"
              (Some Scenario.slot0900) Scenario.beforeBump
            = Some (res, Scenario.afterBump)) as [res E] by evaluated.
  assert (tokenOf Scenario.beforeBump "t3" = None) as Hf by (vm_compute; reflexivity).
  assert (exists o o',
            slotOf Scenario.beforeBump Scenario.slot0900 = Some o
            /\ slotOf Scenario.afterBump Scenario.slot0900 = Some o'
            /\ TimeSlot.allocatedTokens o = ["t1"; "t2"]
            /\ TimeSlot.allocatedTokens o' = ["t1"; "t3"])
    as (o & o' & Ho & Ho' & Ha & Ha') by evaluated.
  assert ("t2" ∈ TimeSlot.allocatedTokens o) as Hx.
  { rewrite Ha. apply list_elem_of_further, list_elem_of_here. }
  assert ("t2" ∉ TimeSlot.allocatedTokens o') as Hx'.
  { rewrite Ha'. intros H. apply elem_of_cons in H as [H|H]; [discriminate H|].
    apply elem_of_cons in H as [H|H]; [discriminate H|]. exact (proj1 (elem_of_nil _) H). }
  exact (proj2 (only_paid_priority_evicts_and_only_walk_ins Scenario.beforeBump "t3" 3
                  "Chitra" PAID_PRIORITY "doc-1" (Some Scenario.slot0900) res
                  Scenario.afterBump Scenario.slot0900 o o' "t2"
                  (oneSlot_reachable _ _) Hf E Ho Ho' Hx Hx')).
Defined.

(** Cancelling the seated token of [Scenario.fullSlot], twice. *)
Lemma cancelling_twice :
  exists res st' t,
    tokenAllocator.cancelToken 2 "t1" Scenario.fullSlot = Some (res, st')
    /\ tokenOf st' "t1" = Some t /\ Token.status t = CANCELLED
    /\ tokenAllocator.cancelToken 3 "t1" st'
       = Some (mkResult false (Some t) "Token already cancelled" None, st').
Proof.
  assert (exists res st',
            tokenAllocator.cancelToken 2 "t1" Scenario.fullSlot = Some (res, st'))
    as (res & st' & E) by evaluated.
  destruct (cancelToken_twice Scenario.fullSlot 2 3 "t1" res st'
              (oneSlot_reachable _ _) E) as (t & Ht & Hst & E2).
  exists res, st', t. exact (conj E (conj Ht (conj Hst E2))).
Defined.

(** Cancelling the seated token of [Scenario.fullSlot], where nobody waits. *)
Lemma freeing_the_only_seat :
  exists res st' o',
    tokenAllocator.cancelToken 2 "t1" Scenario.fullSlot = Some (res, st')
    /\ slotOf st' Scenario.slot0900 = Some o'
    /\ TimeSlot.allocatedTokens o' = [] /\ TimeSlot.currentLoad o' = 0.
Proof.
  assert (exists t o,
            tokenOf Scenario.fullSlot "t1" = Some t
            /\ Token.status t = ALLOCATED /\ Token.slotId t = Some Scenario.slot0900
            /\ slotOf Scenario.fullSlot Scenario.slot0900 = Some o
            /\ TimeSlot.waitlist o = [] /\ TimeSlot.allocatedTokens o = ["t1"]
            /\ TimeSlot.currentLoad o = 1)
    as (t & o & Ht & Hst & Hk & Ho & Hw & Ha & Hl) by evaluated.
  destruct (seat_is_freed_when_nobody_waits Scenario.fullSlot 2 "t1" t
              Scenario.slot0900 o (oneSlot_reachable _ _) Ht Hst Hk Ho Hw)
    as [(res & st' & o' & E & Ho' & Ha' & Hl' & _) _].
  rewrite Ha in Ha'. rewrite Hl in Hl'.
  exists res, st', o'. exact (conj E (conj Ho' (conj Ha' Hl'))).
Defined.


(** Completing the seated token of [Scenario.fullSlot]. *)
Lemma completing_the_seated_token :
  exists st',
    tokenAllocator.completeToken "t1" Scenario.fullSlot = Some st'
    /\ slotTable (tables st') = slotTable (tables Scenario.fullSlot)
    /\ (Token.status <$> tokenOf st' "t1") = Some COMPLETED.
Proof.
  assert (exists t, tokenOf Scenario.fullSlot "t1" = Some t) as [t Ht] by evaluated.
  destruct (completeToken_keeps_the_seat Scenario.fullSlot "t1" t
              (oneSlot_reachable _ _) Ht) as (st' & E & Hs & Ht' & _).
  exists st'. rewrite Ht'. exact (conj E (conj Hs eq_refl)).
Defined.

(** An EMERGENCY request in [Scenario.fullSlot] that prefers no slot. *)
Lemma emergency_on_the_general_waitlist :
  exists r,
    tokenAllocator.allocateToken "t2" 2 "Bala" EMERGENCY "doc-1" None
      Scenario.fullSlot = Some r
    /\ onGeneralWaitlist "t2" Scenario.fullSlot r.
Proof.
  assert (tokenOf Scenario.fullSlot "t2" = None) as Hf by (vm_compute; reflexivity).
  assert (exists o0,
            slotTable (tables Scenario.fullSlot) = [(Scenario.slot0900, o0)]
            /\ TimeSlot.maxCapacity o0 = 1 /\ TimeSlot.currentLoad o0 = 1)
    as (o0 & HT & Hc & Hl) by evaluated.
  refine (request_without_open_slot_joins_general_waitlist Scenario.fullSlot "t2" 2
            "Bala" EMERGENCY "doc-1" (oneSlot_reachable _ _) Hf _).
  intros k o Ho _. right. unfold slotOf in Ho. rewrite HT in Ho.
  cbn [map_get] in Ho. case_decide; [|discriminate Ho].
  injection Ho as <-. rewrite Hc, Hl. apply Z.le_refl.
Defined.

(** Scenario E, the doctor being unavailable: two slots and four patients
    are affected. *)
Lemma closing_the_day_of_scenario_E :
  exists res st',
    delayHandler.handleDoctorUnavailable "doc-1" "on leave"
      Scenario.beforeRedistribution = Some (res, st')
    /\ affectedSlots res = 2 /\ affectedPatients res = 4.
Proof.
  assert (exists doctor,
            store.getDoctor "doc-1" Scenario.beforeRedistribution = Some doctor)
    as [doctor Hd] by evaluated.
  destruct (doctor_unavailable_closes_the_slots Scenario.beforeRedistribution "doc-1"
              "on leave" doctor (twoSlots_reachable _ _) Hd)
    as (res & st' & E & _ & _ & Hn & Hp).
  assert (Z.of_nat (length (V.slotsByDoctor "doc-1" (tables Scenario.beforeRedistribution)))
          = 2) as H2 by (vm_compute; reflexivity).
  assert (affected (V.slotsByDoctor "doc-1" (tables Scenario.beforeRedistribution)) = 4)
    as H4 by (vm_compute; reflexivity).
  rewrite H2 in Hn. rewrite H4 in Hp.
  exists res, st'. exact (conj E (conj Hn Hp)).
Defined.


(** Scenario E: the two counts of the redistribution add up to the three
    patients of the first slot. *)
Lemma counts_in_scenario_E :
  exists res st',
    delayHandler.redistributePatientsFromSlot Scenario.slot0900
      Scenario.beforeRedistribution = Some (res, st')
    /\ redistributed res + failed res = 3.
Proof.
  assert (exists o, slotOf Scenario.beforeRedistribution Scenario.slot0900 = Some o
                    /\ patients o = 3) as (o & Ho & Hp) by evaluated.
  destruct (redistribution_counts_every_patient Scenario.beforeRedistribution
              Scenario.slot0900 o (twoSlots_reachable _ _) Ho) as (res & st' & E & Hc).
  rewrite Hp in Hc. exists res, st'. exact (conj E Hc).
Defined.

(** Scenario E: the second slot, of three seats, holds at most three patients
    after the redistribution. *)
Lemma target_slot_of_scenario_E :
  exists res st' o',
    delayHandler.redistributePatientsFromSlot Scenario.slot0900
      Scenario.beforeRedistribution = Some (res, st')
    /\ slotOf st' Scenario.slot1000 = Some o'
    /\ TimeSlot.currentLoad o' <= 3.
Proof.
  assert (exists res st' o',
            delayHandler.redistributePatientsFromSlot Scenario.slot0900
              Scenario.beforeRedistribution = Some (res, st')
            /\ slotOf st' Scenario.slot1000 = Some o') as (res & st' & o' & E & Ho').
  { vm_compute. eexists _, _, _. split; [reflexivity|]. vm_compute. reflexivity. }
  assert (exists o, slotOf Scenario.beforeRedistribution Scenario.slot1000 = Some o
                    /\ Z.max (TimeSlot.currentLoad o) (TimeSlot.maxCapacity o) = 3)
    as (o & Ho & Hm) by evaluated.
  pose proof (redistribution_never_overfills Scenario.beforeRedistribution
                Scenario.slot0900 res st' Scenario.slot1000 o o'
                (twoSlots_reachable _ _) E Ho Ho') as H.
  rewrite Hm in H. exists res, st', o'. exact (conj E (conj Ho' H)).
Defined.

(** Closing the slot of [Scenario.fullSlot] with [updateSlot]: the slot is
    stored, so the update makes a copy. *)
Lemma updating_the_slot_of_fullSlot :
  exists r r',
    store.getSlot Scenario.slot0900 Scenario.fullSlot = Some r
    /\ store.getSlot Scenario.slot0900
         (store.updateSlot Scenario.slot0900 (TimeSlot.set_status CLOSED)
            Scenario.fullSlot) = Some r'
    /\ r' <> r.
Proof.
  assert (exists r, store.getSlot Scenario.slot0900 Scenario.fullSlot = Some r)
    as [r Hr] by evaluated.
  pose proof (updateSlot_makes_a_copy Scenario.fullSlot Scenario.slot0900
                (TimeSlot.set_status CLOSED)
                (proj1 (reachable_inv _ (oneSlot_reachable _ _)))) as H.
  cbv zeta in H. rewrite Hr in H. destruct H as (r' & Hr' & Hne & _).
  exists r, r'. exact (conj Hr (conj Hr' Hne)).
Defined.

(** The token seated in [Scenario.fullSlot] is among the tokens of the
    slot. *)
Lemma tokens_of_the_full_slot :
  exists token, store.getToken "t1" Scenario.fullSlot = Some token
                /\ token ∈ store.getTokensBySlot Scenario.slot0900 Scenario.fullSlot.
Proof.
  assert (exists token o,
            store.getToken "t1" Scenario.fullSlot = Some token
            /\ Token.status (store.tokenAt Scenario.fullSlot token) = ALLOCATED
            /\ slotOf Scenario.fullSlot Scenario.slot0900 = Some o
            /\ TimeSlot.allocatedTokens o = ["t1"]) as (token & o & Hg & Hs & Ho & Ha).
  { vm_compute. eexists _, _. split; [reflexivity|]. vm_compute.
    split; [reflexivity|]. split; reflexivity. }
  exists token. split; [exact Hg|].
  apply (getTokensBySlot_agrees_with_seats Scenario.fullSlot "t1" token
           Scenario.slot0900 o (oneSlot_reachable _ _) Hg Hs Ho).
  rewrite Ha. apply list_elem_of_here.
Defined.

(** A paid-priority patient can bump a walk-in, has the higher score, and
    cannot be bumped by the walk-in. *)
Lemma paid_priority_over_walk_in :
  priorityRules.getPriorityScore WALK_IN < priorityRules.getPriorityScore PAID_PRIORITY
  /\ priorityRules.canBump WALK_IN PAID_PRIORITY = false.
Proof.
  destruct (canBump_follows_the_scores PAID_PRIORITY WALK_IN eq_refl) as [H|[H _]];
    [exact H|discriminate H].
Defined.
